(** * Rimu list engine (src/rimu/lists.ts): a shallow embedding

    The module renders ordered, unordered and definition lists.  It is
    embedded here function by function: the three regular expressions
    of [defs] as data for a small backtracking matcher, the reader and
    the writer as records, the module variable [ids] and the
    process-wide tables as explicit state.

    The command-line app (rimuc.ts), which calls the renderer, is
    embedded in the module [Rimuc]. *)

From Stdlib Require Import Strings.String Strings.Ascii.
From Stdlib Require Import Lists.List Arith.PeanoNat Arith.Arith Bool.Bool.
From Stdlib Require Import ZArith.ZArith micromega.Lia.
Import ListNotations.

Local Open Scope string_scope.
Local Open Scope list_scope.
Local Open Scope nat_scope.
Set Implicit Arguments.

(** ** Regular expressions

    The fragment of JavaScript regular expressions used by [defs]:
    bounded greedy repetition of a character class, concatenation,
    ordered alternation, capturing groups.  All three patterns are
    anchored by [^] and [$] and none is multiline, so a match covers
    the whole line.  Characters are the code units below 256. *)

Module Regex.

Definition cclass := ascii -> bool.

Inductive regex : Type :=
| Eps                                             (* the empty pattern *)
| Rep (c : cclass) (lo : nat) (hi : option nat)   (* c{lo,hi}, c{lo,} greedy *)
| Cat (r1 r2 : regex)
| Alt (r1 r2 : regex)                             (* r1|r2, r1 first *)
| Grp (r : regex).                                (* ( r ) *)

Definition code (a : ascii) : nat := nat_of_ascii a.

(** [\s] *)
Definition space : cclass := fun a =>
  let n := code a in
  ((9 <=? n) && (n <=? 13)) || (n =? 32) || (n =? 160).
(** [\d] *)
Definition digit : cclass := fun a =>
  let n := code a in (48 <=? n) && (n <=? 57).
(** [.] : anything but a line terminator *)
Definition dot : cclass := fun a =>
  let n := code a in negb ((n =? 10) || (n =? 13)).
Definition chr (x : ascii) : cclass := fun a => Ascii.eqb a x.
Definition notchr (x : ascii) : cclass := fun a => negb (Ascii.eqb a x).

Definition Lit (x : ascii) : regex := Rep (chr x) 1 (Some 1).
Definition Opt (x : ascii) : regex := Rep (chr x) 0 (Some 1).
Definition Star (c : cclass) : regex := Rep c 0 None.
Definition Plus (c : cclass) : regex := Rep c 1 None.

(** Length of the longest prefix of [s] in class [c], capped by [hi]. *)
Fixpoint run (c : cclass) (hi : option nat) (s : list ascii) : nat :=
  match hi with
  | Some 0 => 0
  | _ =>
    match s with
    | a :: s' => if c a then S (run c (option_map pred hi) s') else 0
    | [] => 0
    end
  end.

(** Greedy choice with backtracking: [n], then [n-1], ... down to [lo]. *)
Fixpoint try_down (A : Type) (lo n : nat) (k : nat -> option A) : option A :=
  if n <? lo then None
  else match k n with
       | Some x => Some x
       | None => match n with
                 | 0 => None
                 | S n' => try_down lo n' k
                 end
       end.

Definition caps := list (list ascii).

(** The matcher, in continuation-passing style: [k] is what remains of
    the pattern; a failure of [k] makes the matcher try its next
    choice.  [cs] are the groups closed so far, in order. *)
Fixpoint m (A : Type) (r : regex) (s : list ascii) (cs : caps)
    (k : list ascii -> caps -> option A) : option A :=
  match r with
  | Eps => k s cs
  | Rep c lo hi => try_down lo (run c hi s) (fun n => k (skipn n s) cs)
  | Cat r1 r2 => m r1 s cs (fun s' cs' => m r2 s' cs' k)
  | Alt r1 r2 =>
      match m r1 s cs k with
      | Some x => Some x
      | None => m r2 s cs k
      end
  | Grp r1 =>
      m r1 s cs (fun s' cs' => k s' (cs' ++ [firstn (length s - length s') s]))
  end.

(** [$]: the rest of the pattern is the end of the input. *)
Definition at_end (s : list ascii) (cs : caps) : option caps :=
  match s with [] => Some cs | _ => None end.

(** Groups of an anchored match of [r] on [s]. *)
Definition groups (r : regex) (s : list ascii) : option caps :=
  m r s [] at_end.

(** [RegExp.prototype.exec] for an anchored pattern: the array holds
    the whole match, then the groups. *)
Definition exec (r : regex) (line : string) : option (list string) :=
  match groups r (list_ascii_of_string line) with
  | Some cs => Some (line :: map string_of_list_ascii cs)
  | None => None
  end.

(** The matches of a pattern, as a relation: [Matches r s cs s' cs']
    when [r] can consume a prefix of [s] and leave [s'], turning the
    closed groups [cs] into [cs'].  The matcher [m] picks the first of
    them, in the order of greedy backtracking, that its continuation
    accepts. *)
Inductive Matches : regex -> list ascii -> caps -> list ascii -> caps -> Prop :=
| M_Eps s cs : Matches Eps s cs s cs
| M_Rep c lo hi n s cs :
    lo <= n -> n <= run c hi s -> Matches (Rep c lo hi) s cs (skipn n s) cs
| M_Cat r1 r2 s cs s1 cs1 s2 cs2 :
    Matches r1 s cs s1 cs1 -> Matches r2 s1 cs1 s2 cs2 ->
    Matches (Cat r1 r2) s cs s2 cs2
| M_AltL r1 r2 s cs s' cs' :
    Matches r1 s cs s' cs' -> Matches (Alt r1 r2) s cs s' cs'
| M_AltR r1 r2 s cs s' cs' :
    Matches r2 s cs s' cs' -> Matches (Alt r1 r2) s cs s' cs'
| M_Grp r s cs s' cs' :
    Matches r s cs s' cs' ->
    Matches (Grp r) s cs s' (cs' ++ [firstn (length s - length s') s]).

End Regex.

Import Regex.

(** ** List definitions *)

Record ListDef : Type := {
  match_ : regex;
  listOpenTag : string;
  listCloseTag : string;
  itemOpenTag : string;
  itemCloseTag : string;
  termOpenTag : option string;    (* definition lists only *)
  termCloseTag : option string    (* definition lists only *)
}.

Definition backslash : ascii := "\"%char.

(** Every pattern of [defs] starts with an optional backslash:
    [escaped body] is the whole pattern, [body] what follows. *)
Definition escaped (body : regex) : regex := Cat (Opt backslash) body.

(** Unordered lists: [\s* ( -|\+|\*{1,4} ) \s+ ( .* )], blanks added. *)
Definition ul_body : regex :=
  Cat (Star space)
  (Cat (Grp (Alt (Lit "-") (Alt (Lit "+") (Rep (chr "*") 1 (Some 4)))))
  (Cat (Plus space) (Grp (Star dot)))).

(** Ordered lists: [\s* \d* ( \.{1,4} ) \s+ ( .* )]. *)
Definition ol_body : regex :=
  Cat (Star space)
  (Cat (Star digit)
  (Cat (Grp (Rep (chr ".") 1 (Some 4)))
  (Cat (Plus space) (Grp (Star dot))))).

(** Definition lists: [\s* ( .*[^:] ) ( :{2,4} ) ( |\s+.* )]. *)
Definition dl_body : regex :=
  Cat (Star space)
  (Cat (Grp (Cat (Star dot) (Rep (notchr ":") 1 (Some 1))))
  (Cat (Grp (Rep (chr ":") 2 (Some 4)))
       (Grp (Alt Eps (Cat (Plus space) (Star dot)))))).

Definition ul_def : ListDef :=
  {| match_ := escaped ul_body;
     listOpenTag := "<ul>"; listCloseTag := "</ul>";
     itemOpenTag := "<li>"; itemCloseTag := "</li>";
     termOpenTag := None; termCloseTag := None |}.

Definition ol_def : ListDef :=
  {| match_ := escaped ol_body;
     listOpenTag := "<ol>"; listCloseTag := "</ol>";
     itemOpenTag := "<li>"; itemCloseTag := "</li>";
     termOpenTag := None; termCloseTag := None |}.

Definition dl_def : ListDef :=
  {| match_ := escaped dl_body;
     listOpenTag := "<dl>"; listCloseTag := "</dl>";
     itemOpenTag := "<dd>"; itemCloseTag := "</dd>";
     termOpenTag := Some "<dt>"; termCloseTag := Some "</dt>" |}.

Definition defs : list ListDef := [ul_def; ol_def; dl_def].

(** Information about a matched list item element. *)
Record Item : Type := {
  imatch : list string;     (* match *)
  idef : ListDef;           (* def *)
  iid : string              (* id: the list ID *)
}.

(** What [matchItem] returns when it is not [null]: a list item, or
    the empty object for an attached delimited block. *)
Inductive ItemState : Type :=
| ListItem (i : Item)
| Attached.

(** [x.id], [undefined] on the empty object. *)
Definition id_of (x : ItemState) : option string :=
  match x with
  | ListItem i => Some (iid i)
  | Attached => None
  end.

(** ** Reader and writer *)

Definition nl : string := String (ascii_of_nat 10) EmptyString.

Module Reader.

(** Modelled from the spec: io.Reader is not under src/.  It owns the
    ordered sequence of source lines and a current line index, and
    supports: peek the current line, test end of input, advance,
    rewrite the current line in place, skip blank lines. *)
Record t : Type := { lines : list string; pos : nat }.

Definition eof (r : t) : bool := length (lines r) <=? pos r.

(** The current line; [None] at end of input. *)
Definition cursor (r : t) : option string := nth_error (lines r) (pos r).

Fixpoint set_nth (n : nat) (v : string) (l : list string) : list string :=
  match l, n with
  | [], _ => []
  | _ :: l', 0 => v :: l'
  | x :: l', S n' => x :: set_nth n' v l'
  end.

(** [cursor(value)]: rewrite the current line. *)
Definition set_cursor (v : string) (r : t) : t :=
  {| lines := set_nth (pos r) v (lines r); pos := pos r |}.

Definition next (r : t) : t :=
  if eof r then r else {| lines := lines r; pos := S (pos r) |}.

(** Number of lines from the cursor to the end of input. *)
Definition remaining (r : t) : nat := length (lines r) - pos r.

Fixpoint skipBlank (n : nat) (r : t) : t :=
  match n with
  | 0 => r
  | S n' =>
      match cursor r with
      | Some EmptyString => skipBlank n' (next r)
      | _ => r
      end
  end.

(** Advance while the current line is blank. *)
Definition skipBlankLines (r : t) : t := skipBlank (remaining r) r.

End Reader.

(** A fragment pushed on the buffer of the output writer, with the
    [write] statement of lists.ts it comes from.  [termOpenTag] and
    [termCloseTag] are optional properties: writing a missing one
    pushes [undefined], which joins as the empty string. *)
Inductive Frag : Type :=
| ListOpen (tag : string)          (* renderList, the opening tag *)
| ListClose (tag : string)         (* renderList, the closing tag *)
| TermOpen (tag : option string)   (* renderListItem, def.termOpenTag *)
| TermClose (tag : option string)  (* renderListItem, def.termCloseTag *)
| ItemOpen (tag : string)          (* renderListItem, def.itemOpenTag *)
| ItemClose (tag : string)         (* renderListItem, def.itemCloseTag *)
| Text (text : string)             (* renderListItem, replaced text *)
| Block (html : string).           (* written by delimitedBlocks.render *)

Definition frag_text (f : Frag) : string :=
  match f with
  | ListOpen t | ListClose t | ItemOpen t | ItemClose t => t
  | TermOpen t | TermClose t => match t with Some x => x | None => EmptyString end
  | Text t | Block t => t
  end.

Module Writer.

(** Modelled from the spec: io.Writer is not under src/.  It owns an
    accumulating sequence of text fragments with a separator, and
    supports append and stringify. *)
Definition t (A : Type) : Type := list A.

Definition write (A : Type) (x : A) (w : t A) : t A := w ++ [x].

Definition toString (separator : string) (w : t string) : string :=
  String.concat separator w.

End Writer.

(** First character of a string is a backslash: [s[0] === '\\']. *)
Definition starts_with_backslash (s : string) : bool :=
  match s with
  | String a _ => Ascii.eqb a backslash
  | EmptyString => false
  end.

(** [s.slice(1)] *)
Definition slice1 (s : string) : string :=
  match s with
  | String _ s' => s'
  | EmptyString => EmptyString
  end.

(** ** The engine *)

(** What a call of [delimitedBlocks.render(reader, writer)] leaves:
    the reader, the fragments it appended to the writer, the
    process-wide state, and the module variable [ids], which a block
    that contains lists reaches by calling back [render]. *)
Record DbOut (Env : Type) : Type := {
  db_reader : Reader.t;
  db_written : list string;
  db_env : Env;
  db_ids : list string
}.

(** The modules lists.ts imports (utils, io, delimitedblocks,
    lineblocks) are not under src/: the engine takes what it calls of
    them as an interface. *)
Record Externals : Type := {
  (* Process-wide state of the other modules: macro table, pending
     block attributes, options, delimited block definitions. *)
  Env : Type;
  (* The separator of io.Writer. *)
  separator : string;
  (* utils.replaceInline(text, {macros: true, spans: true}) *)
  replaceInline : string -> Env -> string * Env;
  (* utils.injectHtmlAttributes(tag, lineBlocks.blockAttributes) *)
  injectHtmlAttributes : string -> Env -> string * Env;
  (* delimitedBlocks.getDefinition(name).openMatch.test(line) *)
  openMatch : string -> string -> Env -> bool;
  (* delimitedBlocks.render(reader, writer), given the current [ids] *)
  delimitedBlocks_render : list string -> Reader.t -> Env -> DbOut Env
}.

Section Lists.

Variable X : Externals.

(** The state the engine works on: reader, writer, the stack [ids]
    of open list IDs, and the state of the other modules. *)
Record St : Type := {
  reader : Reader.t;
  writer : Writer.t Frag;
  ids : list string;
  env : Env X
}.

Definition set_reader (r : Reader.t) (s : St) : St :=
  {| reader := r; writer := writer s; ids := ids s; env := env s |}.
Definition set_ids (l : list string) (s : St) : St :=
  {| reader := reader s; writer := writer s; ids := l; env := env s |}.
Definition set_env (e : Env X) (s : St) : St :=
  {| reader := reader s; writer := writer s; ids := ids s; env := e |}.
Definition write (f : Frag) (s : St) : St :=
  {| reader := reader s; writer := Writer.write f (writer s);
     ids := ids s; env := env s |}.

(** The loop of [matchItem] over [defs]; [None] when no definition
    matches the line. *)
Fixpoint matchItem_defs (ds : list ListDef) (line : string) (r : Reader.t)
    : option (option ItemState * Reader.t) :=
  match ds with
  | [] => None
  | def :: ds' =>
      match exec (match_ def) line with
      | Some mt =>
          if starts_with_backslash (nth 0 mt EmptyString) then
            (* Drop backslash. *)
            Some (None, Reader.set_cursor (slice1 line) r)
          else
            (* The second to last match group is the list ID. *)
            Some (Some (ListItem
                          {| imatch := mt; idef := def;
                             iid := nth (length mt - 2) mt EmptyString |}),
                  r)
      | None => matchItem_defs ds' line r
      end
  end.

(** [matchItem(reader, attachments)].  Every call in lists.ts comes
    after a test that the reader is not at end of input. *)
Definition matchItem (r : Reader.t) (attachments : list string) (e : Env X)
    : option ItemState * Reader.t :=
  match Reader.cursor r with
  | None => (None, r)
  | Some line =>
      match matchItem_defs defs line r with
      | Some res => res
      | None =>
          if existsb (fun name => openMatch X name line e) attachments
          then (Some Attached, r)
          else (None, r)
      end
  end.

Definition blank (c : option string) : bool :=
  match c with
  | Some EmptyString => true
  | _ => false
  end.

(** [readToNext(reader, writer)]: [w] is the scratch writer of the
    item text.  [None] is running out of fuel. *)
Fixpoint readToNext (fuel : nat) (r : Reader.t) (w : Writer.t string) (e : Env X)
    : option (option ItemState * Reader.t * Writer.t string) :=
  match fuel with
  | 0 => None
  | S fuel' =>
      if Reader.eof r then Some (None, r, w)
      else if blank (Reader.cursor r) then
        (* Encountered blank line. *)
        let r1 := Reader.next r in
        if blank (Reader.cursor r1) then Some (None, r1, w)
        else if Reader.eof r1 then Some (None, r1, w)
        else let (next, r2) := matchItem r1 ["indented"] e in
             Some (next, r2, w)
      else
        let (next, r1) :=
          matchItem r ["comment"; "code"; "division"; "html"; "quote";
                       "quote-paragraph"] e in
        match next with
        | Some _ => Some (next, r1, w)
        | None =>
            let w1 := Writer.write nl
                        (Writer.write
                           (match Reader.cursor r1 with
                            | Some l => l
                            | None => EmptyString
                            end) w) in
            readToNext fuel' (Reader.next r1) w1 e
        end
  end.

(** The branch of [renderListItem] for an attached delimited block, up
    to the test for end of input. *)
Definition renderAttached (s : St) : St :=
  let savedIds := ids s in
  let s1 := set_ids [] s in
  let out := delimitedBlocks_render X (ids s1) (reader s1) (env s1) in
  let s2 := {| reader := db_reader out;
               writer := writer s1 ++ map Block (db_written out);
               ids := db_ids out;
               env := db_env out |} in
  let s3 := set_ids savedIds s2 in
  set_reader (Reader.skipBlankLines (reader s3)) s3.

(** [ids.indexOf(id) !== -1] *)
Definition on_stack (id : string) (l : list string) : bool :=
  existsb (String.eqb id) l.

(** Truth value of [x.id]. *)
Definition has_id (x : ItemState) : bool :=
  match id_of x with
  | Some id => negb (String.eqb id EmptyString)
  | None => false
  end.

Fixpoint renderList (fuel : nat) (startItem : Item) (s : St)
    : option (option ItemState * St) :=
  match fuel with
  | 0 => None
  | S fuel' =>
      let s1 := set_ids (ids s ++ [iid startItem]) s in
      let (tag, e) := injectHtmlAttributes X (listOpenTag (idef startItem)) (env s1) in
      let s2 := write (ListOpen tag) (set_env e s1) in
      renderList_loop fuel' startItem s2
  end

(** The [while (true)] of [renderList]. *)
with renderList_loop (fuel : nat) (startItem : Item) (s : St)
    : option (option ItemState * St) :=
  match fuel with
  | 0 => None
  | S fuel' =>
      match renderListItem fuel' startItem s with
      | None => None
      | Some (nextItem, s1) =>
          (* End of list or next item belongs to ancestor. *)
          let close :=
            let s2 := write (ListClose (listCloseTag (idef startItem))) s1 in
            Some (nextItem, set_ids (removelast (ids s2)) s2) in
          match nextItem with
          | Some (ListItem i) =>
              if String.eqb (iid i) (iid startItem)
              then renderList_loop fuel' i s1
              else close
          | _ => close
          end
      end
  end

with renderListItem (fuel : nat) (startItem : Item) (s : St)
    : option (option ItemState * St) :=
  match fuel with
  | 0 => None
  | S fuel' =>
      let def := idef startItem in
      let mt := imatch startItem in
      let s1 :=
        if length mt =? 4 then
          (* 3 match groups => definition list. *)
          let s' := write (TermOpen (termOpenTag def)) s in
          let (text, e) := replaceInline X (nth 1 mt EmptyString) (env s') in
          write (TermClose (termCloseTag def)) (write (Text text) (set_env e s'))
        else s in
      let s2 := write (ItemOpen (itemOpenTag def)) s1 in
      (* Process of item text. *)
      let lines := Writer.write nl (Writer.write (nth (length mt - 1) mt EmptyString) []) in
      let s3 := set_reader (Reader.next (reader s2)) s2 in
      match readToNext fuel' (reader s3) lines (env s3) with
      | None => None
      | Some (nextItem, r, lines') =>
          let (text, e) := replaceInline X (Writer.toString (separator X) lines') (env s3) in
          let s4 := write (Text text) (set_env e (set_reader r s3)) in
          renderListItem_loop fuel' def nextItem s4
      end
  end

(** The [while (true)] of [renderListItem]. *)
with renderListItem_loop (fuel : nat) (def : ListDef)
    (nextItem : option ItemState) (s : St)
    : option (option ItemState * St) :=
  match fuel with
  | 0 => None
  | S fuel' =>
      match nextItem with
      | None =>
          (* EOF or non-list related item. *)
          Some (None, write (ItemClose (itemCloseTag def)) s)
      | Some x =>
          match x, has_id x with
          | ListItem i, true =>
              (* List item. *)
              if on_stack (iid i) (ids s) then
                (* Item belongs to current list or an ancestor list. *)
                Some (nextItem, write (ItemClose (itemCloseTag def)) s)
              else
                (* Render new child list. *)
                match renderList fuel' i s with
                | None => None
                | Some (nextItem', s1) =>
                    Some (nextItem', write (ItemClose (itemCloseTag def)) s1)
                end
          | _, _ =>
              (* Delimited block. *)
              let s1 := renderAttached s in
              if Reader.eof (reader s1) then
                Some (None, write (ItemClose (itemCloseTag def)) s1)
              else
                let (nextItem', r) := matchItem (reader s1) [] (env s1) in
                renderListItem_loop fuel' def nextItem' (set_reader r s1)
          end
      end
  end.

(** What a call of [render] does: it throws, or it returns a boolean. *)
Inductive Outcome : Type :=
| Throw (msg : string)
| Return (b : bool) (s : St).

Definition render (fuel : nat) (s : St) : option Outcome :=
  if Reader.eof (reader s) then Some (Throw "premature eof")
  else
    let (startItem, r) := matchItem (reader s) [] (env s) in
    let s1 := set_reader r s in
    match startItem with
    | Some (ListItem i) =>
        let s2 := set_ids [] s1 in
        match renderList fuel i s2 with
        | None => None
        | Some (_, s3) => Some (Return true s3)   (* ids should now be empty. *)
        end
    | Some Attached => Some (Throw "TypeError")   (* startItem.def is undefined *)
    | None => Some (Return false s1)
    end.

End Lists.

(** ** Notions used by the statements *)

(** The IDs each definition can give. *)
Definition ul_ids : list string := ["-"; "+"; "*"; "**"; "***"; "****"].
Definition ol_ids : list string := ["."; ".."; "..."; "...."].
Definition dl_ids : list string := ["::"; ":::"; "::::"].

(** The ID [matchItem] gives a line, if any. *)
Definition id_of_line (X : Externals) (line : string) (e : Env X)
    : option string :=
  match fst (matchItem X {| Reader.lines := [line]; Reader.pos := 0 |} [] e) with
  | Some x => id_of x
  | None => None
  end.

(** A reading of the blank line rule under which a single blank line
    always keeps the list going: when the line after it is neither
    blank nor missing, [readToNext] hands back an element, a new item
    or a continuation. *)
Definition blank_line_continues (X : Externals) : Prop :=
  forall r w e fuel line,
    Reader.cursor r = Some EmptyString ->
    Reader.cursor (Reader.next r) = Some line -> line <> EmptyString ->
    Reader.remaining r < fuel ->
    exists x r' w', readToNext X fuel r w e = Some (Some x, r', w').

(** Number of fragments of a kind in what was written. *)
Definition count (p : Frag -> bool) (w : list Frag) : nat :=
  length (filter p w).

Definition is_ListOpen (f : Frag) : bool :=
  match f with ListOpen _ => true | _ => false end.
Definition is_ListClose (f : Frag) : bool :=
  match f with ListClose _ => true | _ => false end.
Definition is_ItemOpen (f : Frag) : bool :=
  match f with ItemOpen _ => true | _ => false end.
Definition is_ItemClose (f : Frag) : bool :=
  match f with ItemClose _ => true | _ => false end.

(** Opening fragments minus closing fragments. *)
Definition depth (opening closing : Frag -> bool) (w : list Frag) : Z :=
  (Z.of_nat (count opening w) - Z.of_nat (count closing w))%Z.

Definition list_depth : list Frag -> Z := depth is_ListOpen is_ListClose.
Definition item_depth : list Frag -> Z := depth is_ItemOpen is_ItemClose.

(** The buffer [w'] is [w] with more fragments appended, among which
    list tags are open [dl] deep and item tags [di] deep. *)
Definition wrote (w w' : list Frag) (dl di : Z) : Prop :=
  exists d, w' = w ++ d /\ list_depth d = dl /\ item_depth d = di.

(** The element handed back to the caller belongs to a list that is
    open in [l]: no element, or a list item whose ID is in [l]. *)
Definition handed_back (l : list string) (next : option ItemState) : Prop :=
  match next with
  | None => True
  | Some (ListItem i) => on_stack (iid i) l = true
  | Some Attached => False
  end.

(** Fuel that is enough for a reader: each item takes a line. *)
Definition fuel_for (r : Reader.t) : nat := 5 * Reader.remaining r + 5.

(** A delimited block renderer never moves the reader backwards. *)
Definition advances (X : Externals) : Prop :=
  forall l r e,
    Reader.remaining (db_reader (delimitedBlocks_render X l r e))
    <= Reader.remaining r.

Section EngineNotions.

Variable X : Externals.

(** The state after the term of a definition list item was written. *)
Definition after_term (startItem : Item) (s : St X) : St X :=
  if length (imatch startItem) =? 4 then
    let s' := write (TermOpen (termOpenTag (idef startItem))) s in
    let (text, e) := replaceInline X (nth 1 (imatch startItem) EmptyString) (env s') in
    write (TermClose (termCloseTag (idef startItem)))
          (write (Text text) (set_env e s'))
  else s.

(** What a call leaves when it returns, for each of the two functions
    and their loops: the stack, the depth of what was written, and the
    element handed back. *)
Definition list_post (startItem : Item) (s : St X)
    (res : option ItemState * St X) : Prop :=
  ids (snd res) = ids s /\
  wrote (writer s) (writer (snd res)) 0 0 /\
  handed_back (ids s) (fst res) /\
  (forall i, fst res = Some (ListItem i) -> iid i <> iid startItem).

Definition list_loop_post (startItem : Item) (s : St X)
    (res : option ItemState * St X) : Prop :=
  ids (snd res) = removelast (ids s) /\
  wrote (writer s) (writer (snd res)) (-1) 0 /\
  handed_back (ids s) (fst res) /\
  (forall i, fst res = Some (ListItem i) -> iid i <> iid startItem).

Definition item_post (s : St X) (res : option ItemState * St X) : Prop :=
  ids (snd res) = ids s /\
  wrote (writer s) (writer (snd res)) 0 0 /\
  handed_back (ids s) (fst res).

Definition item_loop_post (s : St X) (res : option ItemState * St X) : Prop :=
  ids (snd res) = ids s /\
  wrote (writer s) (writer (snd res)) 0 (-1) /\
  handed_back (ids s) (fst res).

(** The reader of the result is not before the reader of [s]. *)
Definition left_of (res : option ItemState * St X) (s : St X) : Prop :=
  Reader.remaining (reader (snd res)) <= Reader.remaining (reader s).

End EngineNotions.

(** ** A sample environment

    Stand-ins for the other modules, to run the engine on concrete
    inputs: text without macros or spans is left as it is, no block
    attributes are pending, a line that starts with white space opens
    an indented block, and a delimited block extends to the next blank
    line. *)

Module Sample.

Definition Globals : Type := unit.

Definition plain_text (text : string) (e : Globals) : string * Globals := (text, e).

Definition no_attributes (tag : string) (e : Globals) : string * Globals := (tag, e).

Definition indented_only (name line : string) (e : Globals) : bool :=
  if String.eqb name "indented" then
    match line with
    | String a _ => space a
    | EmptyString => false
    end
  else false.

Fixpoint take_block (n : nat) (r : Reader.t) (acc : string) : Reader.t * string :=
  match n with
  | 0 => (r, acc)
  | S n' =>
      match Reader.cursor r with
      | None | Some EmptyString => (r, acc)
      | Some l => take_block n' (Reader.next r) (acc ++ l ++ nl)
      end
  end.

Definition block_to_blank (ids : list string) (r : Reader.t) (e : Globals)
    : DbOut Globals :=
  let (r', text) := take_block (Reader.remaining r) r EmptyString in
  {| db_reader := r';
     db_written := ["<pre>"; text; "</pre>"];
     db_env := e;
     db_ids := [] |}.

Definition externals : Externals :=
  {| Env := Globals;
     separator := EmptyString;
     replaceInline := plain_text;
     injectHtmlAttributes := no_attributes;
     openMatch := indented_only;
     delimitedBlocks_render := block_to_blank |}.

Definition start (lines : list string) : St externals :=
  @Build_St externals {| Reader.lines := lines; Reader.pos := 0 |} [] [] tt.

Definition html (o : option (Outcome externals)) : string :=
  match o with
  | Some (Return _ s) => Writer.toString EmptyString (map frag_text (writer s))
  | _ => EmptyString
  end.

End Sample.

(** ** Notions used by the further properties *)

(** The text does not start with a white space character. *)
Definition no_leading_space (t : list ascii) : Prop :=
  match t with
  | c :: _ => space c = false
  | [] => True
  end.

(** Every character of [l] is of the class [c]. *)
Definition in_class (c : cclass) (l : list ascii) : Prop :=
  Forall (fun a => c a = true) l.

(** An item as [matchItem] makes them: its ID is a marker of its
    definition. *)
Definition well_formed (i : Item) : Prop :=
  (idef i = ul_def /\ In (iid i) ul_ids) \/
  (idef i = ol_def /\ In (iid i) ol_ids) \/
  (idef i = dl_def /\ In (iid i) dl_ids).

Definition well_formed_next (next : option ItemState) : Prop :=
  match next with
  | Some (ListItem i) => well_formed i
  | _ => True
  end.

(** The first definition of [defs] whose pattern matches the line. *)
Definition first_match (line : string) : option ListDef :=
  find (fun d => match exec (match_ d) line with
                 | Some _ => true
                 | None => false
                 end) defs.

(** The element a fragment is written into: a list, the term of a
    definition list, an item. *)
Inductive Kind : Type := KList | KTerm | KItem.

(** Reads fragments against the stack of open elements: a list opens
    at top level or in an item, items and terms open in a list, text
    goes into a term or an item, a block into an item, and a closing
    tag closes the innermost open element, which is of its kind. *)
Fixpoint nesting (w : list Frag) (st : list Kind) : option (list Kind) :=
  match w with
  | [] => Some st
  | f :: w' =>
      match f, st with
      | ListOpen _, [] => nesting w' [KList]
      | ListOpen _, KItem :: _ => nesting w' (KList :: st)
      | ListClose _, KList :: st' => nesting w' st'
      | TermOpen _, KList :: _ => nesting w' (KTerm :: st)
      | TermClose _, KTerm :: st' => nesting w' st'
      | ItemOpen _, KList :: _ => nesting w' (KItem :: st)
      | ItemClose _, KItem :: st' => nesting w' st'
      | Text _, KTerm :: _ => nesting w' st
      | Text _, KItem :: _ => nesting w' st
      | Block _, KItem :: _ => nesting w' st
      | _, _ => None
      end
  end.

(** The buffer [w'] is [w] with fragments appended that take the
    stack of open elements from [st] to [st']. *)
Definition emits (w w' : list Frag) (st st' : list Kind) : Prop :=
  exists d, w' = w ++ d /\
            forall rest, nesting (d ++ rest) st = nesting rest st'.

(** A list can open at top level or in an item. *)
Definition opens_list (st : list Kind) : Prop :=
  st = [] \/ exists st', st = KItem :: st'.

(** The IDs of the three definitions. *)
Definition all_ids : list string := ul_ids ++ ol_ids ++ dl_ids.

(** A stack of open lists: IDs of the definitions, each once. *)
Definition stack_ok (l : list string) : Prop := NoDup l /\ incl l all_ids.

(** However many of the first fragments of [d] are read, at most [n]
    more lists were opened than closed. *)
Definition opens_at_most (n : Z) (d : list Frag) : Prop :=
  forall p q, d = p ++ q -> (list_depth p <= n)%Z.

(** The buffer [w'] is [w] with fragments appended that open [k] more
    lists than they close, and never more than [n]. *)
Definition bounded (w w' : list Frag) (k n : Z) : Prop :=
  exists d, w' = w ++ d /\ list_depth d = k /\ opens_at_most n d.

(** The names of the delimited blocks that [readToNext] allows as
    attachments: the indented block after a blank line, the others on
    any line of the item. *)
Definition attachment_names : list string :=
  ["indented"; "comment"; "code"; "division"; "html"; "quote";
   "quote-paragraph"].

(** No line from the cursor on is taken for an attached delimited
    block: a line that no list pattern matches opens none of the
    blocks of [attachment_names]. *)
Definition plain_lines (X : Externals) (r : Reader.t) : Prop :=
  forall k line name e,
    Reader.pos r <= k -> nth_error (Reader.lines r) k = Some line ->
    (forall d, In d defs -> exec (match_ d) line = None) ->
    In name attachment_names ->
    openMatch X name line e = false.

(** The reader is at end of input, or just after a blank line. *)
Definition after_blank (r : Reader.t) : Prop :=
  Reader.eof r = true \/
  exists n, Reader.pos r = S n /\
            nth_error (Reader.lines r) n = Some EmptyString.

(** What a call hands back, with the reader it leaves: never an
    attached block; no element only at end of input or after a blank
    line; and an element with the lines ahead still plain. *)
Definition ends_well (X : Externals) (next : option ItemState)
    (r : Reader.t) : Prop :=
  next <> Some Attached /\
  (next = None -> after_blank r) /\
  (next <> None -> plain_lines X r).

(** The line [l'] is the line [l], as it was or without its leading
    backslash. *)
Definition unescaped (l l' : option string) : Prop :=
  l' = l \/ exists rest, l = Some (String backslash rest) /\ l' = Some rest.


(** ** The command-line app (rimuc)

    The options loop, the default output file, the test for an HTML
    source file, the message of the lint callback, and the conversion
    loop over what it uses of Node's [fs] and of the Rimu module.
    Writing the output is left out. *)

Module Rimuc.

(** *** What the app uses of JavaScript strings and numbers *)

(** A number as [parseInt] gives it: [NaN] or an integer. *)
Inductive Num : Type :=
| NaN
| Int (z : Z).

(** [a < b] and [a > b]: false when a side is [NaN]. *)
Definition num_lt (a : Num) (b : Z) : bool :=
  match a with
  | NaN => false
  | Int z => (z <? b)%Z
  end.

Definition num_gt (a : Num) (b : Z) : bool :=
  match a with
  | NaN => false
  | Int z => (z >? b)%Z
  end.

Definition digit_value (a : ascii) : option Z :=
  let n := nat_of_ascii a in
  if (48 <=? n) && (n <=? 57) then Some (Z.of_nat (n - 48)) else None.

Fixpoint skip_space (s : string) : string :=
  match s with
  | String a s' => if Regex.space a then skip_space s' else s
  | EmptyString => s
  end.

(** The value of the leading decimal digits; [None] without one. *)
Fixpoint leading_digits (s : string) (acc : option Z) : option Z :=
  match s with
  | String a s' =>
      match digit_value a with
      | Some d =>
          leading_digits s'
            (Some (match acc with
                   | Some z => 10 * z + d
                   | None => d
                   end)%Z)
      | None => acc
      end
  | EmptyString => acc
  end.

(** [parseInt(s, 10)]: white space, a sign, digits; the rest of the
    string is ignored.  The integer stands for the number: minus zero
    is zero, and a magnitude is not rounded. *)
Definition parseInt (s : string) : Num :=
  let s1 := skip_space s in
  let (negative, s2) :=
    match s1 with
    | String "-" r => (true, r)
    | String "+" r => (false, r)
    | _ => (false, s1)
    end in
  match leading_digits s2 None with
  | Some z => Int (if negative then - z else z)
  | None => NaN
  end.

(** [s.lastIndexOf(c)], with [i] the index of the head of [s] and
    [found] the last index seen so far. *)
Fixpoint lastIndexOf_from (c : ascii) (s : string) (i found : Z) : Z :=
  match s with
  | String a s' =>
      lastIndexOf_from c s' (i + 1) (if Ascii.eqb a c then i else found)
  | EmptyString => found
  end.

Definition lastIndexOf (c : ascii) (s : string) : Z :=
  lastIndexOf_from c s 0 (-1).

(** [s.substr(0, len)]: nothing when [len] is not positive. *)
Definition substr0 (len : Z) (s : string) : string :=
  if (len <=? 0)%Z then EmptyString else substring 0 (Z.to_nat len) s.

(** [s.slice(0, n)] for a natural [n]. *)
Definition slice0 (n : nat) (s : string) : string := substring 0 n s.

(** [s.split(c)]: the pieces between the occurrences of [c]; [cur] is
    the piece being read. *)
Fixpoint split_from (c : ascii) (s : string) (cur : string) : list string :=
  match s with
  | String a s' =>
      if Ascii.eqb a c then cur :: split_from c s' EmptyString
      else split_from c s' (cur ++ String a EmptyString)
  | EmptyString => [cur]
  end.

Definition split (c : ascii) (s : string) : list string :=
  split_from c s EmptyString.

(** [a.pop()] on an array that is not empty. *)
Definition pop (l : list string) : string := last l EmptyString.

(** *** The options *)

(** A variable that holds a string, [null] or [undefined]. *)
Inductive Str : Type :=
| Null
| Undefined
| Value (s : string).

(** The result of [process.argv.shift()]: the head of the array, or
    [undefined] when it is empty. *)
Definition shift (argv : list string) : Str :=
  match argv with
  | v :: _ => Value v
  | [] => Undefined
  end.

(** A value joined to a string. *)
Definition joined (v : Str) : string :=
  match v with
  | Null => "null"
  | Undefined => "undefined"
  | Value s => s
  end.

(** [!v] *)
Definition falsy (v : Str) : bool :=
  match v with
  | Value s => String.eqb s EmptyString
  | _ => true
  end.

Record Opts : Type := {
  safeMode : Num;
  htmlReplacement : Str;
  styled : bool;
  no_rimurc : bool;
  lint : bool;
  source : string;
  outfile : Str
}.

Definition initial : Opts :=
  {| safeMode := Int 0; htmlReplacement := Null; styled := false;
     no_rimurc := false; lint := false; source := EmptyString;
     outfile := Undefined |}.

Definition set_safeMode (n : Num) (o : Opts) : Opts :=
  {| safeMode := n; htmlReplacement := htmlReplacement o; styled := styled o;
     no_rimurc := no_rimurc o; lint := lint o; source := source o;
     outfile := outfile o |}.
Definition set_htmlReplacement (v : Str) (o : Opts) : Opts :=
  {| safeMode := safeMode o; htmlReplacement := v; styled := styled o;
     no_rimurc := no_rimurc o; lint := lint o; source := source o;
     outfile := outfile o |}.
Definition set_styled (o : Opts) : Opts :=
  {| safeMode := safeMode o; htmlReplacement := htmlReplacement o;
     styled := true; no_rimurc := no_rimurc o; lint := lint o;
     source := source o; outfile := outfile o |}.
Definition set_no_rimurc (o : Opts) : Opts :=
  {| safeMode := safeMode o; htmlReplacement := htmlReplacement o;
     styled := styled o; no_rimurc := true; lint := lint o;
     source := source o; outfile := outfile o |}.
Definition set_lint (o : Opts) : Opts :=
  {| safeMode := safeMode o; htmlReplacement := htmlReplacement o;
     styled := styled o; no_rimurc := no_rimurc o; lint := true;
     source := source o; outfile := outfile o |}.
Definition add_source (text : string) (o : Opts) : Opts :=
  {| safeMode := safeMode o; htmlReplacement := htmlReplacement o;
     styled := styled o; no_rimurc := no_rimurc o; lint := lint o;
     source := source o ++ text; outfile := outfile o |}.
Definition set_outfile (v : Str) (o : Opts) : Opts :=
  {| safeMode := safeMode o; htmlReplacement := htmlReplacement o;
     styled := styled o; no_rimurc := no_rimurc o; lint := lint o;
     source := source o; outfile := v |}.

(** How the options loop ends: the help was printed and the process
    left, [die] was called, or the loop was left with the options and
    what remains of [process.argv]. *)
Inductive Parsed : Type :=
| Help
| Die (message : string)
| Run (o : Opts) (argv : list string).

Definition is_one_of (arg : string) (names : list string) : bool :=
  existsb (String.eqb arg) names.

(** [arg[0] === '-'] *)
Definition starts_with_dash (arg : string) : bool :=
  match arg with
  | String a _ => Ascii.eqb a "-"
  | EmptyString => false
  end.

(** The loop over the options, after the two paths were skipped.
    [rest] is [process.argv] after the option was shifted, [tl rest]
    after its value was shifted too. *)
Fixpoint parse (o : Opts) (argv : list string) : Parsed :=
  match argv with
  | [] => Run o []
  | arg :: rest =>
      let after_value (o' : Opts) : Parsed :=
        match rest with
        | _ :: rest' => parse o' rest'
        | [] => parse o' rest
        end in
      if String.eqb arg EmptyString then Run o rest
      else if is_one_of arg ["--help"; "-h"] then Help
      else if is_one_of arg ["--lint"; "-l"] then parse (set_lint o) rest
      else if is_one_of arg ["--output"; "-o"] then
        if falsy (shift rest) then Die "missing --output file name"
        else after_value (set_outfile (shift rest) o)
      else if is_one_of arg ["--prepend"; "-p"] then
        after_value (add_source (joined (shift rest) ++ nl) o)
      else if is_one_of arg ["--no-rimurc"] then parse (set_no_rimurc o) rest
      else if is_one_of arg ["--safe-mode"; "--safeMode"] then
        let n := parseInt (if falsy (shift rest) then "99"
                           else joined (shift rest)) in
        if num_lt n 0 || num_gt n 15
        then Die "illegal --safe-mode option value"
        else after_value (set_safeMode n o)
      else if is_one_of arg ["--html-replacement"; "--htmlReplacement"] then
        after_value (set_htmlReplacement (shift rest) o)
      else if is_one_of arg ["--styled"; "-s"] then parse (set_styled o) rest
      else if is_one_of arg ["--highlightjs"; "--mathjax"; "--section-numbers";
                             "--title"; "--toc"] then
        if String.eqb arg "--title" then
          after_value
            (add_source ("{" ++ arg ++ "}='" ++ joined (shift rest) ++ "'" ++ nl) o)
        else
          parse (add_source ("{" ++ arg ++ "}='" ++ "true" ++ "'" ++ nl) o) rest
      else if starts_with_dash arg then Die ("illegal option: " ++ arg)
      else Run o (arg :: rest)
  end.

(** The message the lint callback prints. *)
Definition lint_message (type infile text : string) : string :=
  let msg := (type ++ ": " ++ infile ++ ": " ++ text)%string in
  if 120 <? String.length msg then (slice0 117 msg ++ "...")%string else msg.

(** The output file of a styled run on one source file:
    [file.substr(0, file.lastIndexOf('.')) + '.html']. *)
Definition default_outfile (file : string) : string :=
  (substr0 (lastIndexOf "." file) file ++ ".html")%string.

(** [infile.split('.').pop() === 'html'] *)
Definition is_html (infile : string) : bool :=
  String.eqb (pop (split "." infile)) "html".

(** *** The conversion loop *)

(** A message [Rimu.render] passes to the callback of its options. *)
Record CallbackMessage : Type := {
  type : string;
  text : string
}.

(** The options object of the loop; [None] and [false] for a property
    that is not set. *)
Record RenderOptions : Type := {
  opt_safeMode : Num;
  opt_htmlReplacement : option Str;
  opt_callback : bool
}.

Section Convert.

(** What the loop uses of Node's [fs] and of the Rimu module, which
    keeps state from one call of [render] to the next:
    [readFileSync] gives [None] where it throws, and [Rimu_render]
    gives the HTML and the messages for the callback. *)
Variable existsSync : string -> bool.
Variable readFileSync : string -> option string.
Variable Rimu : Type.
Variable Rimu_render :
  string -> RenderOptions -> Rimu -> string * list CallbackMessage * Rimu.

(** The path of the [.rimurc] file. *)
Variable rimurc : string.

(** The variables of the loop: the HTML so far, the count of errors,
    what was printed on standard error, and the state of Rimu. *)
Record Conv : Type := {
  html : string;
  errors : nat;
  stderr : list string;
  rimu : Rimu
}.

(** The loop ends in [die], or leaves its variables. *)
Inductive Converted : Type :=
| Exit (message : string)
| Finished (c : Conv).

Definition options_of (o : Opts) (infile : string) : RenderOptions :=
  {| opt_safeMode := if String.eqb infile rimurc then Int 0 else safeMode o;
     opt_htmlReplacement :=
       match htmlReplacement o with
       | Null => None
       | v => Some v
       end;
     opt_callback := lint o |}.

Fixpoint convert (o : Opts) (files : list string) (c : Conv) : Converted :=
  match files with
  | [] => Finished c
  | infile :: rest =>
      if negb (existsSync infile)
      then Exit ("source file does not exist: " ++ infile)
      else
        match readFileSync infile with
        | None => Exit ("source file permission denied: " ++ infile)
        | Some source =>
            if is_html infile then
              Finished {| html := html c ++ source; errors := errors c;
                          stderr := stderr c; rimu := rimu c |}
            else
              let '(out, messages, rimu') :=
                Rimu_render source (options_of o infile) (rimu c) in
              let printed :=
                if lint o
                then map (fun m => lint_message (type m) infile (text m)) messages
                else [] in
              convert o rest
                {| html := html c ++ out ++ nl;
                   errors := errors c + length printed;
                   stderr := stderr c ++ printed;
                   rimu := rimu' |}
        end
  end.

End Convert.

(** *** Notions used by the statements *)

(** The safe mode is not a number out of range. *)
Definition mode_in_range (n : Num) : Prop :=
  match n with
  | NaN => True
  | Int z => (0 <= z <= 15)%Z
  end.

(** The output file was not given, or is a name that is not empty. *)
Definition outfile_given (v : Str) : Prop :=
  match v with
  | Undefined => True
  | Value s => s <> EmptyString
  | Null => False
  end.

(** The character does not occur in the string. *)
Fixpoint lacks (c : ascii) (s : string) : Prop :=
  match s with
  | String a s' => a <> c /\ lacks c s'
  | EmptyString => True
  end.

(** *** A sample host

    Every file exists and holds its own name, and [Rimu.render] gives
    back its source with one message. *)

Definition every_file (infile : string) : bool := true.

Definition echo_file (infile : string) : option string := Some infile.

Definition one_warning (source : string) (options : RenderOptions) (st : unit)
    : string * list CallbackMessage * unit :=
  (source, [{| type := "error"; text := "unterminated block" |}], st).

End Rimuc.



(** ** The matcher *)

Unset Implicit Arguments.

Module RegexFacts.

Lemma try_down_some (A : Type) (lo : nat) (k : nat -> option A) (x : A) :
  forall n, try_down lo n k = Some x ->
  exists j, lo <= j /\ j <= n /\ k j = Some x.
Proof.
  induction n as [|n IH]; simpl.
  - destruct lo; simpl; try discriminate.
    destruct (k 0) eqn:E; try discriminate.
    intros H; inversion H; subst. exists 0. auto.
  - destruct (S n <? lo) eqn:L; try discriminate.
    apply Nat.ltb_ge in L.
    destruct (k (S n)) eqn:E.
    + intros H; inversion H; subst. exists (S n). auto.
    + intros H. destruct (IH H) as (j & ? & ? & ?). exists j. auto.
Qed.

Lemma run_prefix (c : cclass) :
  forall s hi n, n <= run c hi s ->
  n <= length s /\ Forall (fun a => c a = true) (firstn n s) /\
  (forall h, hi = Some h -> n <= h).
Proof.
  induction s as [|a s IH]; intros hi n H.
  - assert (n = 0) by (destruct hi as [[|h]|]; simpl in H; lia).
    subst. simpl. repeat split; auto. intros; lia.
  - destruct n as [|n].
    + simpl. repeat split; auto; lia.
    + assert (c a = true /\ S n <= S (run c (option_map pred hi) s) /\
              hi <> Some 0) as (Ha & Hn & Hh).
      { destruct hi as [[|h]|]; simpl in H; try lia;
          destruct (c a); try lia; repeat split; auto; discriminate. }
      apply le_S_n in Hn. destruct (IH _ _ Hn) as (L & F & B).
      simpl. repeat split; try lia; auto.
      intros h ->. destruct h; [congruence|].
      specialize (B h eq_refl). lia.
Qed.

(** Every result of the matcher comes from a match of the pattern
    that the continuation accepted. *)
Lemma m_sound (A : Type) (r : regex) :
  forall s cs (k : list ascii -> caps -> option A) x,
  m r s cs k = Some x ->
  exists s' cs', Matches r s cs s' cs' /\ k s' cs' = Some x.
Proof.
  induction r as [|c lo hi|r1 IH1 r2 IH2|r1 IH1 r2 IH2|r IH];
    intros s cs k x H; simpl in H.
  - exists s, cs. split; [constructor|assumption].
  - apply try_down_some in H. destruct H as (j & Hlo & Hj & Hk).
    exists (skipn j s), cs. split; [constructor; assumption|assumption].
  - apply IH1 in H. destruct H as (s1 & cs1 & M1 & H).
    apply IH2 in H. destruct H as (s2 & cs2 & M2 & H).
    exists s2, cs2. split; [econstructor; eassumption|assumption].
  - destruct (m r1 s cs k) eqn:E.
    + inversion H; subst. apply IH1 in E. destruct E as (s' & cs' & M1 & E).
      exists s', cs'. split; [apply M_AltL|]; assumption.
    + apply IH2 in H. destruct H as (s' & cs' & M2 & H).
      exists s', cs'. split; [apply M_AltR|]; assumption.
  - apply IH in H. destruct H as (s' & cs' & M1 & H).
    eexists _, _. split; [apply M_Grp; eassumption|assumption].
Qed.

(** What a repetition consumes. *)
Lemma Matches_Rep (c : cclass) (lo : nat) (hi : option nat) s cs s' cs' :
  Matches (Rep c lo hi) s cs s' cs' ->
  exists n, s' = skipn n s /\ cs' = cs /\ lo <= n /\ n <= length s /\
            Forall (fun a => c a = true) (firstn n s) /\
            (forall h, hi = Some h -> n <= h) /\
            firstn (length s - length s') s = firstn n s.
Proof.
  intros H. inversion H as [|? ? ? n ? ? Hlo Hrun| | | |]; subst.
  destruct (run_prefix _ _ _ _ Hrun) as (L & F & B).
  exists n. repeat split; auto.
  rewrite length_skipn. f_equal. lia.
Qed.

Lemma all_chr (x : ascii) (l : list ascii) :
  Forall (fun a => chr x a = true) l -> l = repeat x (length l).
Proof.
  induction 1 as [|a l Ha _ IH]; simpl; [reflexivity|].
  unfold chr in Ha. apply Ascii.eqb_eq in Ha. subst. f_equal. exact IH.
Qed.

(** A group that repeats one character captures a run of it. *)
Lemma Matches_run (x : ascii) (lo hi : nat) s cs s' cs' :
  Matches (Rep (chr x) lo (Some hi)) s cs s' cs' ->
  cs' = cs /\
  exists n, lo <= n /\ n <= hi /\ firstn (length s - length s') s = repeat x n.
Proof.
  intros H. apply Matches_Rep in H.
  destruct H as (n & _ & Hcs & Hlo & Hlen & Hall & Hhi & Hcap).
  split; [assumption|]. exists n. repeat split; auto.
  rewrite Hcap. rewrite (@all_chr _ _ Hall) at 1.
  rewrite length_firstn, Nat.min_l by assumption. reflexivity.
Qed.

Lemma groups_sound (r : regex) (s : list ascii) (cs : caps) :
  groups r s = Some cs -> Matches r s [] [] cs.
Proof.
  unfold groups. intros H. apply m_sound in H.
  destruct H as (s' & cs' & M & E).
  destruct s'; simpl in E; [|discriminate]. inversion E; subst. exact M.
Qed.

Ltac invert_matches :=
  repeat match goal with
  | H : Matches Eps _ _ _ _ |- _ => inversion H; subst; clear H
  | H : Matches (Cat _ _) _ _ _ _ |- _ => inversion H; subst; clear H
  | H : Matches (Alt _ _) _ _ _ _ |- _ => inversion H; subst; clear H
  | H : Matches (Grp _) _ _ _ _ |- _ => inversion H; subst; clear H
  | H : Matches (Rep (chr _) _ (Some _)) _ _ _ _ |- _ =>
      apply Matches_run in H; destruct H as (? & ? & ? & ? & ?); subst
  | H : Matches (Rep _ _ _) _ _ _ _ |- _ =>
      apply Matches_Rep in H; destruct H as (? & ? & ? & _); subst
  end.

Ltac solve_run :=
  match goal with
  | E : firstn _ _ = repeat _ ?n |- In (firstn _ _) _ =>
      rewrite E; clear E;
      do 5 (destruct n as [|n]; [try lia; simpl; tauto|]); lia
  end.

(** The groups of the unordered list pattern: a bullet, the text. *)
Lemma ul_groups (s : list ascii) (cs : caps) :
  groups (escaped ul_body) s = Some cs ->
  exists b t, cs = [b; t] /\
    In b [["-"]; ["+"]; ["*"]; ["*"; "*"]; ["*"; "*"; "*"];
          ["*"; "*"; "*"; "*"]]%char.
Proof.
  intros H. apply groups_sound in H.
  unfold escaped, ul_body, Opt, Lit, Star, Plus in H.
  invert_matches; eexists _, _; (split; [reflexivity|]); solve_run.
Qed.

(** The groups of the ordered list pattern: the dots, the text. *)
Lemma ol_groups (s : list ascii) (cs : caps) :
  groups (escaped ol_body) s = Some cs ->
  exists b t, cs = [b; t] /\
    In b [["."]; ["."; "."]; ["."; "."; "."]; ["."; "."; "."; "."]]%char.
Proof.
  intros H. apply groups_sound in H.
  unfold escaped, ol_body, Opt, Lit, Star, Plus in H.
  invert_matches; eexists _, _; (split; [reflexivity|]); solve_run.
Qed.

(** The groups of the definition list pattern: the term, the colons,
    the definition. *)
Lemma dl_groups (s : list ascii) (cs : caps) :
  groups (escaped dl_body) s = Some cs ->
  exists t b d, cs = [t; b; d] /\
    In b [[":"; ":"]; [":"; ":"; ":"]; [":"; ":"; ":"; ":"]]%char.
Proof.
  intros H. apply groups_sound in H.
  unfold escaped, dl_body, Opt, Lit, Star, Plus in H.
  invert_matches; eexists _, _, _; (split; [reflexivity|]); solve_run.
Qed.

End RegexFacts.

(** ** The reader *)

Module ReaderFacts.
Import Reader.

Lemma length_set_nth (v : string) (l : list string) :
  forall n, length (set_nth n v l) = length l.
Proof.
  induction l as [|x l IH]; intros [|n]; simpl; auto.
Qed.

Lemma eof_remaining (r : t) : eof r = true <-> remaining r = 0.
Proof.
  unfold eof, remaining. rewrite Nat.leb_le. lia.
Qed.

Lemma eof_cursor (r : t) : eof r = true <-> cursor r = None.
Proof.
  unfold eof, cursor. rewrite Nat.leb_le. symmetry. apply nth_error_None.
Qed.

Lemma remaining_next (r : t) :
  eof r = false -> S (remaining (next r)) = remaining r.
Proof.
  unfold next. intros H. rewrite H. unfold eof in H.
  apply Nat.leb_gt in H. unfold remaining. simpl. lia.
Qed.

Lemma remaining_next_le (r : t) : remaining (next r) <= remaining r.
Proof.
  destruct (eof r) eqn:E.
  - unfold next. rewrite E. lia.
  - pose proof (remaining_next r E). lia.
Qed.

Lemma remaining_set_cursor (v : string) (r : t) :
  remaining (set_cursor v r) = remaining r.
Proof.
  unfold remaining, set_cursor. simpl. rewrite length_set_nth. reflexivity.
Qed.

Lemma eof_set_cursor (v : string) (r : t) : eof (set_cursor v r) = eof r.
Proof.
  unfold eof, set_cursor. simpl. rewrite length_set_nth. reflexivity.
Qed.

Lemma nth_error_set_nth (v : string) (l : list string) :
  forall n, n < length l -> nth_error (set_nth n v l) n = Some v.
Proof.
  induction l as [|x l IH]; intros [|n] H; simpl in *; try lia; auto.
  apply IH. lia.
Qed.

Lemma cursor_set_cursor (v : string) (r : t) :
  eof r = false -> cursor (set_cursor v r) = Some v.
Proof.
  unfold eof, cursor, set_cursor. simpl. intros H.
  apply Nat.leb_gt in H. apply nth_error_set_nth. exact H.
Qed.

Lemma cursor_not_eof (r : t) (line : string) :
  cursor r = Some line -> eof r = false.
Proof.
  intros H. destruct (eof r) eqn:E; [|reflexivity].
  apply eof_cursor in E. congruence.
Qed.

Lemma skipBlank_remaining :
  forall n r, remaining (skipBlank n r) <= remaining r.
Proof.
  induction n as [|n IH]; intros r; simpl; [lia|].
  destruct (cursor r) as [[|a l]|]; try lia.
  specialize (IH (next r)). pose proof (remaining_next_le r). lia.
Qed.

Lemma skipBlank_not_blank :
  forall n r, remaining r <= n -> cursor (skipBlank n r) <> Some EmptyString.
Proof.
  induction n as [|n IH]; intros r Hn; simpl.
  - assert (E : cursor r = None).
    { apply eof_cursor, eof_remaining. lia. }
    rewrite E. discriminate.
  - destruct (cursor r) as [[|a l]|] eqn:E; try (rewrite E; discriminate).
    apply IH.
    assert (eof r = false).
    { destruct (eof r) eqn:F; [|reflexivity].
      apply eof_cursor in F. congruence. }
    pose proof (remaining_next r H). lia.
Qed.

(** After [skipBlankLines] the reader is at end of input or at a line
    that is not blank. *)
Lemma skipBlankLines_not_blank (r : t) :
  cursor (skipBlankLines r) <> Some EmptyString.
Proof.
  apply skipBlank_not_blank. lia.
Qed.

Lemma skipBlankLines_remaining (r : t) :
  remaining (skipBlankLines r) <= remaining r.
Proof.
  apply skipBlank_remaining.
Qed.

End ReaderFacts.

(** ** Matching a line *)

Section MatchFacts.

Import RegexFacts ReaderFacts.

Variable X : Externals.

(** The array a definition's pattern gives: the line, then two groups
    whose first is the ID, or, for definition lists, three groups
    whose second is the ID. *)
Lemma exec_shape (d : ListDef) (line : string) (mt : list string) :
  In d defs -> exec (match_ d) line = Some mt ->
  (d = ul_def /\ exists b t, mt = [line; b; t] /\ In b ul_ids) \/
  (d = ol_def /\ exists b t, mt = [line; b; t] /\ In b ol_ids) \/
  (d = dl_def /\ exists t b c, mt = [line; t; b; c] /\ In b dl_ids).
Proof.
  intros Hd H. unfold exec in H.
  destruct (groups (match_ d) (list_ascii_of_string line)) as [cs|] eqn:G;
    [|discriminate].
  inversion H; subst; clear H.
  destruct Hd as [<-|[<-|[<-|[]]]]; simpl in G.
  - left. split; [reflexivity|].
    apply ul_groups in G. destruct G as (b & t & -> & I).
    eexists _, _. split; [reflexivity|].
    simpl in I. unfold ul_ids.
    repeat (destruct I as [<-|I]; [simpl; tauto|]). destruct I.
  - right; left. split; [reflexivity|].
    apply ol_groups in G. destruct G as (b & t & -> & I).
    eexists _, _. split; [reflexivity|].
    simpl in I. unfold ol_ids.
    repeat (destruct I as [<-|I]; [simpl; tauto|]). destruct I.
  - right; right. split; [reflexivity|].
    apply dl_groups in G. destruct G as (t & b & c & -> & I).
    eexists _, _, _. split; [reflexivity|].
    simpl in I. unfold dl_ids.
    repeat (destruct I as [<-|I]; [simpl; tauto|]). destruct I.
Qed.

Lemma exec_whole (r : regex) (line : string) (mt : list string) :
  exec r line = Some mt -> nth 0 mt EmptyString = line.
Proof.
  unfold exec. destruct (groups r (list_ascii_of_string line)); [|discriminate].
  intros H. inversion H. reflexivity.
Qed.

(** The loop over the definitions: the first one whose pattern
    matches decides. *)
Lemma matchItem_defs_cases (line : string) (r : Reader.t) :
  forall ds res,
  matchItem_defs ds line r = Some res ->
  exists d mt, In d ds /\ exec (match_ d) line = Some mt /\
    ((starts_with_backslash line = true /\
      res = (None, Reader.set_cursor (slice1 line) r)) \/
     (starts_with_backslash line = false /\
      res = (Some (ListItem {| imatch := mt; idef := d;
                               iid := nth (length mt - 2) mt EmptyString |}), r))).
Proof.
  induction ds as [|d ds IH]; intros res H; simpl in H; [discriminate|].
  destruct (exec (match_ d) line) as [mt|] eqn:E.
  - exists d, mt. split; [left; reflexivity|]. split; [assumption|].
    rewrite (exec_whole _ _ _ E) in H.
    destruct (starts_with_backslash line); inversion H; auto.
  - destruct (IH _ H) as (d' & mt & I & E' & C).
    exists d', mt. split; [right; assumption|]. auto.
Qed.

Lemma matchItem_defs_none (line : string) (r : Reader.t) :
  forall ds, matchItem_defs ds line r = None <->
             forall d, In d ds -> exec (match_ d) line = None.
Proof.
  induction ds as [|d ds IH]; simpl.
  - split; [intros _ d []|reflexivity].
  - destruct (exec (match_ d) line) as [mt|] eqn:E.
    + split.
      * destruct (starts_with_backslash (nth 0 mt EmptyString)); discriminate.
      * intros H. specialize (H d (or_introl eq_refl)). congruence.
    + rewrite IH. split.
      * intros H d' [<-|I]; auto.
      * intros H d' I. apply H. right. assumption.
Qed.

(** [matchItem] may rewrite the current line; it never moves the
    reader. *)
Lemma matchItem_remaining (r : Reader.t) (a : list string) (e : Env X) :
  Reader.remaining (snd (matchItem X r a e)) = Reader.remaining r /\
  Reader.eof (snd (matchItem X r a e)) = Reader.eof r.
Proof.
  unfold matchItem. destruct (Reader.cursor r) as [line|]; [|auto].
  destruct (matchItem_defs defs line r) as [res|] eqn:E.
  - apply matchItem_defs_cases in E.
    destruct E as (d & mt & _ & _ & [[_ ->]|[_ ->]]); simpl; auto.
    split; [apply remaining_set_cursor|apply eof_set_cursor].
  - destruct (existsb _ a); auto.
Qed.

(** A list item that [matchItem] returns: the reader is untouched,
    the item records the first definition that matches, and its ID is
    one of the definition's markers. *)
Lemma matchItem_item (r r' : Reader.t) (a : list string) (e : Env X) (i : Item) :
  matchItem X r a e = (Some (ListItem i), r') ->
  r' = r /\
  exists line, Reader.cursor r = Some line /\
    In (idef i) defs /\ exec (match_ (idef i)) line = Some (imatch i) /\
    iid i = nth (length (imatch i) - 2) (imatch i) EmptyString /\
    In (iid i) (ul_ids ++ ol_ids ++ dl_ids).
Proof.
  unfold matchItem. destruct (Reader.cursor r) as [line|]; [|discriminate].
  destruct (matchItem_defs defs line r) as [res|] eqn:E.
  - apply matchItem_defs_cases in E.
    destruct E as (d & mt & I & Ex & [[_ ->]|[_ ->]]); [discriminate|].
    intros H. inversion H; subst; clear H. split; [reflexivity|].
    exists line. cbn [imatch idef iid]. repeat split; auto.
    destruct (exec_shape _ _ _ I Ex)
      as [(_ & b & t & -> & Hb)|[(_ & b & t & -> & Hb)|(_ & t & b & c & -> & Hb)]];
      cbn [length Nat.sub nth]; apply in_or_app; auto;
      right; apply in_or_app; auto.
  - destruct (existsb _ a); discriminate.
Qed.

(** A line that some definition matches: the escape when it starts
    with a backslash, a list item otherwise. *)
Lemma matchItem_matched (r : Reader.t) (a : list string) (e : Env X)
    (line : string) (d : ListDef) :
  Reader.cursor r = Some line ->
  In d defs -> exec (match_ d) line <> None ->
  if starts_with_backslash line
  then matchItem X r a e = (None, Reader.set_cursor (slice1 line) r)
  else exists d' mt,
         In d' defs /\ exec (match_ d') line = Some mt /\
         matchItem X r a e
         = (Some (ListItem {| imatch := mt; idef := d';
                              iid := nth (length mt - 2) mt EmptyString |}), r).
Proof.
  intros Hc Hd Hm. unfold matchItem. rewrite Hc.
  destruct (matchItem_defs defs line r) as [res|] eqn:E.
  - apply matchItem_defs_cases in E.
    destruct E as (d' & mt & I & Ex & [[B ->]|[B ->]]); rewrite B.
    + reflexivity.
    + exists d', mt. auto.
  - exfalso. apply Hm.
    exact (proj1 (matchItem_defs_none line r defs) E d Hd).
Qed.

(** A backslash before a line that a pattern matches after its
    optional backslash: the pattern matches the whole. *)
Lemma escaped_backslash (body : regex) (l : list ascii) :
  groups body l <> None -> groups (escaped body) (backslash :: l) <> None.
Proof.
  unfold groups. intros H. destruct (m body l [] at_end) as [cs|] eqn:E;
    [|contradiction].
  unfold escaped, Opt. cbn [m].
  replace (run (chr backslash) (Some 1) (backslash :: l)) with 1
    by (simpl; destruct l; reflexivity).
  cbn [try_down Nat.ltb Nat.leb skipn]. rewrite E. discriminate.
Qed.

Lemma marker_nonempty (id : string) :
  In id (ul_ids ++ ol_ids ++ dl_ids) -> negb (String.eqb id EmptyString) = true.
Proof.
  simpl. intros H.
  repeat (destruct H as [<-|H]; [reflexivity|]). destruct H.
Qed.

(** Without attachments [matchItem] returns no element or a list item
    with an ID. *)
Lemma matchItem_plain (r : Reader.t) (e : Env X) :
  match fst (matchItem X r [] e) with
  | None => True
  | Some x => has_id x = true
  end.
Proof.
  destruct (matchItem X r [] e) as [[[i|]|] r'] eqn:E; simpl; auto.
  - apply matchItem_item in E. destruct E as (_ & line & _ & _ & _ & _ & I).
    unfold has_id. simpl. apply marker_nonempty. assumption.
  - unfold matchItem in E. destruct (Reader.cursor r) as [line|]; [|discriminate].
    destruct (matchItem_defs defs line r) as [res|] eqn:D.
    + apply matchItem_defs_cases in D.
      destruct D as (d & mt & _ & _ & [[_ ->]|[_ ->]]); discriminate.
    + simpl in E. discriminate.
Qed.

End MatchFacts.

(** ** The writer *)

Section WriterFacts.

Lemma count_app (p : Frag -> bool) (a b : list Frag) :
  count p (a ++ b) = count p a + count p b.
Proof.
  unfold count. rewrite filter_app, length_app. reflexivity.
Qed.

Lemma count_blocks (p : Frag -> bool) (l : list string) :
  (forall t, p (Block t) = false) -> count p (map Block l) = 0.
Proof.
  intros H. unfold count. induction l as [|x l IH]; simpl; [reflexivity|].
  rewrite H. exact IH.
Qed.

Lemma wrote_refl (w : list Frag) : wrote w w 0 0.
Proof.
  exists []. rewrite app_nil_r. repeat split.
Qed.

Lemma wrote_trans (w1 w2 w3 : list Frag) (a b c d : Z) :
  wrote w1 w2 a b -> wrote w2 w3 c d -> wrote w1 w3 (a + c) (b + d).
Proof.
  intros (d1 & -> & L1 & I1) (d2 & -> & L2 & I2).
  exists (d1 ++ d2). rewrite app_assoc. split; [reflexivity|].
  unfold list_depth, item_depth, depth in *.
  rewrite !count_app. lia.
Qed.

Lemma wrote_one (w : list Frag) (f : Frag) :
  wrote w (Writer.write f w) (list_depth [f]) (item_depth [f]).
Proof.
  exists [f]. repeat split.
Qed.

Lemma wrote_blocks (w : list Frag) (l : list string) :
  wrote w (w ++ map Block l) 0 0.
Proof.
  exists (map Block l). split; [reflexivity|].
  unfold list_depth, item_depth, depth.
  rewrite !count_blocks by reflexivity. split; reflexivity.
Qed.

End WriterFacts.

(** ** The engine: what every call leaves *)

Section EngineFacts.

Import ReaderFacts.

Variable X : Externals.

Lemma renderList_S (fuel : nat) (startItem : Item) (s : St X) :
  renderList (S fuel) startItem s =
  let s1 := set_ids (ids s ++ [iid startItem]) s in
  let (tag, e) :=
    injectHtmlAttributes X (listOpenTag (idef startItem)) (env s1) in
  renderList_loop fuel startItem (write (ListOpen tag) (set_env e s1)).
Proof. reflexivity. Qed.

Lemma renderList_loop_S (fuel : nat) (startItem : Item) (s : St X) :
  renderList_loop (S fuel) startItem s =
  match renderListItem fuel startItem s with
  | None => None
  | Some (nextItem, s1) =>
      let close :=
        let s2 := write (ListClose (listCloseTag (idef startItem))) s1 in
        Some (nextItem, set_ids (removelast (ids s2)) s2) in
      match nextItem with
      | Some (ListItem i) =>
          if String.eqb (iid i) (iid startItem)
          then renderList_loop fuel i s1
          else close
      | _ => close
      end
  end.
Proof. reflexivity. Qed.

Lemma renderListItem_S (fuel : nat) (startItem : Item) (s : St X) :
  renderListItem (S fuel) startItem s =
  let def := idef startItem in
  let mt := imatch startItem in
  let s2 := write (ItemOpen (itemOpenTag def)) (after_term startItem s) in
  let lines := Writer.write nl (Writer.write (nth (length mt - 1) mt EmptyString) []) in
  let s3 := set_reader (Reader.next (reader s2)) s2 in
  match readToNext X fuel (reader s3) lines (env s3) with
  | None => None
  | Some (nextItem, r, lines') =>
      let (text, e) :=
        replaceInline X (Writer.toString (separator X) lines') (env s3) in
      renderListItem_loop fuel def nextItem
        (write (Text text) (set_env e (set_reader r s3)))
  end.
Proof. reflexivity. Qed.

Lemma renderListItem_loop_S (fuel : nat) (def : ListDef)
    (nextItem : option ItemState) (s : St X) :
  renderListItem_loop (S fuel) def nextItem s =
  match nextItem with
  | None => Some (None, write (ItemClose (itemCloseTag def)) s)
  | Some x =>
      match x, has_id x with
      | ListItem i, true =>
          if on_stack (iid i) (ids s) then
            Some (nextItem, write (ItemClose (itemCloseTag def)) s)
          else
            match renderList fuel i s with
            | None => None
            | Some (nextItem', s1) =>
                Some (nextItem', write (ItemClose (itemCloseTag def)) s1)
            end
      | _, _ =>
          let s1 := renderAttached s in
          if Reader.eof (reader s1) then
            Some (None, write (ItemClose (itemCloseTag def)) s1)
          else
            let (nextItem', r) := matchItem X (reader s1) [] (env s1) in
            renderListItem_loop fuel def nextItem' (set_reader r s1)
      end
  end.
Proof. reflexivity. Qed.

Lemma St_ext (a b : St X) :
  reader a = reader b -> writer a = writer b -> ids a = ids b ->
  env a = env b -> a = b.
Proof.
  destruct a, b. simpl. intros -> -> -> ->. reflexivity.
Qed.

Lemma writer_write (f : Frag) (s : St X) :
  writer (write f s) = Writer.write f (writer s).
Proof. reflexivity. Qed.

Lemma writer_set_ids (l : list string) (s : St X) :
  writer (set_ids l s) = writer s.
Proof. reflexivity. Qed.

Lemma writer_set_env (e : Env X) (s : St X) :
  writer (set_env e s) = writer s.
Proof. reflexivity. Qed.

Lemma writer_set_reader (r : Reader.t) (s : St X) :
  writer (set_reader r s) = writer s.
Proof. reflexivity. Qed.

Lemma ids_write (f : Frag) (s : St X) : ids (write f s) = ids s.
Proof. reflexivity. Qed.

Lemma ids_set_ids (l : list string) (s : St X) : ids (set_ids l s) = l.
Proof. reflexivity. Qed.

Lemma ids_set_env (e : Env X) (s : St X) : ids (set_env e s) = ids s.
Proof. reflexivity. Qed.

Lemma ids_set_reader (r : Reader.t) (s : St X) :
  ids (set_reader r s) = ids s.
Proof. reflexivity. Qed.

Lemma after_term_frame (startItem : Item) (s : St X) :
  reader (after_term startItem s) = reader s /\
  ids (after_term startItem s) = ids s /\
  wrote (writer s) (writer (after_term startItem s)) 0 0.
Proof.
  unfold after_term. destruct (length (imatch startItem) =? 4).
  - cbv zeta. destruct (replaceInline X _ _) as [text e]. simpl.
    repeat split.
    eexists [_; _; _]. unfold Writer.write. rewrite <- !app_assoc.
    repeat split.
  - repeat split. apply wrote_refl.
Qed.

Lemma renderAttached_frame (s : St X) :
  ids (renderAttached s) = ids s /\
  wrote (writer s) (writer (renderAttached s)) 0 0.
Proof.
  unfold renderAttached. simpl. split; [reflexivity|]. apply wrote_blocks.
Qed.

Local Arguments renderAttached : simpl never.
Local Arguments after_term : simpl never.

Lemma on_stack_app (id x : string) (l : list string) :
  on_stack id (l ++ [x]) = true -> id <> x -> on_stack id l = true.
Proof.
  unfold on_stack. rewrite existsb_app. simpl. rewrite orb_false_r.
  intros H N. apply orb_true_iff in H. destruct H as [H|H]; [assumption|].
  apply String.eqb_eq in H. contradiction.
Qed.

Lemma engine_inv (fuel : nat) :
  (forall startItem (s : St X) res,
     renderList fuel startItem s = Some res -> list_post startItem s res) /\
  (forall startItem (s : St X) res,
     renderList_loop fuel startItem s = Some res ->
     list_loop_post startItem s res) /\
  (forall startItem (s : St X) res,
     renderListItem fuel startItem s = Some res -> item_post s res) /\
  (forall def nextItem (s : St X) res,
     renderListItem_loop fuel def nextItem s = Some res ->
     item_loop_post s res).
Proof.
  induction fuel as [|fuel (IHlist & IHloop & IHitem & IHiloop)].
  { repeat split; intros; discriminate. }
  split; [|split; [|split]].
  - (* renderList *)
    intros startItem s res H. rewrite renderList_S in H. cbv zeta in H.
    destruct (injectHtmlAttributes X _ _) as [tag e].
    apply IHloop in H. destruct H as (Hids & Hw & Hback & Hne).
    simpl in Hids, Hw, Hback. rewrite removelast_last in Hids.
    repeat split; auto.
    + exact (wrote_trans _ _ _ _ _ _ _ (wrote_one (writer s) (ListOpen tag)) Hw).
    + destruct (fst res) as [[i|]|]; simpl in *; auto.
      eapply on_stack_app; eauto.
  - (* the loop of renderList *)
    intros startItem s res H. rewrite renderList_loop_S in H.
    destruct (renderListItem fuel startItem s) as [[nextItem s1]|] eqn:E;
      [|discriminate].
    apply IHitem in E. destruct E as (Hids & Hw & Hback). simpl in Hids, Hw, Hback.
    assert (Hclose :
      forall res',
        Some (nextItem,
              set_ids (removelast
                         (ids (write (ListClose (listCloseTag (idef startItem))) s1)))
                      (write (ListClose (listCloseTag (idef startItem))) s1))
        = Some res' ->
        (forall i, nextItem = Some (ListItem i) -> iid i <> iid startItem) ->
        list_loop_post startItem s res').
    { intros res' R N. inversion R; subst; clear R.
      unfold list_loop_post. simpl. rewrite Hids. repeat split; auto.
      exact (wrote_trans _ _ _ _ _ _ _ Hw (wrote_one (writer s1) (ListClose _))). }
    cbv zeta in H.
    destruct nextItem as [[i|]|].
    + destruct (String.eqb (iid i) (iid startItem)) eqn:Q.
      * apply IHloop in H. destruct H as (Hids' & Hw' & Hback' & Hne').
        apply String.eqb_eq in Q.
        unfold list_loop_post. rewrite Hids', Hids. repeat split.
        -- exact (wrote_trans _ _ _ _ _ _ _ Hw Hw').
        -- rewrite <- Hids. assumption.
        -- intros j Hj. rewrite <- Q. auto.
      * apply Hclose; [assumption|].
        intros j Hj. inversion Hj; subst. apply String.eqb_neq. assumption.
    + apply Hclose; [assumption|]. intros j Hj. discriminate.
    + apply Hclose; [assumption|]. intros j Hj. discriminate.
  - (* renderListItem *)
    intros startItem s res H. rewrite renderListItem_S in H. cbv zeta in H.
    destruct (after_term_frame startItem s) as (Tr & Ti & Tw).
    destruct (readToNext X fuel _ _ _) as [[[nextItem r] lines']|];
      [|discriminate].
    destruct (replaceInline X _ _) as [text e].
    apply IHiloop in H. destruct H as (Hids & Hw & Hback).
    simpl in Hids, Hw, Hback. rewrite Ti in Hids, Hback.
    repeat split; auto.
    pose proof (wrote_trans _ _ _ _ _ _ _ Tw
                  (wrote_one _ (ItemOpen (itemOpenTag (idef startItem))))) as W1.
    pose proof (wrote_trans _ _ _ _ _ _ _ W1 (wrote_one _ (Text text))) as W2.
    exact (wrote_trans _ _ _ _ _ _ _ W2 Hw).
  - (* the loop of renderListItem *)
    intros def nextItem s res H. rewrite renderListItem_loop_S in H.
    assert (Hblock :
      forall res',
        (let s1 := renderAttached s in
         if Reader.eof (reader s1) then
           Some (None, write (ItemClose (itemCloseTag def)) s1)
         else
           let (nextItem', r) := matchItem X (reader s1) [] (env s1) in
           renderListItem_loop fuel def nextItem' (set_reader r s1)) = Some res' ->
        item_loop_post s res').
    { intros res' R. cbv zeta in R.
      destruct (renderAttached_frame s) as (Ai & Aw).
      destruct (Reader.eof (reader (renderAttached s))).
      - inversion R; subst; clear R. unfold item_loop_post. simpl.
        repeat split; auto.
        exact (wrote_trans _ _ _ _ _ _ _ Aw (wrote_one _ (ItemClose _))).
      - destruct (matchItem X _ _ _) as [nextItem' r].
        apply IHiloop in R. destruct R as (Hids & Hw & Hback).
        unfold item_loop_post. split; [|split].
        + rewrite Hids. exact Ai.
        + exact (wrote_trans _ _ _ _ _ _ _ Aw Hw).
        + rewrite <- Ai. exact Hback. }
    destruct nextItem as [[i|]|].
    + destruct (has_id (ListItem i)); [|apply Hblock; assumption].
      destruct (on_stack (iid i) (ids s)) eqn:O.
      * inversion H; subst; clear H. unfold item_loop_post. simpl.
        repeat split; auto. exact (wrote_one _ (ItemClose _)).
      * destruct (renderList fuel i s) as [[nextItem' s1]|] eqn:E;
          [|discriminate].
        inversion H; subst; clear H.
        apply IHlist in E. destruct E as (Hids & Hw & Hback & _).
        simpl in Hids, Hw, Hback. unfold item_loop_post. simpl.
        repeat split; auto.
        exact (wrote_trans _ _ _ _ _ _ _ Hw (wrote_one _ (ItemClose _))).
    + apply Hblock. assumption.
    + inversion H; subst; clear H. unfold item_loop_post. simpl.
      repeat split; auto. exact (wrote_one _ (ItemClose _)).
Qed.

(** *** The reader only moves forward *)

Lemma readToNext_eof (fuel : nat) (r : Reader.t) (w : Writer.t string) (e : Env X) :
  Reader.eof r = true -> readToNext X (S fuel) r w e = Some (None, r, w).
Proof.
  intros H. simpl. rewrite H. reflexivity.
Qed.

Lemma readToNext_remaining :
  forall fuel r w e res,
  readToNext X fuel r w e = Some res ->
  Reader.remaining (snd (fst res)) <= Reader.remaining r.
Proof.
  induction fuel as [|fuel IH]; intros r w e res H; simpl in H; [discriminate|].
  destruct (Reader.eof r) eqn:E.
  { inversion H; subst. simpl. lia. }
  pose proof (remaining_next r E) as Hn.
  destruct (blank (Reader.cursor r)).
  - destruct (blank (Reader.cursor (Reader.next r))).
    { inversion H; subst. simpl. lia. }
    destruct (Reader.eof (Reader.next r)).
    { inversion H; subst. simpl. lia. }
    pose proof (matchItem_remaining X (Reader.next r) ["indented"] e) as (M & _).
    destruct (matchItem X (Reader.next r) ["indented"] e) as [next r2].
    inversion H; subst. simpl in *. lia.
  - match type of H with
    | context [matchItem X r ?a e] =>
        pose proof (matchItem_remaining X r a e) as (M & Me);
        destruct (matchItem X r a e) as [next r1]
    end.
    simpl in M, Me. destruct next as [x|].
    + inversion H; subst. simpl. lia.
    + apply IH in H. rewrite <- Me in E.
      pose proof (remaining_next r1 E). lia.
Qed.

Lemma readToNext_total :
  forall fuel r w e,
  Reader.remaining r < fuel -> exists res, readToNext X fuel r w e = Some res.
Proof.
  induction fuel as [|fuel IH]; intros r w e Hf; [lia|]. simpl.
  destruct (Reader.eof r) eqn:E; [eauto|].
  destruct (blank (Reader.cursor r)).
  - destruct (blank (Reader.cursor (Reader.next r))); [eauto|].
    destruct (Reader.eof (Reader.next r)); [eauto|].
    destruct (matchItem X (Reader.next r) ["indented"] e). eauto.
  - match goal with
    | |- context [matchItem X r ?a e] =>
        pose proof (matchItem_remaining X r a e) as (M & Me);
        destruct (matchItem X r a e) as [next r1]
    end.
    simpl in M, Me. destruct next as [x|]; [eauto|].
    apply IH. rewrite <- Me in E. pose proof (remaining_next r1 E). lia.
Qed.

Section Advancing.

Hypothesis Hadv : advances X.

Lemma renderAttached_remaining (s : St X) :
  Reader.remaining (reader (renderAttached s)) <= Reader.remaining (reader s).
Proof.
  unfold renderAttached. simpl.
  etransitivity; [apply skipBlankLines_remaining|]. apply Hadv.
Qed.

(** No call moves the reader backwards, and a call of
    [renderListItem] that hands back an element has consumed a line. *)
Lemma engine_remaining (fuel : nat) :
  (forall startItem (s : St X) res,
     renderList fuel startItem s = Some res -> left_of res s) /\
  (forall startItem (s : St X) res,
     renderList_loop fuel startItem s = Some res -> left_of res s) /\
  (forall startItem (s : St X) res,
     renderListItem fuel startItem s = Some res ->
     left_of res s /\
     (fst res <> None ->
      Reader.remaining (reader (snd res)) < Reader.remaining (reader s))) /\
  (forall def nextItem (s : St X) res,
     renderListItem_loop fuel def nextItem s = Some res -> left_of res s).
Proof.
  unfold left_of.
  induction fuel as [|fuel (IHlist & IHloop & IHitem & IHiloop)].
  { repeat split; intros; discriminate. }
  split; [|split; [|split]].
  - intros startItem s res H. rewrite renderList_S in H. cbv zeta in H.
    destruct (injectHtmlAttributes X _ _) as [tag e].
    apply IHloop in H. exact H.
  - intros startItem s res H. rewrite renderList_loop_S in H.
    destruct (renderListItem fuel startItem s) as [[nextItem s1]|] eqn:E;
      [|discriminate].
    apply IHitem in E. destruct E as (E & _). simpl in E. cbv zeta in H.
    destruct nextItem as [[i|]|];
      [destruct (String.eqb (iid i) (iid startItem))|..];
      try (inversion H; subst; simpl; exact E).
    apply IHloop in H. simpl in E. lia.
  - intros startItem s res H. rewrite renderListItem_S in H. cbv zeta in H.
    destruct (after_term_frame startItem s) as (Tr & _ & _).
    match type of H with
    | context [readToNext X fuel ?r ?w ?e] =>
        set (r0 := r) in H; set (w0 := w) in H; set (e0 := e) in H
    end.
    assert (Hr0 : r0 = Reader.next (reader s)).
    { subst r0. simpl. rewrite Tr. reflexivity. }
    clearbody r0 w0 e0. subst r0.
    destruct (Reader.eof (reader s)) eqn:Eof.
    + (* at end of input nothing follows *)
      destruct fuel as [|fuel']; [discriminate|].
      assert (E0 : Reader.eof (Reader.next (reader s)) = true).
      { unfold Reader.next. rewrite Eof. exact Eof. }
      rewrite readToNext_eof in H by exact E0.
      destruct (replaceInline X _ _) as [text e].
      rewrite renderListItem_loop_S in H. inversion H; subst; clear H.
      simpl. split; [apply remaining_next_le|]. intros N. contradiction.
    + pose proof (remaining_next _ Eof) as R1.
      destruct (readToNext X fuel _ w0 e0) as [[[nextItem r] lines']|] eqn:N;
        [|discriminate].
      apply readToNext_remaining in N. simpl in N.
      destruct (replaceInline X _ _) as [text e].
      apply IHiloop in H. simpl in H. split; [lia|]. intros _. lia.
  - intros def nextItem s res H. rewrite renderListItem_loop_S in H.
    assert (Hblock :
      forall res',
        (let s1 := renderAttached s in
         if Reader.eof (reader s1) then
           Some (None, write (ItemClose (itemCloseTag def)) s1)
         else
           let (nextItem', r) := matchItem X (reader s1) [] (env s1) in
           renderListItem_loop fuel def nextItem' (set_reader r s1)) = Some res' ->
        left_of res' s).
    { intros res' R. cbv zeta in R. unfold left_of.
      pose proof (renderAttached_remaining s) as A.
      destruct (Reader.eof (reader (renderAttached s))).
      - inversion R; subst; clear R. exact A.
      - pose proof (matchItem_remaining X (reader (renderAttached s)) []
                      (env (renderAttached s))) as (M & _).
        destruct (matchItem X _ _ _) as [nextItem' r].
        apply IHiloop in R. cbn [snd] in M.
        change (reader (set_reader r (renderAttached s))) with r in R. lia. }
    destruct nextItem as [[i|]|].
    + destruct (has_id (ListItem i)); [|apply Hblock; assumption].
      destruct (on_stack (iid i) (ids s)).
      * inversion H; subst; clear H. simpl. lia.
      * destruct (renderList fuel i s) as [[nextItem' s1]|] eqn:E;
          [|discriminate].
        inversion H; subst; clear H. apply IHlist in E. exact E.
    + apply Hblock. assumption.
    + inversion H; subst; clear H. simpl. lia.
Qed.

(** *** Enough fuel gives a result *)

Lemma engine_total :
  forall n,
  (forall startItem (s : St X) fuel,
     Reader.remaining (reader s) <= n -> 5 * n + 3 <= fuel ->
     exists res, renderListItem fuel startItem s = Some res) /\
  (forall startItem (s : St X) fuel,
     Reader.remaining (reader s) <= n -> 5 * n + 4 <= fuel ->
     exists res, renderList_loop fuel startItem s = Some res) /\
  (forall startItem (s : St X) fuel,
     Reader.remaining (reader s) <= n -> 5 * n + 5 <= fuel ->
     exists res, renderList fuel startItem s = Some res) /\
  (forall def nextItem (s : St X) fuel,
     Reader.remaining (reader s) <= n -> 5 * n + 7 <= fuel ->
     exists res, renderListItem_loop fuel def nextItem s = Some res).
Proof.
  induction n as [n IH] using lt_wf_ind.
  assert (Titem :
    forall startItem (s : St X) fuel,
      Reader.remaining (reader s) <= n -> 5 * n + 3 <= fuel ->
      exists res, renderListItem fuel startItem s = Some res).
  { intros startItem s fuel Hn Hf.
    destruct fuel as [|fuel]; [lia|]. rewrite renderListItem_S. cbv zeta.
    destruct (after_term_frame startItem s) as (Tr & _ & _).
    match goal with
    | |- context [readToNext X fuel ?r ?w ?e] =>
        set (r0 := r); set (w0 := w); set (e0 := e)
    end.
    assert (Hr0 : r0 = Reader.next (reader s)).
    { subst r0. simpl. rewrite Tr. reflexivity. }
    clearbody r0 w0 e0. subst r0.
    destruct (Reader.eof (reader s)) eqn:Eof.
    - destruct fuel as [|fuel]; [lia|].
      assert (E0 : Reader.eof (Reader.next (reader s)) = true).
      { unfold Reader.next. rewrite Eof. exact Eof. }
      rewrite readToNext_eof by exact E0.
      destruct (replaceInline X _ _) as [text e].
      rewrite renderListItem_loop_S. eauto.
    - pose proof (remaining_next _ Eof) as R1.
      destruct (readToNext_total fuel (Reader.next (reader s)) w0 e0)
        as [[[nextItem r] lines'] N]; [lia|].
      rewrite N. apply readToNext_remaining in N. simpl in N.
      destruct (replaceInline X _ _) as [text e].
      assert (Hlt : n - 1 < n) by lia.
      destruct (IH (n - 1) Hlt) as (_ & _ & _ & Tiloop).
      apply Tiloop; simpl; lia. }
  assert (Tloop :
    forall startItem (s : St X) fuel,
      Reader.remaining (reader s) <= n -> 5 * n + 4 <= fuel ->
      exists res, renderList_loop fuel startItem s = Some res).
  { intros startItem s fuel Hn Hf.
    destruct fuel as [|fuel]; [lia|]. rewrite renderList_loop_S.
    destruct (Titem startItem s fuel) as [[nextItem s1] E]; [lia|lia|].
    rewrite E. cbv zeta.
    destruct (engine_remaining fuel) as (_ & _ & Ritem & _).
    apply Ritem in E. unfold left_of in E. simpl in E. destruct E as (_ & E).
    destruct nextItem as [[i|]|]; eauto.
    destruct (String.eqb (iid i) (iid startItem)); eauto.
    assert (Hlt : n - 1 < n) by (specialize (E ltac:(discriminate)); lia).
    destruct (IH (n - 1) Hlt) as (_ & Tloop & _ & _).
    apply Tloop; [|lia]. specialize (E ltac:(discriminate)). lia. }
  assert (Tlist :
    forall startItem (s : St X) fuel,
      Reader.remaining (reader s) <= n -> 5 * n + 5 <= fuel ->
      exists res, renderList fuel startItem s = Some res).
  { intros startItem s fuel Hn Hf.
    destruct fuel as [|fuel]; [lia|]. rewrite renderList_S. cbv zeta.
    destruct (injectHtmlAttributes X _ _) as [tag e].
    apply Tloop; simpl; lia. }
  repeat split; auto.
  (* the loop of renderListItem *)
  assert (Tgood :
    forall def nextItem (s : St X) fuel,
      Reader.remaining (reader s) <= n -> 5 * n + 6 <= fuel ->
      match nextItem with None => True | Some x => has_id x = true end ->
      exists res, renderListItem_loop fuel def nextItem s = Some res).
  { intros def nextItem s fuel Hn Hf G.
    destruct fuel as [|fuel]; [lia|]. rewrite renderListItem_loop_S.
    destruct nextItem as [[i|]|]; [|discriminate|eauto].
    rewrite G. destruct (on_stack (iid i) (ids s)); [eauto|].
    destruct (Tlist i s fuel) as [[nextItem' s1] E]; [lia|lia|].
    rewrite E. eauto. }
  intros def nextItem s fuel Hn Hf.
  destruct fuel as [|fuel]; [lia|]. rewrite renderListItem_loop_S.
  assert (Hblock :
    exists res,
      (let s1 := renderAttached s in
       if Reader.eof (reader s1) then
         Some (None, write (ItemClose (itemCloseTag def)) s1)
       else
         let (nextItem', r) := matchItem X (reader s1) [] (env s1) in
         renderListItem_loop fuel def nextItem' (set_reader r s1)) = Some res).
  { cbv zeta. pose proof (renderAttached_remaining s) as A.
    destruct (Reader.eof (reader (renderAttached s))); [eauto|].
    pose proof (matchItem_remaining X (reader (renderAttached s)) []
                  (env (renderAttached s))) as (M & _).
    pose proof (matchItem_plain X (reader (renderAttached s))
                  (env (renderAttached s))) as G.
    destruct (matchItem X _ _ _) as [nextItem' r]. cbn [fst snd] in M, G.
    apply Tgood; [|lia|exact G].
    change (reader (set_reader r (renderAttached s))) with r. lia. }
  destruct nextItem as [[i|]|]; [|exact Hblock|eauto].
  destruct (has_id (ListItem i)); [|exact Hblock].
  destruct (on_stack (iid i) (ids s)); [eauto|].
  destruct (Tlist i s fuel) as [[nextItem' s1] E]; [lia|lia|].
  rewrite E. eauto.
Qed.

End Advancing.

End EngineFacts.

(** ** The whole render *)

Section RenderFacts.

Import ReaderFacts.

Variable X : Externals.

Lemma depth_zero (opening closing : Frag -> bool) (d : list Frag) :
  depth opening closing d = 0%Z <-> count opening d = count closing d.
Proof.
  unfold depth. lia.
Qed.

Lemma item_depth_app (a b : list Frag) :
  item_depth (a ++ b) = (item_depth a + item_depth b)%Z.
Proof.
  unfold item_depth, depth. rewrite !count_app. lia.
Qed.

(** The loop of [renderListItem] ends by writing the closing tag of
    the item, after fragments in which item tags are balanced. *)
Lemma item_loop_closes :
  forall fuel def nextItem (s : St X) res,
  renderListItem_loop fuel def nextItem s = Some res ->
  exists mid,
    writer (snd res) = writer s ++ mid ++ [ItemClose (itemCloseTag def)] /\
    item_depth mid = 0%Z.
Proof.
  induction fuel as [|fuel IH]; intros def nextItem s res H; [discriminate|].
  rewrite renderListItem_loop_S in H.
  assert (Hblock :
    forall res',
      (let s1 := renderAttached s in
       if Reader.eof (reader s1) then
         Some (None, write (ItemClose (itemCloseTag def)) s1)
       else
         let (nextItem', r) := matchItem X (reader s1) [] (env s1) in
         renderListItem_loop fuel def nextItem' (set_reader r s1)) = Some res' ->
      exists mid,
        writer (snd res') = writer s ++ mid ++ [ItemClose (itemCloseTag def)] /\
        item_depth mid = 0%Z).
  { intros res' R. cbv zeta in R.
    destruct (renderAttached_frame X s) as (_ & (b & Hb & _ & Ib)).
    destruct (Reader.eof (reader (renderAttached s))).
    - inversion R; subst; clear R. exists b. split; [|exact Ib].
      cbn [snd write writer]. unfold Writer.write. rewrite Hb.
      rewrite app_assoc. reflexivity.
    - destruct (matchItem X _ _ _) as [nextItem' r].
      apply IH in R. destruct R as (mid & Hm & Im).
      exists (b ++ mid). split.
      + rewrite Hm. cbn [set_reader writer]. rewrite Hb.
        rewrite <- !app_assoc. reflexivity.
      + rewrite item_depth_app. lia. }
  assert (Hclose :
    forall (s1 : St X) d, writer s1 = writer s ++ d -> item_depth d = 0%Z ->
    exists mid,
      writer (write (ItemClose (itemCloseTag def)) s1)
      = writer s ++ mid ++ [ItemClose (itemCloseTag def)] /\
      item_depth mid = 0%Z).
  { intros s1 d Hd Id. exists d. split; [|exact Id].
    cbn [write writer]. unfold Writer.write. rewrite Hd.
    rewrite app_assoc. reflexivity. }
  destruct nextItem as [[i|]|].
  - destruct (has_id (ListItem i)); [|apply Hblock; assumption].
    destruct (on_stack (iid i) (ids s)).
    + inversion H; subst; clear H.
      apply (Hclose s []); [rewrite app_nil_r|]; reflexivity.
    + destruct (renderList fuel i s) as [[nextItem' s1]|] eqn:E; [|discriminate].
      inversion H; subst; clear H.
      destruct (engine_inv X fuel) as (Hlist & _).
      apply Hlist in E. destruct E as (_ & (d & Hd & _ & Id) & _).
      apply (Hclose s1 d); assumption.
  - apply Hblock. assumption.
  - inversion H; subst; clear H.
    apply (Hclose s []); [rewrite app_nil_r|]; reflexivity.
Qed.

(** Without attachments [matchItem] gives a list item or nothing. *)
Lemma matchItem_not_attached (r : Reader.t) (e : Env X) :
  fst (matchItem X r [] e) <> Some Attached.
Proof.
  pose proof (matchItem_plain X r e) as G.
  destruct (fst (matchItem X r [] e)) as [[i|]|]; try discriminate.
Qed.

Lemma after_term_writes (startItem : Item) (s : St X) :
  exists pre,
    writer (after_term startItem s) = writer s ++ pre /\
    count is_ItemOpen pre = 0 /\ count is_ItemClose pre = 0.
Proof.
  unfold after_term. destruct (length (imatch startItem) =? 4).
  - cbv zeta. destruct (replaceInline X _ _) as [text e].
    eexists [_; _; _]. cbn [write writer set_env]. unfold Writer.write.
    rewrite <- !app_assoc. repeat split.
  - exists []. rewrite app_nil_r. repeat split.
Qed.

(** What a call of [renderListItem] writes: the term, if any, the
    opening tag of the item and its text, fragments in which item tags
    are balanced, and the closing tag of the item. *)
Lemma renderListItem_writes (fuel : nat) (startItem : Item) (s : St X)
    (res : option ItemState * St X) :
  renderListItem fuel startItem s = Some res ->
  exists pre text mid,
    writer (snd res)
    = writer s ++ pre
      ++ [ItemOpen (itemOpenTag (idef startItem)); Text text]
      ++ mid ++ [ItemClose (itemCloseTag (idef startItem))] /\
    count is_ItemOpen pre = 0 /\ count is_ItemClose pre = 0 /\
    count is_ItemOpen mid = count is_ItemClose mid.
Proof.
  destruct fuel as [|fuel]; [discriminate|].
  rewrite renderListItem_S. cbv zeta. intros H.
  destruct (after_term_writes startItem s) as (pre & Hpre & P1 & P2).
  destruct (readToNext X fuel _ _ _) as [[[nextItem r] lines']|];
    [|discriminate].
  destruct (replaceInline X _ _) as [text e].
  apply item_loop_closes in H. destruct H as (mid & Hm & Im).
  exists pre, text, mid. split; [|split; [exact P1|split; [exact P2|]]].
  - rewrite Hm. cbn [write writer set_env set_reader]. unfold Writer.write.
    rewrite Hpre. rewrite <- !app_assoc. reflexivity.
  - apply depth_zero. exact Im.
Qed.

Hypothesis Hadv : advances X.

Lemma renderList_total (startItem : Item) (s : St X) (fuel : nat) :
  fuel_for (reader s) <= fuel ->
  exists res, renderList fuel startItem s = Some res.
Proof.
  intros Hf.
  destruct (engine_total X Hadv (Reader.remaining (reader s))) as (_ & _ & T & _).
  apply T; [lia|exact Hf].
Qed.

Lemma renderListItem_total (startItem : Item) (s : St X) (fuel : nat) :
  fuel_for (reader s) <= fuel ->
  exists res, renderListItem fuel startItem s = Some res.
Proof.
  intros Hf.
  destruct (engine_total X Hadv (Reader.remaining (reader s))) as (T & _).
  apply T; [lia|]. unfold fuel_for in Hf. lia.
Qed.

(** A call of [render] on a reader that is not at end of input
    returns; when it has rendered a list, the stack is empty again and
    the tags it wrote are balanced. *)
Lemma render_returns (s : St X) (fuel : nat) :
  Reader.eof (reader s) = false ->
  fuel_for (reader s) <= fuel ->
  exists b s',
    render fuel s = Some (Return b s') /\
    wrote (writer s) (writer s') 0 0 /\
    (b = true -> ids s' = []) /\
    (b = false -> ids s' = ids s).
Proof.
  intros Eof Hf. unfold render. rewrite Eof.
  pose proof (matchItem_not_attached (reader s) (env s)) as NA.
  pose proof (matchItem_remaining X (reader s) [] (env s)) as (M & _).
  destruct (matchItem X (reader s) [] (env s)) as [[[i|]|] r];
    cbn [fst snd] in NA, M.
  - destruct (renderList_total i (set_ids [] (set_reader r s)) fuel)
      as [[nextItem s3] E].
    { unfold fuel_for in *. cbn [set_ids set_reader reader]. lia. }
    rewrite E. exists true, s3.
    destruct (engine_inv X fuel) as (Hlist & _).
    apply Hlist in E. destruct E as (Hids & Hw & _).
    split; [reflexivity|]. split; [exact Hw|].
    split; [intros _; exact Hids|discriminate].
  - contradiction.
  - exists false, (set_reader r s).
    split; [reflexivity|]. split; [apply wrote_refl|].
    split; [discriminate|reflexivity].
Qed.

End RenderFacts.

(** ** The sample environment *)

Module SampleFacts.
Import Reader ReaderFacts.

Lemma take_block_remaining :
  forall n r acc, remaining (fst (Sample.take_block n r acc)) <= remaining r.
Proof.
  induction n as [|n IH]; intros r acc; simpl; [lia|].
  destruct (cursor r) as [[|a l]|]; simpl; try lia.
  etransitivity; [apply IH|apply remaining_next_le].
Qed.

Lemma sample_advances : advances Sample.externals.
Proof.
  intros l r e. simpl. unfold Sample.block_to_blank.
  pose proof (take_block_remaining (remaining r) r EmptyString) as H.
  destruct (Sample.take_block (remaining r) r EmptyString). exact H.
Qed.

End SampleFacts.

Create Rewrite HintDb st.
#[export] Hint Rewrite writer_write writer_set_ids writer_set_env
  writer_set_reader ids_write ids_set_ids ids_set_env ids_set_reader : st.

(** * The claims *)

(** C1.  The stack of open list IDs is balanced.  With enough fuel a
    call of [renderList] returns, on every path, end of input in the
    middle of a list included; it leaves the stack as it found it, its
    push undone by its pop, and among the fragments it has written
    there are as many opening list tags as closing list tags.  So does
    a whole [render], which leaves the stack empty when it has
    rendered a list. *)
Theorem list_stack_balanced (X : Externals) (Hadv : advances X)
    (startItem : Item) (s : St X) (fuel : nat) :
  fuel_for (reader s) <= fuel ->
  (exists nextItem s' d,
     renderList fuel startItem s = Some (nextItem, s') /\
     ids s' = ids s /\
     writer s' = writer s ++ d /\
     count is_ListOpen d = count is_ListClose d) /\
  (Reader.eof (reader s) = false ->
   exists b s' d,
     render fuel s = Some (Return b s') /\
     (b = true -> ids s' = []) /\
     writer s' = writer s ++ d /\
     count is_ListOpen d = count is_ListClose d).
Proof.
  intros Hf. split.
  - destruct (renderList_total X Hadv startItem s fuel Hf) as [[nextItem s'] E].
    destruct (engine_inv X fuel) as (Hlist & _).
    destruct (Hlist _ _ _ E) as (Hids & (d & Hd & Ld & _) & _).
    exists nextItem, s', d. repeat split; auto.
    apply depth_zero. exact Ld.
  - intros Eof.
    destruct (render_returns X Hadv s fuel Eof Hf)
      as (b & s' & E & (d & Hd & Ld & _) & Ht & _).
    exists b, s', d. repeat split; auto.
    apply depth_zero. exact Ld.
Qed.

Lemma list_stack_balanced_witness :
  let s := Sample.start ["- one"; "  * nested"; "- two"; EmptyString; "  * late"] in
  let startItem :=
    {| imatch := ["- one"; "-"; "one"]; idef := ul_def; iid := "-" |} in
  advances Sample.externals /\
  fuel_for (reader s) <= 30 /\
  (exists nextItem s' d,
     renderList 30 startItem s = Some (nextItem, s') /\
     ids s' = ids s /\
     writer s' = writer s ++ d /\
     count is_ListOpen d = count is_ListClose d) /\
  (Reader.eof (reader s) = false ->
   exists b s' d,
     render 30 s = Some (Return b s') /\
     (b = true -> ids s' = []) /\
     writer s' = writer s ++ d /\
     count is_ListOpen d = count is_ListClose d).
Proof.
  intros s startItem.
  assert (Hf : fuel_for (reader s) <= 30) by (vm_compute; lia).
  split; [exact SampleFacts.sample_advances|]. split; [exact Hf|].
  exact (list_stack_balanced Sample.externals SampleFacts.sample_advances
           startItem s 30 Hf).
Defined.

(** C10.  Item tags are balanced.  With enough fuel a call of
    [renderListItem] returns; it writes the opening tag of the item
    once, at entry, and on every return path its last write is the
    closing tag of the item; in between, and in a whole [render], item
    tags are balanced. *)
Theorem item_tags_balanced (X : Externals) (Hadv : advances X)
    (startItem : Item) (s : St X) (fuel : nat) :
  fuel_for (reader s) <= fuel ->
  (exists nextItem s' pre text mid,
     renderListItem fuel startItem s = Some (nextItem, s') /\
     writer s'
     = writer s ++ pre
       ++ [ItemOpen (itemOpenTag (idef startItem)); Text text]
       ++ mid ++ [ItemClose (itemCloseTag (idef startItem))] /\
     count is_ItemOpen pre = 0 /\ count is_ItemClose pre = 0 /\
     count is_ItemOpen mid = count is_ItemClose mid) /\
  (Reader.eof (reader s) = false ->
   exists b s' d,
     render fuel s = Some (Return b s') /\
     writer s' = writer s ++ d /\
     count is_ItemOpen d = count is_ItemClose d).
Proof.
  intros Hf. split.
  - destruct (renderListItem_total X Hadv startItem s fuel Hf)
      as [[nextItem s'] E].
    destruct (renderListItem_writes X fuel startItem s _ E)
      as (pre & text & mid & Hw & P1 & P2 & Hm).
    exists nextItem, s', pre, text, mid. repeat split; auto.
  - intros Eof.
    destruct (render_returns X Hadv s fuel Eof Hf)
      as (b & s' & E & (d & Hd & _ & Id) & _).
    exists b, s', d. repeat split; auto.
    apply depth_zero. exact Id.
Qed.

Lemma item_tags_balanced_witness :
  let s := Sample.start ["a:: b"; EmptyString; " block"; EmptyString; "- c"; "- d"; "a:: e"] in
  let startItem :=
    {| imatch := ["a:: b"; "a"; "::"; " b"]; idef := dl_def; iid := "::" |} in
  advances Sample.externals /\
  fuel_for (reader s) <= 40 /\
  (exists nextItem s' pre text mid,
     renderListItem 40 startItem s = Some (nextItem, s') /\
     writer s'
     = writer s ++ pre
       ++ [ItemOpen (itemOpenTag (idef startItem)); Text text]
       ++ mid ++ [ItemClose (itemCloseTag (idef startItem))] /\
     count is_ItemOpen pre = 0 /\ count is_ItemClose pre = 0 /\
     count is_ItemOpen mid = count is_ItemClose mid) /\
  (Reader.eof (reader s) = false ->
   exists b s' d,
     render 40 s = Some (Return b s') /\
     writer s' = writer s ++ d /\
     count is_ItemOpen d = count is_ItemClose d).
Proof.
  intros s startItem.
  assert (Hf : fuel_for (reader s) <= 40) by (vm_compute; lia).
  split; [exact SampleFacts.sample_advances|]. split; [exact Hf|].
  exact (item_tags_balanced Sample.externals SampleFacts.sample_advances
           startItem s 40 Hf).
Defined.

(** C9.  [render] throws exactly when the reader is already at end of
    input, and the error is its outcome: nothing in lists.ts catches
    it.  On any other reader, whatever the lines hold, it returns. *)
Theorem render_throws_only_at_eof (X : Externals) (Hadv : advances X)
    (s : St X) (fuel : nat) :
  fuel_for (reader s) <= fuel ->
  (Reader.eof (reader s) = true ->
   render fuel s = Some (Throw X "premature eof")) /\
  (Reader.eof (reader s) = false ->
   exists b s', render fuel s = Some (Return b s')) /\
  (forall msg, render fuel s = Some (Throw X msg) ->
   Reader.eof (reader s) = true /\ msg = "premature eof").
Proof.
  intros Hf. split; [|split].
  - intros Eof. unfold render. rewrite Eof. reflexivity.
  - intros Eof.
    destruct (render_returns X Hadv s fuel Eof Hf) as (b & s' & E & _).
    exists b, s'. exact E.
  - intros msg H. destruct (Reader.eof (reader s)) eqn:Eof.
    + unfold render in H. rewrite Eof in H. inversion H. auto.
    + destruct (render_returns X Hadv s fuel Eof Hf) as (b & s' & E & _).
      rewrite E in H. discriminate.
Qed.

Lemma render_throws_only_at_eof_witness :
  let s := Sample.start [] in
  advances Sample.externals /\
  fuel_for (reader s) <= 5 /\
  Reader.eof (reader s) = true /\
  render 5 s = Some (Throw Sample.externals "premature eof").
Proof.
  intros s.
  assert (Hf : fuel_for (reader s) <= 5) by (vm_compute; lia).
  split; [exact SampleFacts.sample_advances|]. split; [exact Hf|].
  split; [reflexivity|].
  exact (proj1 (render_throws_only_at_eof Sample.externals
                  SampleFacts.sample_advances s 5 Hf) eq_refl).
Defined.

(** C5.  When the current line matches none of the three list
    patterns, [render] returns false and leaves the whole state as it
    was: the reader, with its cursor and its lines, the writer and the
    stack. *)
Theorem render_no_match (X : Externals) (s : St X) (line : string)
    (fuel : nat) :
  Reader.cursor (reader s) = Some line ->
  (forall d, In d defs -> exec (match_ d) line = None) ->
  render fuel s = Some (Return false s).
Proof.
  intros Hc Hn. unfold render.
  assert (Eof : Reader.eof (reader s) = false).
  { destruct (Reader.eof (reader s)) eqn:E; [|reflexivity].
    apply ReaderFacts.eof_cursor in E. congruence. }
  rewrite Eof. unfold matchItem. rewrite Hc.
  assert (D : matchItem_defs defs line (reader s) = None).
  { apply matchItem_defs_none. exact Hn. }
  rewrite D. simpl. destruct s. reflexivity.
Qed.

Lemma render_no_match_witness :
  let s := Sample.start ["hello *world*"; "- item"] in
  Reader.cursor (reader s) = Some "hello *world*" /\
  (forall d, In d defs -> exec (match_ d) "hello *world*" = None) /\
  render 10 s = Some (Return false s).
Proof.
  intros s.
  assert (Hn : forall d, In d defs -> exec (match_ d) "hello *world*" = None).
  { intros d [<-|[<-|[<-|[]]]]; vm_compute; reflexivity. }
  split; [reflexivity|]. split; [exact Hn|].
  exact (render_no_match Sample.externals s "hello *world*" 10 eq_refl Hn).
Defined.

(** C3.  The list ID is the second to last group.  On a line that a
    definition matches and that is not escaped, [matchItem] returns
    the item of the first definition that matches, with the array of
    its pattern, and the ID is the second to last entry of that
    array: the bullet of an unordered list, the dots of an ordered
    list, the colons of a definition list.  The markers [-], [*] and
    [**] so give three different IDs. *)
Theorem list_id_is_marker (X : Externals) (r : Reader.t) (a : list string)
    (e : Env X) (line : string) (d : ListDef) :
  Reader.cursor r = Some line ->
  starts_with_backslash line = false ->
  In d defs -> exec (match_ d) line <> None ->
  (exists i,
     matchItem X r a e = (Some (ListItem i), r) /\
     In (idef i) defs /\
     exec (match_ (idef i)) line = Some (imatch i) /\
     iid i = nth (length (imatch i) - 2) (imatch i) EmptyString /\
     ((idef i = ul_def /\ In (iid i) ul_ids) \/
      (idef i = ol_def /\ In (iid i) ol_ids) \/
      (idef i = dl_def /\ In (iid i) dl_ids))) /\
  id_of_line X "- x" e = Some "-" /\
  id_of_line X "* x" e = Some "*" /\
  id_of_line X "** x" e = Some "**".
Proof.
  intros Hc Hb Hd Hm. split; [|repeat split].
  pose proof (matchItem_matched X r a e line d Hc Hd Hm) as M.
  rewrite Hb in M. destruct M as (d' & mt & I & Ex & M).
  eexists. split; [exact M|]. cbn [imatch idef iid].
  split; [exact I|]. split; [exact Ex|]. split; [reflexivity|].
  destruct (exec_shape _ _ _ I Ex)
    as [(-> & b & t & -> & Hi)|[(-> & b & t & -> & Hi)|(-> & t & b & c & -> & Hi)]];
    cbn [length Nat.sub nth]; auto.
Qed.

Lemma list_id_is_marker_witness :
  let r := {| Reader.lines := ["intro"; "  ** nested item"]; Reader.pos := 1 |} in
  Reader.cursor r = Some "  ** nested item" /\
  starts_with_backslash "  ** nested item" = false /\
  In ul_def defs /\ exec (match_ ul_def) "  ** nested item" <> None /\
  exists i,
    matchItem Sample.externals r ["indented"] tt = (Some (ListItem i), r) /\
    In (idef i) defs /\
    exec (match_ (idef i)) "  ** nested item" = Some (imatch i) /\
    iid i = nth (length (imatch i) - 2) (imatch i) EmptyString /\
    ((idef i = ul_def /\ In (iid i) ul_ids) \/
     (idef i = ol_def /\ In (iid i) ol_ids) \/
     (idef i = dl_def /\ In (iid i) dl_ids)).
Proof.
  intros r.
  assert (Hm : exec (match_ ul_def) "  ** nested item" <> None)
    by (vm_compute; discriminate).
  assert (Hd : In ul_def defs) by (left; reflexivity).
  split; [reflexivity|]. split; [reflexivity|]. split; [exact Hd|].
  split; [exact Hm|].
  exact (proj1 (list_id_is_marker Sample.externals r ["indented"] tt
                  "  ** nested item" ul_def eq_refl eq_refl Hd Hm)).
Defined.

(** C7.  An attached delimited block is rendered on a fresh stack.
    The block renderer is called with the empty stack; whatever it
    leaves there, the stack of before comes back; its fragments go to
    the writer; blank lines are skipped, and unless the input has
    ended, matching resumes with [matchItem] on a line that is not
    blank.  The stack of open IDs thus crosses the block untouched and
    unseen: with any other stack the block is rendered the same. *)
Theorem attached_block_fresh_stack (X : Externals) (fuel : nat)
    (def : ListDef) (s : St X) :
  let out := delimitedBlocks_render X [] (reader s) (env s) in
  let s1 := renderAttached s in
  ids s1 = ids s /\
  writer s1 = writer s ++ map Block (db_written out) /\
  env s1 = db_env out /\
  reader s1 = Reader.skipBlankLines (db_reader out) /\
  Reader.cursor (reader s1) <> Some EmptyString /\
  (forall l, renderAttached (set_ids l s) = set_ids l s1) /\
  renderListItem_loop (S fuel) def (Some Attached) s
  = if Reader.eof (reader s1)
    then Some (None, write (ItemClose (itemCloseTag def)) s1)
    else let (nextItem, r) := matchItem X (reader s1) [] (env s1) in
         renderListItem_loop fuel def nextItem (set_reader r s1).
Proof.
  cbv zeta. repeat split.
  apply ReaderFacts.skipBlankLines_not_blank.
Qed.

(** C4, as amended.  Blank lines while scanning an item.  Two blank
    lines in a row, or a blank line at the end of the input, give no
    element.  After a single blank line the next line is matched with
    the indented block as the only attachment: a list item is a new
    item, a line that opens an indented block is an attached
    continuation, and any other line gives no element.  End of input
    gives no element.  No element closes the current item, then its
    list, then every item and list around them. *)
Theorem blank_line_scan (X : Externals) (r : Reader.t) (w : Writer.t string)
    (e : Env X) (fuel : nat) :
  Reader.cursor r = Some EmptyString ->
  (blank (Reader.cursor (Reader.next r)) = true \/
   Reader.eof (Reader.next r) = true ->
   readToNext X (S fuel) r w e = Some (None, Reader.next r, w)) /\
  (forall line,
     Reader.cursor (Reader.next r) = Some line -> line <> EmptyString ->
     readToNext X (S fuel) r w e
     = Some (matchItem X (Reader.next r) ["indented"] e, w) /\
     (starts_with_backslash line = false ->
      (exists d, In d defs /\ exec (match_ d) line <> None) ->
      exists i, matchItem X (Reader.next r) ["indented"] e
                = (Some (ListItem i), Reader.next r)) /\
     ((forall d, In d defs -> exec (match_ d) line = None) ->
      openMatch X "indented" line e = true ->
      matchItem X (Reader.next r) ["indented"] e
      = (Some Attached, Reader.next r)) /\
     ((forall d, In d defs -> exec (match_ d) line = None) ->
      openMatch X "indented" line e = false ->
      matchItem X (Reader.next r) ["indented"] e = (None, Reader.next r)) /\
     (starts_with_backslash line = true ->
      (exists d, In d defs /\ exec (match_ d) line <> None) ->
      matchItem X (Reader.next r) ["indented"] e
      = (None, Reader.set_cursor (slice1 line) (Reader.next r)))) /\
  (forall r', Reader.eof r' = true ->
              readToNext X (S fuel) r' w e = Some (None, r', w)) /\
  (forall def (s : St X),
     renderListItem_loop (S fuel) def None s
     = Some (None, write (ItemClose (itemCloseTag def)) s)) /\
  (forall startItem (s s1 : St X),
     renderListItem fuel startItem s = Some (None, s1) ->
     renderList_loop (S fuel) startItem s
     = Some (None,
             set_ids (removelast (ids s1))
               (write (ListClose (listCloseTag (idef startItem))) s1))) /\
  (forall def i (s s1 : St X),
     has_id (ListItem i) = true -> on_stack (iid i) (ids s) = false ->
     renderList fuel i s = Some (None, s1) ->
     renderListItem_loop (S fuel) def (Some (ListItem i)) s
     = Some (None, write (ItemClose (itemCloseTag def)) s1)).
Proof.
  intros Hc.
  assert (Eof : Reader.eof r = false)
    by exact (ReaderFacts.cursor_not_eof _ _ Hc).
  split; [|split; [|split; [|split; [|split]]]].
  - intros H. simpl. rewrite Eof, Hc. simpl.
    destruct (blank (Reader.cursor (Reader.next r))); [reflexivity|].
    destruct H as [H|H]; [discriminate|]. rewrite H. reflexivity.
  - intros line Hl Hne.
    assert (Eof1 : Reader.eof (Reader.next r) = false)
      by exact (ReaderFacts.cursor_not_eof _ _ Hl).
    assert (B : blank (Reader.cursor (Reader.next r)) = false).
    { rewrite Hl. destruct line; [contradiction|reflexivity]. }
    split; [|split; [|split; [|split]]].
    + simpl. rewrite Eof, Hc. simpl. rewrite B, Eof1.
      destruct (matchItem X (Reader.next r) ["indented"] e). reflexivity.
    + intros Hb (d & Hd & Hm).
      pose proof (matchItem_matched X (Reader.next r) ["indented"] e line d
                    Hl Hd Hm) as M.
      rewrite Hb in M. destruct M as (d' & mt & _ & _ & M).
      eexists. exact M.
    + intros Hn Ho. unfold matchItem. rewrite Hl.
      rewrite (proj2 (matchItem_defs_none line (Reader.next r) defs) Hn).
      simpl. rewrite Ho. reflexivity.
    + intros Hn Ho. unfold matchItem. rewrite Hl.
      rewrite (proj2 (matchItem_defs_none line (Reader.next r) defs) Hn).
      simpl. rewrite Ho. reflexivity.
    + intros Hb (d & Hd & Hm).
      pose proof (matchItem_matched X (Reader.next r) ["indented"] e line d
                    Hl Hd Hm) as M.
      rewrite Hb in M. exact M.
  - intros r' H. apply readToNext_eof. exact H.
  - intros def s. reflexivity.
  - intros startItem s s1 E. rewrite renderList_loop_S, E. reflexivity.
  - intros def i s s1 Hid O E.
    rewrite renderListItem_loop_S, Hid, O, E. reflexivity.
Qed.

Lemma blank_line_scan_witness :
  let r := {| Reader.lines := ["- a"; EmptyString; "plain"; "- b"]; Reader.pos := 1 |} in
  Reader.cursor r = Some EmptyString /\
  Reader.cursor (Reader.next r) = Some "plain" /\
  readToNext Sample.externals 5 r [] tt
  = Some (matchItem Sample.externals (Reader.next r) ["indented"] tt, []) /\
  matchItem Sample.externals (Reader.next r) ["indented"] tt
  = (None, Reader.next r).
Proof.
  intros r.
  pose proof (blank_line_scan Sample.externals r [] tt 4 eq_refl)
    as (_ & H & _).
  assert (Hne : "plain" <> EmptyString) by discriminate.
  destruct (H "plain" eq_refl Hne) as (H1 & _ & _ & H4 & _).
  split; [reflexivity|]. split; [reflexivity|]. split; [exact H1|].
  apply H4; [|reflexivity].
  intros d [<-|[<-|[<-|[]]]]; vm_compute; reflexivity.
Defined.

(** C4, as the spec has it, fails: after a single blank line a line
    of plain text is neither a continuation nor a new item; it ends
    the list. *)
Lemma blank_line_then_text_ends_list :
  ~ blank_line_continues Sample.externals.
Proof.
  intros H.
  assert (Hne : "plain" <> EmptyString) by discriminate.
  destruct (H {| Reader.lines := ["- a"; EmptyString; "plain"]; Reader.pos := 1 |}
              [] tt 5 "plain" eq_refl eq_refl Hne ltac:(vm_compute; lia))
    as (x & r' & w' & E).
  vm_compute in E. discriminate.
Qed.

(** C8, as amended.  Rendering the single line [Term:: Definition]
    gives one definition list: the opening tag with the pending
    attributes injected, the term [Term] between its tags, and between
    the item tags the third group of the pattern, which keeps its
    leading blank, joined to a newline; both texts go through inline
    replacement. *)
Theorem definition_list_single_line (X : Externals) (s : St X) (fuel : nat) :
  reader s = {| Reader.lines := ["Term:: Definition"]; Reader.pos := 0 |} ->
  4 <= fuel ->
  let (tag, e1) := injectHtmlAttributes X "<dl>" (env s) in
  let (term, e2) := replaceInline X "Term" e1 in
  let (text, e3) :=
    replaceInline X (Writer.toString (separator X) [" Definition"; nl]) e2 in
  render fuel s
  = Some (Return true
            {| reader := {| Reader.lines := ["Term:: Definition"];
                            Reader.pos := 1 |};
               writer := writer s
                         ++ [ListOpen tag;
                             TermOpen (Some "<dt>"); Text term;
                             TermClose (Some "</dt>");
                             ItemOpen "<dd>"; Text text; ItemClose "</dd>";
                             ListClose "</dl>"];
               ids := [];
               env := e3 |}).
Proof.
  intros Hr Hf.
  destruct s as [r w l e]. simpl in Hr. subst r.
  do 4 (destruct fuel as [|fuel]; [lia|]).
  cbn [env writer].
  destruct (injectHtmlAttributes X "<dl>" e) as [tag e1] eqn:E1.
  destruct (replaceInline X "Term" e1) as [term e2] eqn:E2.
  destruct (replaceInline X (Writer.toString (separator X) [" Definition"; nl]) e2)
    as [text e3] eqn:E3.
  unfold render.
  change (Reader.eof _) with false. cbv iota.
  replace (matchItem X _ [] _) with
    (Some (ListItem {| imatch := ["Term:: Definition"; "Term"; "::";
                                  " Definition"];
                       idef := dl_def; iid := "::" |}),
     {| Reader.lines := ["Term:: Definition"]; Reader.pos := 0 |})
    by (vm_compute; reflexivity).
  rewrite renderList_S. cbv zeta.
  change (injectHtmlAttributes X (listOpenTag _) (env _))
    with (injectHtmlAttributes X "<dl>" e).
  rewrite E1.
  rewrite renderList_loop_S, renderListItem_S. cbv zeta.
  unfold after_term.
  change (length (imatch _) =? 4) with true. cbv iota zeta.
  change (replaceInline X (nth 1 _ _) (env _))
    with (replaceInline X "Term" e1).
  rewrite E2.
  rewrite readToNext_eof by reflexivity.
  change (replaceInline X (Writer.toString _ _) (env _))
    with (replaceInline X (Writer.toString (separator X) [" Definition"; nl]) e2).
  rewrite E3.
  rewrite renderListItem_loop_S. cbv beta iota zeta.
  apply (f_equal (fun s' => Some (Return true s'))).
  apply St_ext.
  - reflexivity.
  - autorewrite with st. unfold Writer.write.
    cbn [idef dl_def itemOpenTag itemCloseTag listCloseTag termOpenTag
         termCloseTag].
    rewrite <- !app_assoc. reflexivity.
  - autorewrite with st. apply removelast_last with (l := []).
  - reflexivity.
Qed.

Lemma definition_list_single_line_witness :
  let s := Sample.start ["Term:: Definition"] in
  reader s = {| Reader.lines := ["Term:: Definition"]; Reader.pos := 0 |} /\
  4 <= 10 /\
  render 10 s
  = Some (Return true
            (@Build_St Sample.externals
               {| Reader.lines := ["Term:: Definition"]; Reader.pos := 1 |}
               [ListOpen "<dl>";
                TermOpen (Some "<dt>"); Text "Term"; TermClose (Some "</dt>");
                ItemOpen "<dd>"; Text (" Definition" ++ nl); ItemClose "</dd>";
                ListClose "</dl>"]
               [] tt)).
Proof.
  intros s.
  assert (Hf : 4 <= 10) by lia.
  split; [reflexivity|]. split; [exact Hf|].
  exact (definition_list_single_line Sample.externals s 10 eq_refl Hf).
Defined.

(** C8, as the spec has it, fails: with the text left as it is by
    inline replacement, the definition keeps the blank after the
    colons and the newline that ends the item text. *)
Lemma definition_list_keeps_blank_and_newline :
  Sample.html (render 10 (Sample.start ["Term:: Definition"]))
  = ("<dl><dt>Term</dt><dd> Definition" ++ nl ++ "</dd></dl>")%string /\
  Sample.html (render 10 (Sample.start ["Term:: Definition"]))
  <> "<dl><dt>Term</dt><dd>Definition</dd></dl>".
Proof.
  split; [reflexivity|]. vm_compute. discriminate.
Qed.

(** * Further properties *)

(** ** Lines and cursor *)

Module MoreReaderFacts.
Import Reader ReaderFacts.

Lemma nth_error_set_nth_other (v : string) (l : list string) :
  forall n k, k <> n -> nth_error (set_nth n v l) k = nth_error l k.
Proof.
  induction l as [|x l IH]; intros [|n] [|k] H; simpl; auto; try congruence.
Qed.

End MoreReaderFacts.

Section MatchFrame.

Import Reader ReaderFacts MoreReaderFacts.

Variable X : Externals.

(** [matchItem] leaves the position of the reader and every line but
    the one at the cursor. *)
Lemma matchItem_lines (r : Reader.t) (a : list string) (e : Env X) :
  pos (snd (matchItem X r a e)) = pos r /\
  length (lines (snd (matchItem X r a e))) = length (lines r) /\
  (forall k, k <> pos r ->
     nth_error (lines (snd (matchItem X r a e))) k = nth_error (lines r) k).
Proof.
  unfold matchItem. destruct (cursor r) as [line|] eqn:Hc; [|simpl; auto].
  destruct (matchItem_defs defs line r) as [res|] eqn:E.
  - apply matchItem_defs_cases in E.
    destruct E as (d & mt & _ & _ & [[B ->]|[_ ->]]); simpl; [|auto].
    repeat split.
    + apply length_set_nth.
    + intros k Hk. apply nth_error_set_nth_other. exact Hk.
  - destruct (existsb _ a); simpl; auto.
Qed.

(** X1.  [matchItem] touches the reader in one way only.  It never
    moves the reader and never adds, drops or changes a line other
    than the one at the cursor; and either it leaves the reader as it
    was, or it returns no element and has taken the leading backslash
    off the line at the cursor. *)
Theorem matchItem_frame (r : Reader.t) (a : list string) (e : Env X) :
  pos (snd (matchItem X r a e)) = pos r /\
  length (lines (snd (matchItem X r a e))) = length (lines r) /\
  (forall k, k <> pos r ->
     nth_error (lines (snd (matchItem X r a e))) k = nth_error (lines r) k) /\
  (snd (matchItem X r a e) = r \/
   (fst (matchItem X r a e) = None /\
    exists rest, cursor r = Some (String backslash rest) /\
                 cursor (snd (matchItem X r a e)) = Some rest)).
Proof.
  destruct (matchItem_lines r a e) as (P & L & N).
  split; [exact P|]. split; [exact L|]. split; [exact N|]. clear P L N.
  unfold matchItem. destruct (cursor r) as [line|] eqn:Hc; [|simpl; auto].
  destruct (matchItem_defs defs line r) as [res|] eqn:E.
  - apply matchItem_defs_cases in E.
    destruct E as (d & mt & _ & _ & [[B ->]|[_ ->]]); simpl; [|auto].
    right. split; [reflexivity|].
    destruct line as [|c rest]; [discriminate|]. simpl in B.
    apply Ascii.eqb_eq in B. subst c. exists rest. split; [reflexivity|].
    apply (cursor_set_cursor rest r). eapply cursor_not_eof. exact Hc.
  - destruct (existsb _ a); simpl; auto.
Qed.

End MatchFrame.

(** ** The matcher: the order of choices *)

Module MoreRegexFacts.
Import RegexFacts.

(** The greedy choice returns the result of the largest count that
    the continuation accepts. *)
Lemma try_down_max (A : Type) (lo : nat) (k : nat -> option A) (x : A) :
  forall n, try_down lo n k = Some x ->
  exists j, lo <= j /\ j <= n /\ k j = Some x /\
            forall j', j < j' -> j' <= n -> k j' = None.
Proof.
  induction n as [|n IH]; simpl.
  - destruct lo; simpl; try discriminate.
    destruct (k 0) eqn:E; try discriminate.
    intros H; inversion H; subst. exists 0. repeat split; auto. intros; lia.
  - destruct (S n <? lo) eqn:L; try discriminate.
    apply Nat.ltb_ge in L.
    destruct (k (S n)) eqn:E.
    + intros H; inversion H; subst. exists (S n). repeat split; auto.
      intros; lia.
    + intros H. destruct (IH H) as (j & ? & ? & ? & M). exists j.
      repeat split; auto. intros j' Hj Hn.
      destruct (Nat.eq_dec j' (S n)) as [->|N]; [exact E|].
      apply M; lia.
Qed.

Lemma try_down_complete (A : Type) (lo : nat) (k : nat -> option A) :
  forall n j, lo <= j -> j <= n -> k j <> None -> try_down lo n k <> None.
Proof.
  induction n as [|n IH]; intros j Hlo Hj Hk; simpl.
  - assert (j = 0) by lia. subst. assert (lo = 0) by lia. subst. simpl.
    destruct (k 0); [discriminate|contradiction].
  - destruct (S n <? lo) eqn:L.
    { apply Nat.ltb_lt in L. lia. }
    destruct (k (S n)) eqn:E; [discriminate|].
    destruct (Nat.eq_dec j (S n)) as [->|N]; [congruence|].
    apply (IH j); auto. lia.
Qed.

(** A pattern with its optional backslash matches what the pattern
    without it matches. *)
Lemma escaped_plain (body : regex) (l : list ascii) :
  groups body l <> None -> groups (escaped body) l <> None.
Proof.
  unfold groups, escaped, Opt. intros H. cbn [m].
  apply (try_down_complete _ 0 _ _ 0); [lia|lia|]. exact H.
Qed.

End MoreRegexFacts.

Section RenderResult.

Import Reader ReaderFacts MoreReaderFacts.

Variable X : Externals.

Lemma render_cases (s : St X) (fuel : nat) (line : string) :
  cursor (reader s) = Some line ->
  ((forall d, In d defs -> exec (match_ d) line = None) /\
   render fuel s = Some (Return false s)) \/
  ((exists d, In d defs /\ exec (match_ d) line <> None) /\
   starts_with_backslash line = true /\
   render fuel s
   = Some (Return false (set_reader (set_cursor (slice1 line) (reader s)) s))) \/
  ((exists d, In d defs /\ exec (match_ d) line <> None) /\
   starts_with_backslash line = false /\
   exists i, matchItem X (reader s) [] (env s) = (Some (ListItem i), reader s) /\
     render fuel s
     = match renderList fuel i (set_ids [] (set_reader (reader s) s)) with
       | Some (_, s3) => Some (Return true s3)
       | None => None
       end).
Proof.
  intros Hc. pose proof (cursor_not_eof _ _ Hc) as Eof.
  destruct (matchItem_defs defs line (reader s)) as [res|] eqn:E.
  - right. pose proof E as E'. apply matchItem_defs_cases in E'.
    destruct E' as (d & mt & Hd & Ex & C).
    assert (Hm : exists d, In d defs /\ exec (match_ d) line <> None).
    { exists d. split; [exact Hd|]. congruence. }
    destruct C as [[B ->]|[B ->]].
    + left. split; [exact Hm|]. split; [exact B|].
      unfold render, matchItem. rewrite Eof, Hc, E. reflexivity.
    + right. split; [exact Hm|]. split; [exact B|].
      eexists. unfold render, matchItem. rewrite Eof, Hc, E. split; reflexivity.
  - left. split; [apply matchItem_defs_none with (r := reader s); exact E|].
    unfold render, matchItem. rewrite Eof, Hc, E. simpl. destruct s. reflexivity.
Qed.

(** X3.  A [render] that answers false has written nothing: the
    writer, the stack of IDs and the environment are as before, the
    reader stays on the same line, and no line other than that one
    was changed. *)
Theorem render_false_frame (s s' : St X) (fuel : nat) :
  render fuel s = Some (Return false s') ->
  writer s' = writer s /\ ids s' = ids s /\ env s' = env s /\
  pos (reader s') = pos (reader s) /\
  length (lines (reader s')) = length (lines (reader s)) /\
  (forall k, k <> pos (reader s) ->
     nth_error (lines (reader s')) k = nth_error (lines (reader s)) k).
Proof.
  unfold render. destruct (eof (reader s)); [discriminate|].
  pose proof (matchItem_lines X (reader s) [] (env s)) as (P & L & N).
  destruct (matchItem X (reader s) [] (env s)) as [[[i|]|] r]; cbn [fst snd] in *.
  - destruct (renderList fuel i _) as [[? ?]|]; discriminate.
  - discriminate.
  - intros H. inversion H; subst; clear H. simpl. repeat split; auto.
Qed.

Hypothesis Hadv : advances X.

(** X2.  What [render] answers.  On a reader that is not at end of
    input, with enough fuel, [render] returns, and it answers true
    exactly when the line at the cursor does not start with a
    backslash and a pattern of [defs] matches it. *)
Theorem render_result (s : St X) (fuel : nat) (line : string) :
  cursor (reader s) = Some line ->
  fuel_for (reader s) <= fuel ->
  exists b s',
    render fuel s = Some (Return b s') /\
    (b = true <->
     starts_with_backslash line = false /\
     exists d, In d defs /\ exec (match_ d) line <> None).
Proof.
  intros Hc Hf.
  destruct (render_cases s fuel line Hc)
    as [(Hn & R)|[(Hm & B & R)|(Hm & B & i & _ & R)]].
  - exists false, s. split; [exact R|]. split; [discriminate|].
    intros (_ & d & Hd & Hx). exfalso. apply Hx. apply Hn. exact Hd.
  - eexists false, _. split; [exact R|]. split; [discriminate|].
    intros (B' & _). congruence.
  - destruct (renderList_total X Hadv i (set_ids [] (set_reader (reader s) s)) fuel)
      as [[nextItem s3] E]; [exact Hf|].
    rewrite E in R. exists true, s3. split; [exact R|].
    split; [auto|reflexivity].
Qed.

End RenderResult.

Section Progress.

Import Reader ReaderFacts MoreReaderFacts MoreRegexFacts.

Variable X : Externals.
Hypothesis Hadv : advances X.

(** A call of [renderListItem] on a reader that is not at end of
    input consumes the line of its item. *)
Lemma renderListItem_progress (fuel : nat) (startItem : Item) (s : St X)
    (res : option ItemState * St X) :
  eof (reader s) = false ->
  renderListItem fuel startItem s = Some res ->
  remaining (reader (snd res)) < remaining (reader s).
Proof.
  intros Eof H. destruct fuel as [|fuel]; [discriminate|].
  rewrite renderListItem_S in H. cbv zeta in H.
  destruct (after_term_frame X startItem s) as (Tr & _ & _).
  match type of H with
  | context [readToNext X fuel ?r ?w ?e] =>
      change r with (next (reader (after_term startItem s))) in H;
      set (w0 := w) in H; set (e0 := e) in H
  end.
  rewrite Tr in H. clearbody w0 e0.
  pose proof (remaining_next _ Eof) as R1.
  destruct (readToNext X fuel _ w0 e0) as [[[nextItem r] lines']|] eqn:N;
    [|discriminate].
  apply readToNext_remaining in N. cbn [fst snd] in N.
  destruct (replaceInline X _ _) as [text e].
  destruct (engine_remaining X Hadv fuel) as (_ & _ & _ & Riloop).
  apply Riloop in H. unfold left_of in H.
  change (reader (write _ (set_env _ (set_reader r _)))) with r in H. lia.
Qed.

Lemma renderList_progress (fuel : nat) (startItem : Item) (s : St X)
    (res : option ItemState * St X) :
  eof (reader s) = false ->
  renderList fuel startItem s = Some res ->
  remaining (reader (snd res)) < remaining (reader s).
Proof.
  intros Eof H. destruct fuel as [|fuel]; [discriminate|].
  rewrite renderList_S in H. cbv zeta in H.
  destruct (injectHtmlAttributes X _ _) as [tag e].
  destruct fuel as [|fuel]; [discriminate|].
  rewrite renderList_loop_S in H.
  destruct (renderListItem fuel startItem _) as [[nextItem s1]|] eqn:E;
    [|discriminate].
  apply renderListItem_progress in E; [|exact Eof].
  cbn [snd] in E.
  change (reader (write _ (set_env _ (set_ids _ s)))) with (reader s) in E.
  cbv zeta in H.
  assert (Hclose : forall l f res',
            Some (nextItem, set_ids l (write f s1)) = Some res' ->
            remaining (reader (snd res')) < remaining (reader s)).
  { intros l f res' R. inversion R; subst. exact E. }
  destruct nextItem as [[i|]|]; try (eapply Hclose; exact H).
  destruct (String.eqb (iid i) (iid startItem)); [|eapply Hclose; exact H].
  destruct (engine_remaining X Hadv fuel) as (_ & Rloop & _).
  apply Rloop in H. unfold left_of in H. lia.
Qed.

(** X4.  A [render] that answers true has consumed input: fewer
    lines remain than before. *)
Theorem render_true_advances (s s' : St X) (fuel : nat) :
  render fuel s = Some (Return true s') ->
  remaining (reader s') < remaining (reader s).
Proof.
  unfold render. destruct (eof (reader s)) eqn:Eof; [discriminate|].
  pose proof (matchItem_remaining X (reader s) [] (env s)) as (M & Me).
  destruct (matchItem X (reader s) [] (env s)) as [[[i|]|] r];
    cbn [fst snd] in *; try discriminate.
  destruct (renderList fuel i _) as [[nextItem s3]|] eqn:E; [|discriminate].
  intros H. inversion H; subst; clear H.
  apply renderList_progress in E.
  - cbn [snd] in E.
    change (reader (set_ids [] (set_reader r s))) with r in E. lia.
  - change (reader (set_ids [] (set_reader r s))) with r. congruence.
Qed.

(** X5.  An escape works once.  On a line made of a backslash and
    a list item that does not itself start with a backslash, [render]
    answers false and leaves the item without its backslash at the
    cursor; a second [render] from there takes the line for a list
    item and answers true. *)
Theorem escape_protects_once (s : St X) (rest : string) (body : regex)
    (fuel : nat) :
  cursor (reader s) = Some (String backslash rest) ->
  starts_with_backslash rest = false ->
  In body [ul_body; ol_body; dl_body] ->
  groups body (list_ascii_of_string rest) <> None ->
  fuel_for (reader s) <= fuel ->
  exists s1 s2,
    render fuel s = Some (Return false s1) /\
    cursor (reader s1) = Some rest /\
    render fuel s1 = Some (Return true s2).
Proof.
  intros Hc Hb Hbody Hg Hf.
  pose proof (cursor_not_eof _ _ Hc) as Eof.
  assert (Hd : exists d, In d defs /\ match_ d = escaped body).
  { destruct Hbody as [<-|[<-|[<-|[]]]];
      [exists ul_def|exists ol_def|exists dl_def]; simpl; auto. }
  destruct Hd as (d & Hd & Hr).
  assert (Hm1 : exec (match_ d) (String backslash rest) <> None).
  { rewrite Hr. unfold exec. cbn [list_ascii_of_string].
    pose proof (escaped_backslash body _ Hg) as G.
    destruct (groups (escaped body) _); [discriminate|contradiction]. }
  assert (Hm2 : exec (match_ d) rest <> None).
  { rewrite Hr. unfold exec.
    pose proof (escaped_plain body _ Hg) as G.
    destruct (groups (escaped body) _); [discriminate|contradiction]. }
  destruct (render_cases X s fuel _ Hc)
    as [(Hn & _)|[(_ & _ & R)|(_ & B & _)]].
  - exfalso. apply Hm1. apply Hn. exact Hd.
  - cbn [slice1] in R.
    set (s1 := set_reader (set_cursor rest (reader s)) s) in *.
    assert (Hc1 : cursor (reader s1) = Some rest)
      by (apply cursor_set_cursor; exact Eof).
    assert (Hf1 : fuel_for (reader s1) <= fuel).
    { unfold fuel_for in *. subst s1. cbn [reader set_reader].
      rewrite remaining_set_cursor. exact Hf. }
    destruct (render_cases X s1 fuel _ Hc1)
      as [(Hn & _)|[(_ & B & _)|(_ & _ & i & _ & R2)]].
    + exfalso. apply Hm2. apply Hn. exact Hd.
    + congruence.
    + destruct (renderList_total X Hadv i
                  (set_ids [] (set_reader (reader s1) s1)) fuel)
        as [[nextItem s3] E]; [exact Hf1|].
      rewrite E in R2. exists s1, s3. auto.
  - cbn [starts_with_backslash] in B.
    replace (Ascii.eqb backslash backslash) with true in B by reflexivity.
    discriminate.
Qed.

End Progress.

(** ** The text of an item *)

Section ItemText.

Import Reader ReaderFacts MoreReaderFacts.

Variable X : Externals.

Lemma skipn_cons_nth (A : Type) (l : list A) :
  forall n x, nth_error l n = Some x -> skipn n l = x :: skipn (S n) l.
Proof.
  induction l as [|y l IH]; intros [|n] x H; simpl in *; try discriminate.
  - inversion H. reflexivity.
  - apply IH. exact H.
Qed.

Lemma next_not_eof (r : t) :
  eof r = false -> next r = {| lines := lines r; pos := S (pos r) |}.
Proof.
  intros H. unfold next. rewrite H. reflexivity.
Qed.

(** No pattern of [defs] matches a line that is a backslash alone:
    the line [matchItem] leaves after an escape is not blank. *)
Lemma matchItem_cursor_not_blank (r : t) (a : list string) (e : Env X) :
  blank (cursor r) = false -> eof r = false ->
  blank (cursor (snd (matchItem X r a e))) = false.
Proof.
  intros B Eof. unfold matchItem.
  destruct (cursor r) as [line|] eqn:Hc;
    [|apply eof_cursor in Hc; congruence].
  destruct (matchItem_defs defs line r) as [res|] eqn:E.
  - apply matchItem_defs_cases in E.
    destruct E as (d & mt & Hd & Hx & [[Hb ->]|[_ ->]]); cbn [snd];
      [|rewrite Hc; exact B].
    rewrite (cursor_set_cursor _ r Eof).
    destruct line as [|c rest]; [discriminate|]. cbn [slice1].
    destruct rest as [|c' rest]; [|reflexivity].
    simpl in Hb. apply Ascii.eqb_eq in Hb. subst c. exfalso.
    destruct Hd as [<-|[<-|[<-|[]]]]; vm_compute in Hx; discriminate.
  - destruct (existsb _ a); cbn [snd]; rewrite Hc; exact B.
Qed.

(** [matchItem] leaves every line as it was, or without its leading
    backslash. *)
Lemma matchItem_unescapes (r : t) (a : list string) (e : Env X) :
  forall n,
  unescaped (nth_error (lines r) n)
            (nth_error (lines (snd (matchItem X r a e))) n).
Proof.
  intros n. destruct (matchItem_lines X r a e) as (P & L & N).
  destruct (Nat.eq_dec n (pos r)) as [->|Hn]; [|left; apply N; exact Hn].
  unfold matchItem. change (nth_error (lines r) (pos r)) with (cursor r).
  destruct (cursor r) as [line|] eqn:Hc; [|left; exact Hc].
  destruct (matchItem_defs defs line r) as [res|] eqn:E.
  - apply matchItem_defs_cases in E.
    destruct E as (d & mt & _ & _ & [[B ->]|[_ ->]]); cbn [snd];
      [|left; exact Hc].
    right. destruct line as [|c rest]; [discriminate|]. simpl in B.
    apply Ascii.eqb_eq in B. subst c. exists rest. split; [reflexivity|].
    apply (cursor_set_cursor rest r). eapply cursor_not_eof. exact Hc.
  - destruct (existsb _ a); left; exact Hc.
Qed.

Lemma blank_nth_error (r : t) :
  blank (cursor r) = true -> nth_error (lines r) (pos r) = Some EmptyString.
Proof.
  unfold cursor. destruct (nth_error (lines r) (pos r)) as [[|c l]|];
    simpl; intros H; try discriminate. reflexivity.
Qed.

(** What a scan that returns has done. *)
Lemma readToNext_scan :
  forall fuel r w e next r' w',
  readToNext X fuel r w e = Some (next, r', w') ->
  exists k,
    w' = w ++ flat_map (fun l => [l; nl]) (firstn k (skipn (pos r) (lines r'))) /\
    k <= remaining r /\
    Forall (fun l => l <> EmptyString) (firstn k (skipn (pos r) (lines r'))) /\
    (pos r' = pos r + k \/
     (pos r' = pos r + k + 1 /\
      nth_error (lines r) (pos r + k) = Some EmptyString /\
      nth_error (lines r') (pos r + k) = Some EmptyString)) /\
    length (lines r') = length (lines r) /\
    (forall n, n < pos r \/ pos r' < n ->
       nth_error (lines r') n = nth_error (lines r) n) /\
    (forall n, unescaped (nth_error (lines r) n) (nth_error (lines r') n)).
Proof.
  induction fuel as [|fuel IH]; intros r w e nx r' w' H; simpl in H;
    [discriminate|].
  assert (Hdone : forall r1,
            (pos r1 = pos r \/
             (pos r1 = pos r + 1 /\
              nth_error (lines r) (pos r) = Some EmptyString /\
              nth_error (lines r1) (pos r) = Some EmptyString)) ->
            length (lines r1) = length (lines r) ->
            (forall n, n < pos r \/ pos r1 < n ->
               nth_error (lines r1) n = nth_error (lines r) n) ->
            (forall n, unescaped (nth_error (lines r) n)
                                 (nth_error (lines r1) n)) ->
            exists k,
              w = w ++ flat_map (fun l => [l; nl])
                        (firstn k (skipn (pos r) (lines r1))) /\
              k <= remaining r /\
              Forall (fun l => l <> EmptyString)
                (firstn k (skipn (pos r) (lines r1))) /\
              (pos r1 = pos r + k \/
               (pos r1 = pos r + k + 1 /\
                nth_error (lines r) (pos r + k) = Some EmptyString /\
                nth_error (lines r1) (pos r + k) = Some EmptyString)) /\
              length (lines r1) = length (lines r) /\
              (forall n, n < pos r \/ pos r1 < n ->
                 nth_error (lines r1) n = nth_error (lines r) n) /\
              (forall n, unescaped (nth_error (lines r) n)
                                   (nth_error (lines r1) n))).
  { intros r1 P L N U. exists 0. simpl. rewrite app_nil_r, !Nat.add_0_r.
    repeat split; auto; lia. }
  destruct (eof r) eqn:Eof.
  { inversion H; subst. apply Hdone; auto. intros n. left. reflexivity. }
  pose proof (next_not_eof r Eof) as Hn.
  destruct (blank (cursor r)) eqn:B.
  - apply blank_nth_error in B.
    assert (Hnext : exists k,
              w = w ++ flat_map (fun l => [l; nl])
                        (firstn k (skipn (pos r) (lines (next r)))) /\
              k <= remaining r /\
              Forall (fun l => l <> EmptyString)
                (firstn k (skipn (pos r) (lines (next r)))) /\
              (pos (next r) = pos r + k \/
               (pos (next r) = pos r + k + 1 /\
                nth_error (lines r) (pos r + k) = Some EmptyString /\
                nth_error (lines (next r)) (pos r + k) = Some EmptyString)) /\
              length (lines (next r)) = length (lines r) /\
              (forall n, n < pos r \/ pos (next r) < n ->
                 nth_error (lines (next r)) n = nth_error (lines r) n) /\
              (forall n, unescaped (nth_error (lines r) n)
                                   (nth_error (lines (next r)) n))).
    { apply Hdone; rewrite Hn; simpl; auto.
      - right. split; [lia|auto].
      - intros n. left. reflexivity. }
    destruct (blank (cursor (next r))).
    { inversion H; subst. exact Hnext. }
    destruct (eof (next r)).
    { inversion H; subst. exact Hnext. }
    pose proof (matchItem_lines X (next r) ["indented"] e) as (P & L & N).
    pose proof (matchItem_unescapes (next r) ["indented"] e) as U.
    destruct (matchItem X (next r) ["indented"] e) as [nx2 r2].
    cbn [fst snd] in *. inversion H; subst; clear H.
    rewrite Hn in P, L, N, U. simpl in P, L, N, U.
    apply Hdone; try lia.
    + right. split; [lia|]. split; [exact B|]. rewrite N by lia. exact B.
    + intros n Hlt. apply N. lia.
    + exact U.
  - pose proof (fun a => matchItem_cursor_not_blank r a e B Eof) as Hnb.
    match type of H with
    | context [matchItem X r ?a e] =>
        pose proof (matchItem_lines X r a e) as (P & L & N);
        pose proof (matchItem_unescapes r a e) as U;
        pose proof (matchItem_remaining X r a e) as (Mr & Me);
        specialize (Hnb a);
        destruct (matchItem X r a e) as [nx1 r1]
    end.
    cbn [fst snd] in *. destruct nx1 as [x|].
    + inversion H; subst; clear H. apply Hdone; try lia.
      * intros n Hlt. apply N. lia.
      * exact U.
    + rewrite Eof in Me. pose proof (next_not_eof r1 Me) as Hn1.
      destruct (cursor r1) as [l|] eqn:C1.
      2:{ apply eof_cursor in C1. congruence. }
      assert (Hl0 : l <> EmptyString) by (intros ->; discriminate).
      apply IH in H. destruct H as (k & Hw & Hk & Hnbk & Hp & Hl & Hf & Hu).
      pose proof (remaining_next r1 Me) as Hrem.
      rewrite Hn1 in Hw, Hnbk, Hp, Hl, Hf, Hu.
      simpl in Hw, Hnbk, Hp, Hl, Hf, Hu.
      rewrite P in Hw, Hnbk, Hp, Hf.
      assert (Hcur : nth_error (lines r') (pos r) = Some l).
      { rewrite Hf by lia. unfold cursor in C1. rewrite P in C1. exact C1. }
      exists (S k). rewrite (skipn_cons_nth _ _ _ _ Hcur).
      cbn [firstn flat_map].
      split; [|split; [|split; [|split; [|split; [|split]]]]].
      * rewrite Hw. unfold Writer.write. rewrite <- !app_assoc. reflexivity.
      * lia.
      * constructor; assumption.
      * destruct Hp as [Hp|(Hp & B1 & B2)]; [left; lia|right].
        replace (pos r + S k) with (S (pos r) + k) by lia.
        split; [lia|]. split; [|exact B2].
        rewrite <- N by lia. exact B1.
      * lia.
      * intros n Hlt. rewrite Hf by lia. apply N. lia.
      * intros n. destruct (Nat.eq_dec n (pos r)) as [->|Hne].
        -- rewrite Hf by lia. apply U.
        -- rewrite <- N by exact Hne. apply Hu.
Qed.

(** X6.  The text [readToNext] collects.  With enough fuel the scan
    returns.  What it appends to the writer is, in order, each of the
    first [k] lines from the cursor on, followed by a newline each,
    for some [k] within what remains; none of them is blank.  The
    reader ends [k] lines after the cursor, or one line further when
    line [k] after the cursor is blank: a blank line is the only line
    the scan steps over without writing it.  No line is added or
    dropped; the lines before the cursor and after the final position
    are as they were, and every other line is as it was or has lost
    its leading backslash. *)
Theorem readToNext_text (fuel : nat) (r : t) (w : Writer.t string)
    (e : Env X) :
  remaining r < fuel ->
  exists next r' w' k,
    readToNext X fuel r w e = Some (next, r', w') /\
    w' = w ++ flat_map (fun l => [l; nl]) (firstn k (skipn (pos r) (lines r'))) /\
    k <= remaining r /\
    Forall (fun l => l <> EmptyString) (firstn k (skipn (pos r) (lines r'))) /\
    (pos r' = pos r + k \/
     (pos r' = pos r + k + 1 /\
      nth_error (lines r) (pos r + k) = Some EmptyString /\
      nth_error (lines r') (pos r + k) = Some EmptyString)) /\
    length (lines r') = length (lines r) /\
    (forall n, n < pos r \/ pos r' < n ->
       nth_error (lines r') n = nth_error (lines r) n) /\
    (forall n, unescaped (nth_error (lines r) n) (nth_error (lines r') n)).
Proof.
  intros Hf. destruct (readToNext_total X fuel r w e Hf) as [[[nx r'] w'] E].
  destruct (readToNext_scan _ _ _ _ _ _ _ E) as (k & H).
  exists nx, r', w', k. split; [exact E|exact H].
Qed.

End ItemText.

(** ** The shape of a list item line *)

Module LineShape.
Import RegexFacts MoreRegexFacts.

Lemma m_Cat (A : Type) (r1 r2 : regex) s cs (k : list ascii -> caps -> option A) :
  m (Cat r1 r2) s cs k = m r1 s cs (fun s' cs' => m r2 s' cs' k).
Proof. reflexivity. Qed.

Lemma firstn_consumed (A : Type) (p s' : list A) :
  firstn (length (p ++ s') - length s') (p ++ s') = p.
Proof.
  rewrite length_app. replace (length p + length s' - length s') with (length p) by lia.
  rewrite firstn_app, Nat.sub_diag, firstn_all. simpl. apply app_nil_r.
Qed.

(** A match consumes a prefix of the input. *)
Lemma Matches_split r s cs s' cs' :
  Matches r s cs s' cs' -> exists p, s = p ++ s'.
Proof.
  induction 1.
  - exists []. reflexivity.
  - exists (firstn n s). symmetry. apply firstn_skipn.
  - destruct IHMatches1 as (p1 & ->). destruct IHMatches2 as (p2 & ->).
    exists (p1 ++ p2). rewrite app_assoc. reflexivity.
  - assumption.
  - assumption.
  - assumption.
Qed.

Lemma Matches_class (c : cclass) (lo : nat) (hi : option nat) s cs s' cs' :
  Matches (Rep c lo hi) s cs s' cs' ->
  exists p, s = p ++ s' /\ cs' = cs /\ in_class c p /\ lo <= length p /\
            (forall h, hi = Some h -> length p <= h).
Proof.
  intros H. apply Matches_Rep in H.
  destruct H as (n & -> & -> & Hlo & Hlen & Hall & Hhi & _).
  exists (firstn n s). rewrite firstn_skipn, length_firstn, Nat.min_l by lia.
  repeat split; auto.
Qed.

Lemma Matches_group r s cs s' cs' :
  Matches (Grp r) s cs s' cs' ->
  exists p cs0, s = p ++ s' /\ cs' = cs0 ++ [p] /\ Matches r s cs s' cs0.
Proof.
  intros H. inversion H; subst.
  match goal with M : Matches r s cs s' _ |- _ =>
    destruct (Matches_split _ _ _ _ _ M) as (p & E) end.
  exists p. eexists. split; [exact E|]. split; [|eassumption].
  subst s. rewrite firstn_consumed. reflexivity.
Qed.

Lemma run_all (c : cclass) (l : list ascii) :
  in_class c l -> run c None l = length l.
Proof.
  induction 1 as [|a l Ha _ IH]; simpl; [reflexivity|].
  rewrite Ha, IH. reflexivity.
Qed.

Lemma run_prefix_ge (c : cclass) (p : list ascii) :
  in_class c p -> forall s, length p <= run c None (p ++ s).
Proof.
  induction 1 as [|a l Ha _ IH]; intros s; simpl; [lia|].
  rewrite Ha. specialize (IH s). lia.
Qed.

(** The end of the unordered and ordered patterns: white space, then
    the text up to the end of the line.  The white space is as long as
    it can be, so the text does not start with white space. *)
Lemma space_then_text (s : list ascii) (c cs : caps) :
  m (Cat (Rep space 1 None) (Grp (Rep dot 0 None))) s c at_end = Some cs ->
  exists w t,
    s = w ++ t /\ cs = c ++ [t] /\
    w <> [] /\ in_class space w /\ in_class dot t /\ no_leading_space t.
Proof.
  rewrite m_Cat. cbn [m]. intros H.
  apply try_down_max in H. destruct H as (j & Hlo & Hj & H & Hmax).
  destruct (run_prefix space s None j Hj) as (Hlen & Hw & _).
  apply try_down_some in H. destruct H as (n & _ & Hn & H).
  destruct (run_prefix dot (skipn j s) None n Hn) as (Hlen' & Ht & _).
  unfold at_end in H.
  destruct (skipn n (skipn j s)) eqn:E; [|discriminate].
  inversion H; subst cs; clear H.
  assert (Hfull : firstn n (skipn j s) = skipn j s).
  { rewrite <- (firstn_skipn n (skipn j s)) at 2. rewrite E, app_nil_r.
    reflexivity. }
  rewrite Hfull in Ht.
  exists (firstn j s), (skipn j s). rewrite firstn_skipn.
  split; [reflexivity|]. split.
  { simpl. rewrite Nat.sub_0_r, firstn_all. reflexivity. }
  split. { intros N. apply (f_equal (@length ascii)) in N.
           rewrite length_firstn in N. simpl in N. lia. }
  split; [exact Hw|]. split; [exact Ht|].
  (* maximality *)
  destruct (skipn j s) as [|a t] eqn:Et; [exact I|]. simpl.
  destruct (space a) eqn:Sa; [exfalso|reflexivity].
  assert (Hs : s = (firstn j s ++ [a]) ++ t).
  { rewrite <- app_assoc. simpl. rewrite <- Et. symmetry. apply firstn_skipn. }
  assert (Hrun : S j <= run space None s).
  { rewrite Hs at 1.
    pose proof (run_prefix_ge space (firstn j s ++ [a])) as G.
    rewrite length_app, length_firstn in G. simpl in G.
    rewrite Nat.min_l in G by lia.
    replace (S j) with (j + 1) by lia. apply G.
    apply Forall_app. split; [exact Hw|]. constructor; [exact Sa|constructor]. }
  specialize (Hmax (S j) ltac:(lia) Hrun).
  assert (Hsk : skipn (S j) s = t).
  { change (S j) with (1 + j). rewrite <- skipn_skipn, Et. reflexivity. }
  rewrite Hsk in Hmax.
  pose proof (Forall_inv_tail Ht) as Ht'.
  revert Hmax. apply try_down_complete with (j := length t); [lia| |].
  - rewrite run_all by exact Ht'. lia.
  - rewrite skipn_all. simpl. discriminate.
Qed.

Lemma optional_char (x : ascii) (p : list ascii) :
  in_class (chr x) p -> length p <= 1 -> p = [] \/ p = [x].
Proof.
  intros H L. apply all_chr in H. rewrite H.
  destruct (length p) as [|[|n]]; simpl; auto. lia.
Qed.

Lemma marker_run (x : ascii) (lo : nat) (p : list ascii) :
  in_class (chr x) p -> lo <= length p -> length p <= 4 ->
  In p (skipn lo [[]; [x]; [x; x]; [x; x; x]; [x; x; x; x]]).
Proof.
  intros H Hlo Hhi. apply all_chr in H. rewrite H. clear H.
  destruct (length p) as [|[|[|[|[|n]]]]]; try lia;
    repeat (destruct lo as [|lo]; [simpl; tauto|]); lia.
Qed.

Lemma string_of_list_ascii_inj_in (p : list ascii) (l : list (list ascii)) :
  In p l -> In (string_of_list_ascii p) (map string_of_list_ascii l).
Proof.
  apply in_map.
Qed.

Ltac step H s1 c1 M :=
  rewrite m_Cat in H; apply m_sound in H;
  destruct H as (s1 & c1 & M & H); cbv beta in H.




(** *** Every line of the shape matches *)

(** A match whose continuation accepts it gives the matcher a result:
    that one or an earlier choice. *)
Lemma m_complete (A : Type) r s cs s' cs' :
  Matches r s cs s' cs' ->
  forall k : list ascii -> caps -> option A,
  k s' cs' <> None -> m r s cs k <> None.
Proof.
  induction 1; intros k Hk; cbn [m].
  - exact Hk.
  - apply (try_down_complete _ lo _ _ n); assumption.
  - apply IHMatches1. apply IHMatches2. exact Hk.
  - specialize (IHMatches k Hk). destruct (m r1 s cs k); [discriminate|contradiction].
  - destruct (m r1 s cs k); [discriminate|]. apply IHMatches. exact Hk.
  - apply IHMatches. exact Hk.
Qed.

Lemma run_prefix_bound (c : cclass) (p : list ascii) :
  in_class c p ->
  forall hi s, (forall h, hi = Some h -> length p <= h) ->
  length p <= run c hi (p ++ s).
Proof.
  induction 1 as [|a l Ha _ IH]; intros hi s Hh; simpl; [lia|].
  destruct hi as [[|h]|].
  - specialize (Hh 0 eq_refl). simpl in Hh. lia.
  - rewrite Ha. specialize (IH (option_map pred (Some (S h))) s).
    simpl in IH. apply le_n_S. apply IH. intros h' E. inversion E; subst.
    specialize (Hh (S h') eq_refl). simpl in Hh. lia.
  - rewrite Ha. apply le_n_S. apply (IH None). intros h' E. discriminate.
Qed.

Lemma Matches_class_intro (c : cclass) (lo : nat) (hi : option nat)
    (p s : list ascii) (cs : caps) :
  in_class c p -> lo <= length p ->
  (forall h, hi = Some h -> length p <= h) ->
  Matches (Rep c lo hi) (p ++ s) cs s cs.
Proof.
  intros Hp Hlo Hhi.
  replace s with (skipn (length p) (p ++ s)) at 2.
  - constructor; [exact Hlo|]. apply run_prefix_bound; assumption.
  - rewrite skipn_app, Nat.sub_diag, skipn_all. reflexivity.
Qed.

Lemma Matches_group_intro r (p s : list ascii) (cs cs0 : caps) :
  Matches r (p ++ s) cs s cs0 -> Matches (Grp r) (p ++ s) cs s (cs0 ++ [p]).
Proof.
  intros H. apply M_Grp in H. rewrite firstn_consumed in H. exact H.
Qed.

Lemma in_class_optional (x : ascii) (e : list ascii) :
  e = [] \/ e = [x] -> in_class (chr x) e /\ length e <= 1.
Proof.
  intros [-> | ->]; split; simpl; try lia; repeat constructor.
  unfold chr. apply Ascii.eqb_refl.
Qed.

Lemma in_class_marker (x : ascii) (b : list ascii) :
  In b [[x]; [x; x]; [x; x; x]; [x; x; x; x]] ->
  in_class (chr x) b /\ 1 <= length b /\ length b <= 4.
Proof.
  assert (Hx : chr x x = true) by (unfold chr; apply Ascii.eqb_refl).
  intros [<-|[<-|[<-|[<-|[]]]]]; simpl; repeat split; try lia;
    repeat constructor; exact Hx.
Qed.

Lemma groups_complete r s cs :
  Matches r s [] [] cs -> groups r s <> None.
Proof.
  intros M. unfold groups. apply (m_complete _ _ _ _ _ _ M). discriminate.
Qed.

Lemma Matches_then_class (c : cclass) (lo : nat) (hi : option nat) r
    (p s : list ascii) (cs : caps) s' cs' :
  in_class c p -> lo <= length p ->
  (forall h, hi = Some h -> length p <= h) ->
  Matches r s cs s' cs' ->
  Matches (Cat (Rep c lo hi) r) (p ++ s) cs s' cs'.
Proof.
  intros Hp Hlo Hhi M. eapply M_Cat; [|exact M].
  apply Matches_class_intro; assumption.
Qed.

Lemma Matches_then_group r1 r2 (p s : list ascii) (cs : caps) s' cs' :
  Matches r1 (p ++ s) cs s cs ->
  Matches r2 s (cs ++ [p]) s' cs' ->
  Matches (Cat (Grp r1) r2) (p ++ s) cs s' cs'.
Proof.
  intros M1 M2. eapply M_Cat; [|exact M2].
  apply Matches_group_intro. exact M1.
Qed.

Lemma Matches_last_group r (p : list ascii) (cs : caps) :
  Matches r (p ++ []) cs [] cs -> Matches (Grp r) p cs [] (cs ++ [p]).
Proof.
  intros M. apply Matches_group_intro in M. rewrite app_nil_r in M. exact M.
Qed.

Lemma class_nonempty (p : list ascii) : p <> [] -> 1 <= length p.
Proof.
  destruct p; [contradiction|simpl; lia].
Qed.

Lemma bound_none (n : nat) : forall h : nat, @None nat = Some h -> n <= h.
Proof. discriminate. Qed.

Lemma bound_some (n k : nat) : n <= k -> forall h, Some k = Some h -> n <= h.
Proof. intros H h E. inversion E; subst. exact H. Qed.

Lemma space_then_text_matches (w t : list ascii) (cs : caps) :
  w <> [] -> in_class space w -> in_class dot t ->
  Matches (Cat (Rep space 1 None) (Grp (Rep dot 0 None))) (w ++ t) cs []
    (cs ++ [t]).
Proof.
  intros Hne Hw Ht.
  apply Matches_then_class;
    [exact Hw|apply class_nonempty; exact Hne|apply bound_none|].
  apply Matches_last_group.
  apply Matches_class_intro; [exact Ht|lia|apply bound_none].
Qed.

Lemma ul_line_matches (e w1 b w2 t : list ascii) :
  (e = [] \/ e = [backslash]) -> in_class space w1 ->
  In b [["-"]; ["+"]; ["*"]; ["*"; "*"]; ["*"; "*"; "*"];
        ["*"; "*"; "*"; "*"]]%char ->
  w2 <> [] -> in_class space w2 -> in_class dot t ->
  groups (escaped ul_body) (e ++ w1 ++ b ++ w2 ++ t) <> None.
Proof.
  intros He Hw1 Hb Hne Hw2 Ht.
  destruct (in_class_optional _ _ He) as (Ce & Le).
  apply groups_complete with (cs := [] ++ [b] ++ [t]).
  unfold escaped, ul_body, Opt, Star, Plus, Lit.
  apply Matches_then_class; [exact Ce|lia|apply bound_some; exact Le|].
  apply Matches_then_class; [exact Hw1|lia|apply bound_none|].
  apply Matches_then_group; [|apply space_then_text_matches; assumption].
  destruct Hb as [<-|[<-|Hb]].
  - apply M_AltL. apply (Matches_class_intro _ _ _ ["-"%char]);
      [repeat constructor|simpl; lia|apply bound_some; simpl; lia].
  - apply M_AltR, M_AltL. apply (Matches_class_intro _ _ _ ["+"%char]);
      [repeat constructor|simpl; lia|apply bound_some; simpl; lia].
  - apply M_AltR, M_AltR.
    destruct (in_class_marker "*" b Hb) as (Cb & L1 & L2).
    apply Matches_class_intro; [exact Cb|exact L1|apply bound_some; exact L2].
Qed.

Lemma ol_line_matches (e w1 n d w2 t : list ascii) :
  (e = [] \/ e = [backslash]) -> in_class space w1 -> in_class digit n ->
  In d [["."]; ["."; "."]; ["."; "."; "."]; ["."; "."; "."; "."]]%char ->
  w2 <> [] -> in_class space w2 -> in_class dot t ->
  groups (escaped ol_body) (e ++ w1 ++ n ++ d ++ w2 ++ t) <> None.
Proof.
  intros He Hw1 Hn Hd Hne Hw2 Ht.
  destruct (in_class_optional _ _ He) as (Ce & Le).
  destruct (in_class_marker "." d Hd) as (Cd & L1 & L2).
  apply groups_complete with (cs := [] ++ [d] ++ [t]).
  unfold escaped, ol_body, Opt, Star, Plus, Lit.
  apply Matches_then_class; [exact Ce|lia|apply bound_some; exact Le|].
  apply Matches_then_class; [exact Hw1|lia|apply bound_none|].
  apply Matches_then_class; [exact Hn|lia|apply bound_none|].
  apply Matches_then_group; [|apply space_then_text_matches; assumption].
  apply Matches_class_intro; [exact Cd|exact L1|apply bound_some; exact L2].
Qed.

Lemma dl_line_matches (e w1 x : list ascii) (c : ascii) (b d : list ascii) :
  (e = [] \/ e = [backslash]) -> in_class space w1 ->
  in_class dot x -> c <> ":"%char ->
  In b [[":"; ":"]; [":"; ":"; ":"]; [":"; ":"; ":"; ":"]]%char ->
  (d = [] \/
   exists w t, d = w ++ t /\ w <> [] /\ in_class space w /\ in_class dot t) ->
  groups (escaped dl_body) (e ++ w1 ++ (x ++ [c]) ++ b ++ d) <> None.
Proof.
  intros He Hw1 Hx Hc Hb Hd.
  destruct (in_class_optional _ _ He) as (Ce & Le).
  assert (Cb : in_class (chr ":") b /\ 2 <= length b /\ length b <= 4).
  { destruct Hb as [<-|[<-|[<-|[]]]]; simpl; repeat split; try lia;
      repeat constructor. }
  destruct Cb as (Cb & L1 & L2).
  apply groups_complete with (cs := (([] ++ [x ++ [c]]) ++ [b]) ++ [d]).
  unfold escaped, dl_body, Opt, Star, Plus, Lit.
  apply Matches_then_class; [exact Ce|lia|apply bound_some; exact Le|].
  apply Matches_then_class; [exact Hw1|lia|apply bound_none|].
  apply Matches_then_group.
  { rewrite <- (app_assoc x [c]).
    apply Matches_then_class; [exact Hx|lia|apply bound_none|].
    apply (Matches_class_intro _ _ _ [c]);
      [|simpl; lia|apply bound_some; simpl; lia].
    constructor; [|constructor]. unfold notchr.
    destruct (Ascii.eqb c ":"%char) eqn:Q; [|reflexivity].
    apply Ascii.eqb_eq in Q. contradiction. }
  apply Matches_then_group.
  { apply Matches_class_intro; [exact Cb|exact L1|apply bound_some; exact L2]. }
  apply Matches_last_group.
  destruct Hd as [->|(w & t & -> & Hne & Hw & Ht)].
  - apply M_AltL. constructor.
  - apply M_AltR. rewrite <- (app_assoc w t []).
    apply Matches_then_class;
      [exact Hw|apply class_nonempty; exact Hne|apply bound_none|].
    apply Matches_class_intro; [exact Ht|lia|apply bound_none].
Qed.

Lemma in_ids (b : list ascii) (l : list string) :
  In (string_of_list_ascii b) l -> In b (map list_ascii_of_string l).
Proof.
  intros H. apply (in_map list_ascii_of_string) in H.
  rewrite list_ascii_of_string_of_list_ascii in H. exact H.
Qed.

Lemma exec_groups (r : regex) (line : string) :
  groups r (list_ascii_of_string line) <> None -> exec r line <> None.
Proof.
  unfold exec. destruct (groups r _); [discriminate|auto].
Qed.

End LineShape.

Section LinePatterns.

Import RegexFacts MoreRegexFacts LineShape.

(** X7.  A line the unordered pattern matches.  It is an optional
    backslash, white space, one of the bullets [-], [+] or one to four
    stars, white space that is not empty, and text; the array of the
    match holds the line, the bullet and the text, and the text does
    not start with white space. *)
Theorem ul_line_shape (line : string) (mt : list string) :
  exec (match_ ul_def) line = Some mt ->
  exists e w1 b w2 t,
    list_ascii_of_string line = e ++ w1 ++ b ++ w2 ++ t /\
    mt = [line; string_of_list_ascii b; string_of_list_ascii t] /\
    (e = [] \/ e = [backslash]) /\ in_class space w1 /\
    In (string_of_list_ascii b) ul_ids /\
    w2 <> [] /\ in_class space w2 /\ in_class dot t /\ no_leading_space t.
Proof.
  unfold exec. destruct (groups _ _) as [cs|] eqn:G; [|discriminate].
  intros H. inversion H; subst mt; clear H.
  generalize dependent (list_ascii_of_string line). intros s G.
  unfold groups in G. cbn [match_ ul_def] in G.
  unfold escaped, ul_body, Opt, Star, Plus, Lit in G.
  step G s1 c1 M1. step G s2 c2 M2. step G s3 c3 M3.
  apply Matches_class in M1. destruct M1 as (e & -> & -> & He & _ & Le).
  apply Matches_class in M2. destruct M2 as (w1 & -> & -> & Hw1 & _).
  apply Matches_group in M3. destruct M3 as (b & c0 & -> & -> & M3).
  apply space_then_text in G.
  destruct G as (w2 & t & -> & -> & Hne & Hw2 & Ht & Hns).
  assert (Hb : c0 = [] /\
               In b [["-"]; ["+"]; ["*"]; ["*"; "*"]; ["*"; "*"; "*"];
                     ["*"; "*"; "*"; "*"]]%char).
  { inversion M3 as [| | |? ? ? ? ? ? A|? ? ? ? ? ? A|]; subst; clear M3.
    - apply Matches_class in A. destruct A as (p & E & -> & Hp & L1 & L2).
      apply app_inv_tail in E. subst p. split; [reflexivity|].
      pose proof (marker_run "-" 1 b Hp L1
                    ltac:(specialize (L2 1 eq_refl); lia)) as I.
      specialize (L2 1 eq_refl).
      destruct b as [|x [|y b]]; simpl in *; try lia.
      destruct I as [I|[I|[I|[I|[]]]]]; inversion I. auto.
    - inversion A as [| | |? ? ? ? ? ? B|? ? ? ? ? ? B|]; subst; clear A.
      + apply Matches_class in B. destruct B as (p & E & -> & Hp & L1 & L2).
        apply app_inv_tail in E. subst p. split; [reflexivity|].
        pose proof (marker_run "+" 1 b Hp L1
                      ltac:(specialize (L2 1 eq_refl); lia)) as I.
        specialize (L2 1 eq_refl).
        destruct b as [|x [|y b]]; simpl in *; try lia.
        destruct I as [I|[I|[I|[I|[]]]]]; inversion I. auto.
      + apply Matches_class in B. destruct B as (p & E & -> & Hp & L1 & L2).
        apply app_inv_tail in E. subst p. split; [reflexivity|].
        pose proof (marker_run "*" 1 b Hp L1 (L2 4 eq_refl)) as I.
        simpl in I. simpl. tauto. }
  destruct Hb as (-> & Hb).
  exists e, w1, b, w2, t. rewrite <- !app_assoc.
  split; [reflexivity|]. split; [reflexivity|].
  split; [apply optional_char; auto|]. split; [exact Hw1|].
  split; [|auto].
  apply (string_of_list_ascii_inj_in b) in Hb. exact Hb.
Qed.

(** X8.  A line the ordered pattern matches.  It is an optional
    backslash, white space, digits, one to four dots, white space
    that is not empty, and text; the array of the match holds the
    line, the dots and the text, without the digits, and the text
    does not start with white space. *)
Theorem ol_line_shape (line : string) (mt : list string) :
  exec (match_ ol_def) line = Some mt ->
  exists e w1 n d w2 t,
    list_ascii_of_string line = e ++ w1 ++ n ++ d ++ w2 ++ t /\
    mt = [line; string_of_list_ascii d; string_of_list_ascii t] /\
    (e = [] \/ e = [backslash]) /\ in_class space w1 /\ in_class digit n /\
    In (string_of_list_ascii d) ol_ids /\
    w2 <> [] /\ in_class space w2 /\ in_class dot t /\ no_leading_space t.
Proof.
  unfold exec. destruct (groups _ _) as [cs|] eqn:G; [|discriminate].
  intros H. inversion H; subst mt; clear H.
  generalize dependent (list_ascii_of_string line). intros s G.
  unfold groups in G. cbn [match_ ol_def] in G.
  unfold escaped, ol_body, Opt, Star, Plus, Lit in G.
  step G s1 c1 M1. step G s2 c2 M2. step G s3 c3 M3. step G s4 c4 M4.
  apply Matches_class in M1. destruct M1 as (e & -> & -> & He & _ & Le).
  apply Matches_class in M2. destruct M2 as (w1 & -> & -> & Hw1 & _).
  apply Matches_class in M3. destruct M3 as (n & -> & -> & Hn & _).
  apply Matches_group in M4. destruct M4 as (d & c0 & -> & -> & M4).
  apply space_then_text in G.
  destruct G as (w2 & t & -> & -> & Hne & Hw2 & Ht & Hns).
  apply Matches_class in M4. destruct M4 as (p & E & -> & Hp & L1 & L2).
  apply app_inv_tail in E. subst p.
  pose proof (marker_run "." 1 d Hp L1 (L2 4 eq_refl)) as Hd.
  exists e, w1, n, d, w2, t.
  split; [reflexivity|]. split; [reflexivity|].
  split; [apply optional_char; auto|]. split; [exact Hw1|].
  split; [exact Hn|]. split; [|auto].
  apply (string_of_list_ascii_inj_in d) in Hd. exact Hd.
Qed.

(** X9.  A line the definition pattern matches.  It is an optional
    backslash, white space, a term that ends in a character other
    than a colon, two to four colons, and then nothing or white space
    and text; the array of the match holds the line, the term, the
    colons, and what follows the colons with its white space. *)
Theorem dl_line_shape (line : string) (mt : list string) :
  exec (match_ dl_def) line = Some mt ->
  exists e w1 x c b d,
    list_ascii_of_string line = e ++ w1 ++ (x ++ [c]) ++ b ++ d /\
    mt = [line; string_of_list_ascii (x ++ [c]); string_of_list_ascii b;
          string_of_list_ascii d] /\
    (e = [] \/ e = [backslash]) /\ in_class space w1 /\
    in_class dot x /\ c <> ":"%char /\
    In (string_of_list_ascii b) dl_ids /\
    (d = [] \/
     exists w t, d = w ++ t /\ w <> [] /\ in_class space w /\ in_class dot t).
Proof.
  unfold exec. destruct (groups _ _) as [cs|] eqn:G; [|discriminate].
  intros H. inversion H; subst mt; clear H.
  generalize dependent (list_ascii_of_string line). intros s G.
  unfold groups in G. cbn [match_ dl_def] in G.
  unfold escaped, dl_body, Opt, Star, Plus, Lit in G.
  step G s1 c1 M1. step G s2 c2 M2. step G s3 c3 M3. step G s4 c4 M4.
  apply m_sound in G. destruct G as (s5 & c5 & M5 & G).
  destruct s5; [|discriminate]. inversion G; subst c5; clear G.
  apply Matches_class in M1. destruct M1 as (e & -> & -> & He & _ & Le).
  apply Matches_class in M2. destruct M2 as (w1 & -> & -> & Hw1 & _).
  apply Matches_group in M3. destruct M3 as (term & c0 & -> & -> & M3).
  apply Matches_group in M4. destruct M4 as (b & c0' & -> & -> & M4).
  apply Matches_group in M5. destruct M5 as (d & c0'' & E5 & -> & M5).
  rewrite app_nil_r in E5. subst s4.
  (* the term *)
  inversion M3 as [| |? ? ? ? ? ? ? ? A B| | |]; subst; clear M3.
  apply Matches_class in A. destruct A as (x & EA & -> & Hx & _).
  apply Matches_class in B. destruct B as (y & EB & -> & Hy & Ly1 & Ly2).
  specialize (Ly2 1 eq_refl).
  destruct y as [|c [|c' y]]; simpl in Ly1, Ly2; try lia.
  assert (term = x ++ [c]).
  { rewrite EB in EA. rewrite (app_assoc x [c]) in EA.
    apply app_inv_tail in EA. exact EA. }
  subst term.
  apply Forall_inv in Hy. unfold notchr in Hy.
  assert (Hc : c <> ":"%char).
  { intros ->. discriminate. }
  (* the colons *)
  apply Matches_class in M4. destruct M4 as (p & E4 & -> & Hp & L1 & L2).
  apply app_inv_tail in E4. subst p.
  pose proof (marker_run ":" 2 b Hp L1 (L2 4 eq_refl)) as Hb.
  (* the definition *)
  assert (Hd : c0'' = [x ++ [c]; b] /\
               (d = [] \/ exists w t, d = w ++ t /\ w <> [] /\
                  in_class space w /\ in_class dot t)).
  { inversion M5 as [| | |? ? ? ? ? ? A|? ? ? ? ? ? A|]; subst; clear M5.
    - inversion A; subst. split; [reflexivity|]. left. reflexivity.
    - inversion A as [| |? ? ? ? ? ? ? ? A1 A2| | |]; subst; clear A.
      apply Matches_class in A1. destruct A1 as (w & E1 & -> & Hw & Lw & _).
      apply Matches_class in A2. destruct A2 as (t & E2 & -> & Ht & _).
      rewrite app_nil_r in E2. subst.
      split; [reflexivity|].
      right. exists w, t.
      repeat split; auto. intros ->. simpl in Lw. lia. }
  destruct Hd as (-> & Hd).
  exists e, w1, x, c, b, d.
  split; [reflexivity|].
  split; [reflexivity|].
  split; [apply optional_char; auto|]. split; [exact Hw1|].
  split; [exact Hx|]. split; [exact Hc|]. split; [|exact Hd].
  apply (string_of_list_ascii_inj_in b) in Hb. exact Hb.
Qed.

(** X10.  The unordered pattern matches every line of its shape: an
    optional backslash, white space, a bullet, white space that is
    not empty, and text without line breaks. *)
Theorem ul_line_recognised (line : string) (e w1 b w2 t : list ascii) :
  list_ascii_of_string line = e ++ w1 ++ b ++ w2 ++ t ->
  (e = [] \/ e = [backslash]) -> in_class space w1 ->
  In (string_of_list_ascii b) ul_ids ->
  w2 <> [] -> in_class space w2 -> in_class dot t ->
  exec (match_ ul_def) line <> None.
Proof.
  intros E He Hw1 Hb Hne Hw2 Ht. apply exec_groups. rewrite E.
  apply ul_line_matches; auto. apply in_ids in Hb. exact Hb.
Qed.

(** X11.  The ordered pattern matches every line of its shape: an
    optional backslash, white space, digits, one to four dots, white
    space that is not empty, and text without line breaks. *)
Theorem ol_line_recognised (line : string) (e w1 n d w2 t : list ascii) :
  list_ascii_of_string line = e ++ w1 ++ n ++ d ++ w2 ++ t ->
  (e = [] \/ e = [backslash]) -> in_class space w1 -> in_class digit n ->
  In (string_of_list_ascii d) ol_ids ->
  w2 <> [] -> in_class space w2 -> in_class dot t ->
  exec (match_ ol_def) line <> None.
Proof.
  intros E He Hw1 Hn Hd Hne Hw2 Ht. apply exec_groups. rewrite E.
  apply ol_line_matches; auto. apply in_ids in Hd. exact Hd.
Qed.

(** X12.  The definition pattern matches every line of its shape:
    an optional backslash, white space, a term without line breaks
    that ends in a character other than a colon, two to four colons,
    and nothing or white space and text. *)
Theorem dl_line_recognised (line : string) (e w1 x : list ascii) (c : ascii)
    (b d : list ascii) :
  list_ascii_of_string line = e ++ w1 ++ (x ++ [c]) ++ b ++ d ->
  (e = [] \/ e = [backslash]) -> in_class space w1 ->
  in_class dot x -> c <> ":"%char ->
  In (string_of_list_ascii b) dl_ids ->
  (d = [] \/
   exists w t, d = w ++ t /\ w <> [] /\ in_class space w /\ in_class dot t) ->
  exec (match_ dl_def) line <> None.
Proof.
  intros E He Hw1 Hx Hc Hb Hd. apply exec_groups. rewrite E.
  apply dl_line_matches; auto. apply in_ids in Hb. exact Hb.
Qed.

End LinePatterns.

(** ** Items and their definitions *)

Section WellFormed.

Variable X : Externals.

Lemma matchItem_well_formed (r : Reader.t) (a : list string) (e : Env X) :
  well_formed_next (fst (matchItem X r a e)).
Proof.
  destruct (matchItem X r a e) as [[[i|]|] r'] eqn:E; simpl; auto.
  apply matchItem_item in E.
  destruct E as (_ & line & _ & Hd & Hx & Hid & _).
  destruct (exec_shape _ _ _ Hd Hx)
    as [(D & b & t & Hm & Hi)|[(D & b & t & Hm & Hi)|(D & t & b & c & Hm & Hi)]];
    rewrite Hm in Hid; cbn [length Nat.sub nth] in Hid; rewrite <- Hid in Hi;
    unfold well_formed; auto.
Qed.

(** The markers of the three definitions are apart, so items of one
    list are items of one definition. *)
Lemma same_id_same_def (i j : Item) :
  well_formed i -> well_formed j -> iid i = iid j -> idef i = idef j.
Proof.
  unfold well_formed, ul_ids, ol_ids, dl_ids. intros Hi Hj E. rewrite E in Hi.
  destruct Hi as [(-> & Hi)|[(-> & Hi)|(-> & Hi)]];
    destruct Hj as [(-> & Hj)|[(-> & Hj)|(-> & Hj)]];
    try reflexivity; exfalso; simpl in Hi, Hj;
    repeat (destruct Hj as [Hj|Hj]; [rewrite <- Hj in Hi; clear Hj|]);
    try contradiction;
    repeat (destruct Hi as [Hi|Hi]; [discriminate|]); contradiction.
Qed.

Lemma readToNext_well_formed :
  forall fuel r w e res,
  readToNext X fuel r w e = Some res -> well_formed_next (fst (fst res)).
Proof.
  induction fuel as [|fuel IH]; intros r w e res H; simpl in H; [discriminate|].
  destruct (Reader.eof r); [inversion H; exact I|].
  destruct (blank (Reader.cursor r)).
  - destruct (blank (Reader.cursor (Reader.next r))); [inversion H; exact I|].
    destruct (Reader.eof (Reader.next r)); [inversion H; exact I|].
    pose proof (matchItem_well_formed (Reader.next r) ["indented"] e) as W.
    destruct (matchItem X (Reader.next r) ["indented"] e).
    inversion H; subst. exact W.
  - match type of H with
    | context [matchItem X r ?a e] =>
        pose proof (matchItem_well_formed r a e) as W;
        destruct (matchItem X r a e) as [nx r1]
    end.
    destruct nx as [x|].
    + inversion H; subst. exact W.
    + apply IH in H. exact H.
Qed.

(** Every element handed back is an item as [matchItem] makes them. *)
Lemma engine_well_formed (fuel : nat) :
  (forall startItem (s : St X) res,
     renderList fuel startItem s = Some res -> well_formed_next (fst res)) /\
  (forall startItem (s : St X) res,
     renderList_loop fuel startItem s = Some res ->
     well_formed_next (fst res)) /\
  (forall startItem (s : St X) res,
     renderListItem fuel startItem s = Some res ->
     well_formed_next (fst res)) /\
  (forall def nextItem (s : St X) res,
     well_formed_next nextItem ->
     renderListItem_loop fuel def nextItem s = Some res ->
     well_formed_next (fst res)).
Proof.
  induction fuel as [|fuel (IHlist & IHloop & IHitem & IHiloop)].
  { repeat split; intros; discriminate. }
  split; [|split; [|split]].
  - intros startItem s res H. rewrite renderList_S in H. cbv zeta in H.
    destruct (injectHtmlAttributes X _ _) as [tag e].
    apply IHloop in H. exact H.
  - intros startItem s res H. rewrite renderList_loop_S in H.
    destruct (renderListItem fuel startItem s) as [[nextItem s1]|] eqn:E;
      [|discriminate].
    apply IHitem in E. cbn [fst] in E. cbv zeta in H.
    destruct nextItem as [[i|]|];
      [destruct (String.eqb (iid i) (iid startItem))|..];
      try (inversion H; subst; exact E).
    apply IHloop in H. exact H.
  - intros startItem s res H. rewrite renderListItem_S in H. cbv zeta in H.
    destruct (readToNext X fuel _ _ _) as [[[nextItem r] lines']|] eqn:N;
      [|discriminate].
    apply readToNext_well_formed in N. cbn [fst] in N.
    destruct (replaceInline X _ _) as [text e].
    apply IHiloop in H; assumption.
  - intros def nextItem s res W H. rewrite renderListItem_loop_S in H.
    assert (Hblock :
      forall res',
        (let s1 := renderAttached s in
         if Reader.eof (reader s1) then
           Some (None, write (ItemClose (itemCloseTag def)) s1)
         else
           let (nextItem', r) := matchItem X (reader s1) [] (env s1) in
           renderListItem_loop fuel def nextItem' (set_reader r s1)) = Some res' ->
        well_formed_next (fst res')).
    { intros res' R. cbv zeta in R.
      destruct (Reader.eof (reader (renderAttached s))).
      - inversion R; subst. exact I.
      - pose proof (matchItem_well_formed (reader (renderAttached s)) []
                      (env (renderAttached s))) as W'.
        destruct (matchItem X _ _ _) as [nextItem' r].
        apply IHiloop in R; assumption. }
    destruct nextItem as [[i|]|].
    + destruct (has_id (ListItem i)); [|apply Hblock; assumption].
      destruct (on_stack (iid i) (ids s)).
      * inversion H; subst. exact W.
      * destruct (renderList fuel i s) as [[nextItem' s1]|] eqn:E;
          [|discriminate].
        inversion H; subst. apply IHlist in E. exact E.
    + apply Hblock. assumption.
    + inversion H; subst. exact I.
Qed.

(** The loop of [renderList] ends by writing the closing tag of the
    definition of the item it started with. *)
Lemma renderList_loop_closes :
  forall fuel startItem (s : St X) res,
  well_formed startItem ->
  renderList_loop fuel startItem s = Some res ->
  exists mid,
    writer (snd res)
    = writer s ++ mid ++ [ListClose (listCloseTag (idef startItem))].
Proof.
  induction fuel as [|fuel IH]; intros startItem s res W H; [discriminate|].
  rewrite renderList_loop_S in H.
  destruct (renderListItem fuel startItem s) as [[nextItem s1]|] eqn:E;
    [|discriminate].
  destruct (engine_inv X fuel) as (_ & _ & Hitem & _).
  destruct (Hitem _ _ _ E) as (_ & (d & Hd & _) & _). cbn [snd] in Hd.
  destruct (engine_well_formed fuel) as (_ & _ & Witem & _).
  pose proof (Witem _ _ _ E) as Wn. cbn [fst] in Wn.
  cbv zeta in H.
  assert (Hclose : forall l res',
            Some (nextItem,
                  set_ids l
                    (write (ListClose (listCloseTag (idef startItem))) s1))
            = Some res' ->
            exists mid,
              writer (snd res')
              = writer s ++ mid ++ [ListClose (listCloseTag (idef startItem))]).
  { intros l res' R. inversion R; subst. exists d. cbn [snd].
    rewrite writer_set_ids, writer_write, Hd. unfold Writer.write.
    rewrite app_assoc. reflexivity. }
  destruct nextItem as [[i|]|]; try (eapply Hclose; exact H).
  destruct (String.eqb (iid i) (iid startItem)) eqn:Q; [|eapply Hclose; exact H].
  apply String.eqb_eq in Q.
  apply IH in H; [|exact Wn]. destruct H as (mid & Hm).
  rewrite (same_id_same_def i startItem Wn W Q) in Hm.
  exists (d ++ mid). rewrite Hm, Hd, <- !app_assoc. reflexivity.
Qed.

Lemma renderList_closes (fuel : nat) (startItem : Item) (s : St X)
    (res : option ItemState * St X) :
  well_formed startItem ->
  renderList fuel startItem s = Some res ->
  exists mid,
    writer (snd res)
    = writer s
      ++ [ListOpen (fst (injectHtmlAttributes X (listOpenTag (idef startItem))
                           (env s)))]
      ++ mid ++ [ListClose (listCloseTag (idef startItem))].
Proof.
  intros W H. destruct fuel as [|fuel]; [discriminate|].
  rewrite renderList_S in H. cbv zeta in H.
  change (env (set_ids (ids s ++ [iid startItem]) s)) with (env s) in H.
  destruct (injectHtmlAttributes X _ _) as [tag e].
  apply renderList_loop_closes in H; [|exact W].
  destruct H as (mid & Hm). exists mid. rewrite Hm.
  rewrite writer_write, writer_set_env, writer_set_ids. unfold Writer.write.
  cbn [fst]. rewrite <- app_assoc. reflexivity.
Qed.

Lemma matchItem_defs_first (line : string) (r r' : Reader.t) (i : Item) :
  forall ds,
  matchItem_defs ds line r = Some (Some (ListItem i), r') ->
  find (fun d => match exec (match_ d) line with
                 | Some _ => true
                 | None => false
                 end) ds = Some (idef i).
Proof.
  induction ds as [|d ds IH]; intros H; simpl in H; [discriminate|].
  simpl. destruct (exec (match_ d) line) as [mt|].
  - destruct (starts_with_backslash _); inversion H; subst. reflexivity.
  - apply IH. exact H.
Qed.

Lemma matchItem_first (r r' : Reader.t) (a : list string) (e : Env X)
    (i : Item) :
  matchItem X r a e = (Some (ListItem i), r') ->
  exists line, Reader.cursor r = Some line /\ first_match line = Some (idef i).
Proof.
  unfold matchItem. destruct (Reader.cursor r) as [line|]; [|discriminate].
  destruct (matchItem_defs defs line r) as [res|] eqn:E.
  - intros ->. exists line. split; [reflexivity|].
    apply (matchItem_defs_first line r r' i defs E).
  - destruct (existsb _ a); discriminate.
Qed.

(** X13.  A rendered list is wrapped in the tags of its definition.
    When [render] answers true, the first fragment written is the
    opening list tag, with the HTML attributes injected, and the last
    fragment written the closing list tag, of the first definition of
    [defs] whose pattern matches the line at the cursor: unordered
    before ordered before definition list. *)
Theorem render_list_tags (fuel : nat) (s s' : St X) :
  render fuel s = Some (Return true s') ->
  exists line d mid,
    Reader.cursor (reader s) = Some line /\
    first_match line = Some d /\
    writer s'
    = writer s
      ++ [ListOpen (fst (injectHtmlAttributes X (listOpenTag d) (env s)))]
      ++ mid ++ [ListClose (listCloseTag d)].
Proof.
  unfold render. destruct (Reader.eof (reader s)); [discriminate|].
  pose proof (matchItem_well_formed (reader s) [] (env s)) as W.
  destruct (matchItem X (reader s) [] (env s)) as [[[i|]|] r] eqn:M;
    try discriminate.
  cbn [fst] in W.
  destruct (renderList fuel i _) as [[nextItem s3]|] eqn:E; [|discriminate].
  intros H. inversion H; subst; clear H.
  apply matchItem_first in M. destruct M as (line & Hc & Hf).
  apply renderList_closes in E; [|exact W]. destruct E as (mid & Hm).
  exists line, (idef i), mid. split; [exact Hc|]. split; [exact Hf|]. exact Hm.
Qed.

End WellFormed.

(** ** The nesting of what is written *)

Section Nesting.

Variable X : Externals.

Lemma emits_refl (w : list Frag) (st : list Kind) : emits w w st st.
Proof.
  exists []. rewrite app_nil_r. split; reflexivity.
Qed.

Lemma emits_trans (w1 w2 w3 : list Frag) (st1 st2 st3 : list Kind) :
  emits w1 w2 st1 st2 -> emits w2 w3 st2 st3 -> emits w1 w3 st1 st3.
Proof.
  intros (d1 & -> & N1) (d2 & -> & N2). exists (d1 ++ d2).
  split; [rewrite app_assoc; reflexivity|].
  intros rest. rewrite <- app_assoc, N1, N2. reflexivity.
Qed.

Lemma emits_one (w : list Frag) (f : Frag) (st st' : list Kind) :
  (forall rest, nesting (f :: rest) st = nesting rest st') ->
  emits w (Writer.write f w) st st'.
Proof.
  intros H. exists [f]. split; [reflexivity|]. exact H.
Qed.

Lemma emits_blocks (w : list Frag) (l : list string) (st : list Kind) :
  emits w (w ++ map Block l) (KItem :: st) (KItem :: st).
Proof.
  exists (map Block l). split; [reflexivity|].
  induction l as [|x l IH]; intros rest; simpl; auto.
Qed.

Lemma after_term_emits (startItem : Item) (s : St X) (st : list Kind) :
  emits (writer s) (writer (after_term startItem s)) (KList :: st) (KList :: st).
Proof.
  unfold after_term. destruct (length (imatch startItem) =? 4).
  - cbv zeta. destruct (replaceInline X _ _) as [text e].
    rewrite !writer_write, writer_set_env, writer_write.
    eapply (emits_trans _ _ _ _ (KTerm :: KList :: st));
      [|apply emits_one; intros; reflexivity].
    eapply (emits_trans _ _ _ _ (KTerm :: KList :: st));
      [|apply emits_one; intros; reflexivity].
    apply emits_one. intros; reflexivity.
  - apply emits_refl.
Qed.

Lemma engine_nesting (fuel : nat) :
  (forall startItem (s : St X) res st,
     opens_list st ->
     renderList fuel startItem s = Some res ->
     emits (writer s) (writer (snd res)) st st) /\
  (forall startItem (s : St X) res st,
     renderList_loop fuel startItem s = Some res ->
     emits (writer s) (writer (snd res)) (KList :: st) st) /\
  (forall startItem (s : St X) res st,
     renderListItem fuel startItem s = Some res ->
     emits (writer s) (writer (snd res)) (KList :: st) (KList :: st)) /\
  (forall def nextItem (s : St X) res st,
     renderListItem_loop fuel def nextItem s = Some res ->
     emits (writer s) (writer (snd res)) (KItem :: st) st).
Proof.
  induction fuel as [|fuel (IHlist & IHloop & IHitem & IHiloop)].
  { repeat split; intros; discriminate. }
  split; [|split; [|split]].
  - intros startItem s res st O H. rewrite renderList_S in H. cbv zeta in H.
    destruct (injectHtmlAttributes X _ _) as [tag e].
    apply (IHloop _ _ _ st) in H.
    eapply emits_trans; [|exact H].
    rewrite writer_write, writer_set_env, writer_set_ids.
    apply emits_one. intros rest.
    destruct O as [->|(st' & ->)]; reflexivity.
  - intros startItem s res st H. rewrite renderList_loop_S in H.
    destruct (renderListItem fuel startItem s) as [[nextItem s1]|] eqn:E;
      [|discriminate].
    apply (IHitem _ _ _ st) in E. cbn [snd] in E. cbv zeta in H.
    assert (Hclose : forall l res',
              Some (nextItem,
                    set_ids l
                      (write (ListClose (listCloseTag (idef startItem))) s1))
              = Some res' ->
              emits (writer s) (writer (snd res')) (KList :: st) st).
    { intros l res' R. inversion R; subst. cbn [snd].
      rewrite writer_set_ids, writer_write.
      eapply emits_trans; [exact E|]. apply emits_one. intros; reflexivity. }
    destruct nextItem as [[i|]|]; try (eapply Hclose; exact H).
    destruct (String.eqb (iid i) (iid startItem)); [|eapply Hclose; exact H].
    apply (IHloop _ _ _ st) in H. eapply emits_trans; eassumption.
  - intros startItem s res st H. rewrite renderListItem_S in H. cbv zeta in H.
    destruct (readToNext X fuel _ _ _) as [[[nextItem r] lines']|];
      [|discriminate].
    destruct (replaceInline X _ _) as [text e].
    apply (IHiloop _ _ _ _ (KList :: st)) in H.
    eapply emits_trans; [|exact H].
    rewrite writer_write, writer_set_env, !writer_set_reader, writer_write.
    eapply (emits_trans _ _ _ _ (KItem :: KList :: st));
      [|apply emits_one; intros; reflexivity].
    eapply (emits_trans _ _ _ _ (KList :: st)); [apply after_term_emits|].
    apply emits_one. intros; reflexivity.
  - intros def nextItem s res st H. rewrite renderListItem_loop_S in H.
    assert (Hone : forall (s1 : St X) res',
              emits (writer s) (writer s1) (KItem :: st) (KItem :: st) ->
              Some (nextItem, write (ItemClose (itemCloseTag def)) s1) = Some res'
              \/ Some (@None ItemState, write (ItemClose (itemCloseTag def)) s1)
                 = Some res' ->
              emits (writer s) (writer (snd res')) (KItem :: st) st).
    { intros s1 res' E [R|R]; inversion R; subst; cbn [snd];
        rewrite writer_write; (eapply emits_trans; [exact E|]);
        apply emits_one; intros; reflexivity. }
    assert (Hatt : emits (writer s) (writer (renderAttached s))
                     (KItem :: st) (KItem :: st)).
    { unfold renderAttached. cbn [writer set_reader set_ids].
      apply emits_blocks. }
    assert (Hblock :
      forall res',
        (let s1 := renderAttached s in
         if Reader.eof (reader s1) then
           Some (None, write (ItemClose (itemCloseTag def)) s1)
         else
           let (nextItem', r) := matchItem X (reader s1) [] (env s1) in
           renderListItem_loop fuel def nextItem' (set_reader r s1)) = Some res' ->
        emits (writer s) (writer (snd res')) (KItem :: st) st).
    { intros res' R. cbv zeta in R.
      destruct (Reader.eof (reader (renderAttached s))).
      - eapply Hone; [exact Hatt|right; exact R].
      - destruct (matchItem X _ _ _) as [nextItem' r].
        apply (IHiloop _ _ _ _ st) in R.
        rewrite writer_set_reader in R.
        eapply emits_trans; eassumption. }
    destruct nextItem as [[i|]|].
    + destruct (has_id (ListItem i)); [|apply Hblock; assumption].
      destruct (on_stack (iid i) (ids s)).
      * eapply Hone; [apply emits_refl|left; exact H].
      * destruct (renderList fuel i s) as [[nextItem' s1]|] eqn:E;
          [|discriminate].
        apply (IHlist _ _ _ (KItem :: st)) in E; [|right; eexists; reflexivity].
        cbn [snd] in E. inversion H; subst. cbn [snd].
        rewrite writer_write. eapply emits_trans; [exact E|].
        apply emits_one. intros; reflexivity.
    + apply Hblock. assumption.
    + eapply Hone; [apply emits_refl|right; exact H].
Qed.

(** X14.  What a [render] that answers true has written is well
    nested: a list opens at top level or inside an item, items and
    terms open inside a list, text is inside a term or an item, an
    attached block inside an item, every closing tag closes the
    innermost open element, which is of its kind, and at the end
    nothing is left open. *)
Theorem render_well_nested (fuel : nat) (s s' : St X) :
  render fuel s = Some (Return true s') ->
  exists d, writer s' = writer s ++ d /\ nesting d [] = Some [].
Proof.
  unfold render. destruct (Reader.eof (reader s)); [discriminate|].
  destruct (matchItem X (reader s) [] (env s)) as [[[i|]|] r];
    try discriminate.
  destruct (renderList fuel i _) as [[nextItem s3]|] eqn:E; [|discriminate].
  intros H. inversion H; subst; clear H.
  destruct (engine_nesting fuel) as (Hlist & _).
  apply (Hlist _ _ _ []) in E; [|left; reflexivity].
  destruct E as (d & Hd & N). exists d. split; [exact Hd|].
  specialize (N []). rewrite app_nil_r in N. exact N.
Qed.

End Nesting.

(** ** How deep lists nest *)

Section Depth.

Variable X : Externals.

Lemma list_depth_app (a b : list Frag) :
  list_depth (a ++ b) = (list_depth a + list_depth b)%Z.
Proof.
  unfold list_depth, depth. rewrite !count_app. lia.
Qed.

Lemma bounded_refl (w : list Frag) (n : Z) : (0 <= n)%Z -> bounded w w 0 n.
Proof.
  intros Hn. exists []. rewrite app_nil_r. split; [reflexivity|].
  split; [reflexivity|]. intros p q E. symmetry in E.
  apply app_eq_nil in E. destruct E as (-> & _). exact Hn.
Qed.

Lemma bounded_trans (w1 w2 w3 : list Frag) (k1 k2 n : Z) :
  bounded w1 w2 k1 n -> bounded w2 w3 k2 (n - k1) ->
  bounded w1 w3 (k1 + k2) n.
Proof.
  intros (d1 & -> & L1 & B1) (d2 & -> & L2 & B2). exists (d1 ++ d2).
  split; [rewrite app_assoc; reflexivity|].
  split; [rewrite list_depth_app; lia|].
  intros p q E. apply app_eq_app in E.
  destruct E as (l & [(E1 & E2)|(E1 & E2)]).
  - apply (B1 p l). exact E1.
  - subst p. rewrite list_depth_app. specialize (B2 l q E2). lia.
Qed.

Lemma bounded_one (w : list Frag) (f : Frag) (n : Z) :
  (0 <= n)%Z -> (list_depth [f] <= n)%Z ->
  bounded w (Writer.write f w) (list_depth [f]) n.
Proof.
  intros H0 H1. exists [f]. split; [reflexivity|]. split; [reflexivity|].
  intros p q E. destruct p as [|x p]; [exact H0|].
  injection E as <- E. symmetry in E. apply app_eq_nil in E.
  destruct E as (-> & _). exact H1.
Qed.

Lemma bounded_blocks (w : list Frag) (l : list string) (n : Z) :
  (0 <= n)%Z -> bounded w (w ++ map Block l) 0 n.
Proof.
  intros H0. exists (map Block l). split; [reflexivity|].
  assert (Hz : forall l', list_depth (map Block l') = 0%Z).
  { intros l'. unfold list_depth, depth.
    rewrite !count_blocks by reflexivity. reflexivity. }
  split; [apply Hz|].
  intros p q E. apply map_eq_app in E.
  destruct E as (l1 & l2 & _ & <- & _). rewrite Hz. exact H0.
Qed.

Ltac depth_side :=
  repeat match goal with
         | |- context [list_depth [?f]] =>
             first [change (list_depth [f]) with 1%Z
                   |change (list_depth [f]) with 0%Z
                   |change (list_depth [f]) with (-1)%Z]
         end;
  lia.

Lemma after_term_bounded (startItem : Item) (s : St X) (n : Z) :
  (0 <= n)%Z -> bounded (writer s) (writer (after_term startItem s)) 0 n.
Proof.
  intros H0. unfold after_term. destruct (length (imatch startItem) =? 4).
  - cbv zeta. destruct (replaceInline X _ _) as [text e].
    rewrite !writer_write, writer_set_env, writer_write.
    change 0%Z with (0 + list_depth [TermClose (termCloseTag (idef startItem))])%Z.
    eapply bounded_trans; [|apply bounded_one; depth_side].
    change 0%Z with (0 + list_depth [Text text])%Z.
    eapply bounded_trans; [|apply bounded_one; depth_side].
    apply (bounded_one _ (TermOpen _)); depth_side.
  - apply bounded_refl. exact H0.
Qed.

Lemma stack_ok_length (l : list string) :
  stack_ok l -> (Z.of_nat (length l) <= 13)%Z.
Proof.
  intros (N & I). pose proof (NoDup_incl_length N I) as H.
  change (length all_ids) with 13 in H. lia.
Qed.

Lemma stack_ok_push (l : list string) (i : Item) :
  stack_ok l -> well_formed i -> on_stack (iid i) l = false ->
  stack_ok (l ++ [iid i]).
Proof.
  intros (N & I) W O. split.
  - apply NoDup_rev in N. rewrite <- (rev_involutive (l ++ [iid i])).
    apply NoDup_rev. rewrite rev_app_distr. simpl. constructor; [|exact N].
    intros H. apply in_rev in H.
    assert (on_stack (iid i) l = true); [|congruence].
    unfold on_stack. apply existsb_exists. exists (iid i).
    split; [exact H|apply String.eqb_refl].
  - intros x Hx. apply in_app_or in Hx. destruct Hx as [Hx|[<-|[]]]; [auto|].
    unfold all_ids.
    destruct W as [(_ & H)|[(_ & H)|(_ & H)]]; apply in_or_app; auto;
      right; apply in_or_app; auto.
Qed.

Local Arguments renderAttached : simpl never.
Local Arguments after_term : simpl never.

Lemma engine_depth (fuel : nat) :
  (forall startItem (s : St X) res,
     renderList fuel startItem s = Some res ->
     stack_ok (ids s ++ [iid startItem]) ->
     bounded (writer s) (writer (snd res)) 0
       (13 - Z.of_nat (length (ids s)))) /\
  (forall startItem (s : St X) res,
     renderList_loop fuel startItem s = Some res ->
     stack_ok (ids s) ->
     bounded (writer s) (writer (snd res)) (-1)
       (13 - Z.of_nat (length (ids s)))) /\
  (forall startItem (s : St X) res,
     renderListItem fuel startItem s = Some res ->
     stack_ok (ids s) ->
     bounded (writer s) (writer (snd res)) 0
       (13 - Z.of_nat (length (ids s)))) /\
  (forall def nextItem (s : St X) res,
     well_formed_next nextItem ->
     renderListItem_loop fuel def nextItem s = Some res ->
     stack_ok (ids s) ->
     bounded (writer s) (writer (snd res)) 0
       (13 - Z.of_nat (length (ids s)))).
Proof.
  induction fuel as [|fuel (IHlist & IHloop & IHitem & IHiloop)].
  { repeat split; intros; discriminate. }
  split; [|split; [|split]].
  - intros startItem s res H Ok. rewrite renderList_S in H. cbv zeta in H.
    destruct (injectHtmlAttributes X _ _) as [tag e].
    apply IHloop in H; [|rewrite ids_write, ids_set_env, ids_set_ids; exact Ok].
    rewrite ids_write, ids_set_env, ids_set_ids in H.
    rewrite writer_write, writer_set_env, writer_set_ids in H.
    pose proof (stack_ok_length _ Ok) as L. rewrite length_app in L.
    cbn [length] in L. rewrite length_app in H. cbn [length] in H.
    change 0%Z with (list_depth [ListOpen tag] + -1)%Z.
    eapply bounded_trans.
    + apply bounded_one; depth_side.
    + replace (13 - Z.of_nat (length (ids s)) - list_depth [ListOpen tag])%Z
        with (13 - Z.of_nat (length (ids s) + 1))%Z; [exact H|].
      change (list_depth [ListOpen tag]) with 1%Z. lia.
  - intros startItem s res H Ok. rewrite renderList_loop_S in H.
    destruct (renderListItem fuel startItem s) as [[nextItem s1]|] eqn:E;
      [|discriminate].
    destruct (engine_inv X fuel) as (_ & _ & Hitem & _).
    destruct (Hitem _ _ _ E) as (Hids & _). cbn [snd] in Hids.
    apply IHitem in E; [|exact Ok]. cbn [snd] in E. cbv zeta in H.
    pose proof (stack_ok_length _ Ok) as L.
    assert (Hclose : forall l res',
              Some (nextItem,
                    set_ids l
                      (write (ListClose (listCloseTag (idef startItem))) s1))
              = Some res' ->
              bounded (writer s) (writer (snd res')) (-1)
                (13 - Z.of_nat (length (ids s)))).
    { intros l res' R. inversion R; subst. cbn [snd].
      rewrite writer_set_ids, writer_write.
      change (-1)%Z
        with (0 + list_depth [ListClose (listCloseTag (idef startItem))])%Z.
      eapply bounded_trans; [exact E|]. apply bounded_one; depth_side. }
    destruct nextItem as [[i|]|]; try (eapply Hclose; exact H).
    destruct (String.eqb (iid i) (iid startItem)); [|eapply Hclose; exact H].
    apply IHloop in H; [|rewrite Hids; exact Ok]. rewrite Hids in H.
    change (-1)%Z with (0 + -1)%Z. eapply bounded_trans; [exact E|].
    rewrite Z.sub_0_r. exact H.
  - intros startItem s res H Ok. rewrite renderListItem_S in H. cbv zeta in H.
    destruct (after_term_frame X startItem s) as (_ & Ti & _).
    pose proof (stack_ok_length _ Ok) as L.
    destruct (readToNext X fuel _ _ _) as [[[nextItem r] lines']|] eqn:N;
      [|discriminate].
    apply readToNext_well_formed in N. cbn [fst] in N.
    destruct (replaceInline X _ _) as [text e].
    apply IHiloop in H; [|exact N|].
    + rewrite ids_write, ids_set_env, !ids_set_reader, ids_write in H.
      change (ids (if length (imatch startItem) =? 4 then _ else s))
        with (ids (after_term startItem s)) in H.
      rewrite Ti in H.
      rewrite writer_write, writer_set_env, !writer_set_reader, writer_write in H.
      change (writer (if length (imatch startItem) =? 4 then _ else s))
        with (writer (after_term startItem s)) in H.
      change 0%Z with (0 + 0)%Z at 1. eapply bounded_trans; [|rewrite Z.sub_0_r; exact H].
      change 0%Z with (0 + list_depth [Text text])%Z at 1.
      eapply bounded_trans; [|apply bounded_one; depth_side].
      change 0%Z
        with (0 + list_depth [ItemOpen (itemOpenTag (idef startItem))])%Z at 1.
      eapply bounded_trans; [|apply bounded_one; depth_side].
      apply after_term_bounded. lia.
    + rewrite ids_write, ids_set_env, !ids_set_reader, ids_write.
      change (ids (if length (imatch startItem) =? 4 then _ else s))
        with (ids (after_term startItem s)).
      rewrite Ti. exact Ok.
  - intros def nextItem s res W H Ok. rewrite renderListItem_loop_S in H.
    pose proof (stack_ok_length _ Ok) as L.
    assert (Hone : forall (s1 : St X) res',
              bounded (writer s) (writer s1) 0
                (13 - Z.of_nat (length (ids s))) ->
              Some (nextItem, write (ItemClose (itemCloseTag def)) s1) = Some res'
              \/ Some (@None ItemState, write (ItemClose (itemCloseTag def)) s1)
                 = Some res' ->
              bounded (writer s) (writer (snd res')) 0
                (13 - Z.of_nat (length (ids s)))).
    { intros s1 res' E [R|R]; inversion R; subst; cbn [snd];
        rewrite writer_write;
        change 0%Z with (0 + list_depth [ItemClose (itemCloseTag def)])%Z at 1;
        (eapply bounded_trans; [exact E|]); apply bounded_one; depth_side. }
    destruct (renderAttached_frame X s) as (Ai & _).
    assert (Hatt : bounded (writer s) (writer (renderAttached s)) 0
                     (13 - Z.of_nat (length (ids s)))).
    { unfold renderAttached. cbn [writer set_reader set_ids].
      apply bounded_blocks. lia. }
    assert (Hblock :
      forall res',
        (let s1 := renderAttached s in
         if Reader.eof (reader s1) then
           Some (None, write (ItemClose (itemCloseTag def)) s1)
         else
           let (nextItem', r) := matchItem X (reader s1) [] (env s1) in
           renderListItem_loop fuel def nextItem' (set_reader r s1)) = Some res' ->
        bounded (writer s) (writer (snd res')) 0
          (13 - Z.of_nat (length (ids s)))).
    { intros res' R. cbv zeta in R.
      destruct (Reader.eof (reader (renderAttached s))).
      - eapply Hone; [exact Hatt|right; exact R].
      - pose proof (matchItem_well_formed X (reader (renderAttached s)) []
                      (env (renderAttached s))) as W'.
        destruct (matchItem X _ _ _) as [nextItem' r]. cbn [fst] in W'.
        apply IHiloop in R; [|exact W'|rewrite ids_set_reader, Ai; exact Ok].
        rewrite writer_set_reader, ids_set_reader, Ai in R.
        change 0%Z with (0 + 0)%Z at 1.
        eapply bounded_trans; [exact Hatt|]. rewrite Z.sub_0_r. exact R. }
    destruct nextItem as [[i|]|].
    + destruct (has_id (ListItem i)); [|apply Hblock; assumption].
      destruct (on_stack (iid i) (ids s)) eqn:O.
      * eapply Hone; [apply bounded_refl; lia|left; exact H].
      * destruct (renderList fuel i s) as [[nextItem' s1]|] eqn:E;
          [|discriminate].
        apply IHlist in E; [|apply stack_ok_push; assumption].
        cbn [snd] in E. inversion H; subst. cbn [snd].
        rewrite writer_write.
        change 0%Z with (0 + list_depth [ItemClose (itemCloseTag def)])%Z at 1.
        eapply bounded_trans; [exact E|]. apply bounded_one; depth_side.
    + apply Hblock. assumption.
    + eapply Hone; [apply bounded_refl; lia|right; exact H].
Qed.

(** X15.  Lists nest at most thirteen deep.  The three patterns give
    thirteen IDs, and an item whose ID is on the stack goes back to
    the list of that ID instead of opening a new one; so at no point
    of what a [render] writes are more than thirteen lists open. *)
Theorem render_depth_bounded (fuel : nat) (s s' : St X) :
  render fuel s = Some (Return true s') ->
  exists d,
    writer s' = writer s ++ d /\
    forall p q, d = p ++ q -> (list_depth p <= 13)%Z.
Proof.
  unfold render. destruct (Reader.eof (reader s)); [discriminate|].
  pose proof (matchItem_well_formed X (reader s) [] (env s)) as W.
  destruct (matchItem X (reader s) [] (env s)) as [[[i|]|] r];
    try discriminate.
  cbn [fst well_formed_next] in W.
  destruct (renderList fuel i _) as [[nextItem s3]|] eqn:E; [|discriminate].
  intros H. inversion H; subst; clear H.
  destruct (engine_depth fuel) as (Hlist & _).
  apply Hlist in E.
  - destruct E as (d & Hd & _ & B). exists d. split; [exact Hd|].
    intros p q Hp. specialize (B p q Hp).
    rewrite ids_set_ids in B. simpl in B. lia.
  - rewrite ids_set_ids. apply (stack_ok_push [] i); [|exact W|reflexivity].
    split; [constructor|intros x []].
Qed.

End Depth.

(** ** Where a list ends *)

Section ListEnd.

Import Reader ReaderFacts MoreReaderFacts.

Variable X : Externals.

Lemma plain_lines_next (r : t) : plain_lines X r -> plain_lines X (next r).
Proof.
  intros H k line name e Hk Hn. unfold next in *.
  destruct (eof r); [eapply H; eassumption|].
  simpl in *. apply (H k); [lia|exact Hn].
Qed.

Lemma matchItem_plain_lines (r : t) (a : list string) (e : Env X) :
  incl a attachment_names ->
  plain_lines X r ->
  fst (matchItem X r a e) <> Some Attached /\
  (fst (matchItem X r a e) <> None -> snd (matchItem X r a e) = r) /\
  plain_lines X (next (snd (matchItem X r a e))).
Proof.
  intros Ha Hp.
  destruct (matchItem_lines X r a e) as (P & L & N).
  split; [|split].
  - unfold matchItem. destruct (cursor r) as [line|] eqn:Hc; [|discriminate].
    destruct (matchItem_defs defs line r) as [res|] eqn:E.
    + apply matchItem_defs_cases in E.
      destruct E as (d & mt & _ & _ & [[_ ->]|[_ ->]]); discriminate.
    + assert (Hx : existsb (fun name => openMatch X name line e) a = false).
      { apply not_true_is_false. intros Hx. apply existsb_exists in Hx.
        destruct Hx as (name & Hin & Hx).
        rewrite (Hp (pos r) line name e (le_n _) Hc) in Hx;
          [discriminate| |apply Ha; exact Hin].
        apply matchItem_defs_none with (r := r). exact E. }
      rewrite Hx. discriminate.
  - unfold matchItem. destruct (cursor r) as [line|] eqn:Hc;
      [|intros _; reflexivity].
    destruct (matchItem_defs defs line r) as [res|] eqn:E.
    + apply matchItem_defs_cases in E.
      destruct E as (d & mt & _ & _ & [[_ ->]|[_ ->]]); simpl; congruence.
    + destruct (existsb _ a); intros _; reflexivity.
  - intros k line name e' Hk Hn Hd Hin. unfold next in Hk, Hn.
    destruct (eof (snd (matchItem X r a e))) eqn:Eof.
    + unfold eof in Eof. apply Nat.leb_le in Eof.
      assert (nth_error (lines (snd (matchItem X r a e))) k = None)
        by (apply nth_error_None; lia).
      congruence.
    + simpl in Hk, Hn. rewrite P in Hk. rewrite N in Hn by lia.
      apply (Hp k); [lia|exact Hn|exact Hd|exact Hin].
Qed.

Lemma blank_cursor (r : t) :
  blank (cursor r) = true -> nth_error (lines r) (pos r) = Some EmptyString.
Proof.
  unfold cursor. destruct (nth_error (lines r) (pos r)) as [[|c l]|];
    simpl; intros H; try discriminate. reflexivity.
Qed.

Lemma readToNext_ends_well :
  forall fuel r w e nextItem r' w',
  plain_lines X r ->
  readToNext X fuel r w e = Some (nextItem, r', w') ->
  ends_well X nextItem r'.
Proof.
  induction fuel as [|fuel IH]; intros r w e nx r' w' Hp H; simpl in H;
    [discriminate|].
  destruct (eof r) eqn:Eof.
  { inversion H; subst. split; [discriminate|]. split; [|congruence].
    intros _. left. exact Eof. }
  destruct (blank (cursor r)) eqn:B.
  - apply blank_cursor in B. rewrite (next_not_eof r Eof) in H.
    set (r1 := {| lines := lines r; pos := S (pos r) |}) in *.
    assert (Hr1 : after_blank r1) by (right; exists (pos r); auto).
    destruct (blank (cursor r1)).
    { inversion H; subst. split; [discriminate|]. split; [auto|congruence]. }
    destruct (eof r1) eqn:Eof1.
    { inversion H; subst. split; [discriminate|]. split; [|congruence].
      intros _. left. exact Eof1. }
    assert (Hp1 : plain_lines X r1).
    { unfold r1. rewrite <- (next_not_eof r Eof). apply plain_lines_next.
      exact Hp. }
    destruct (matchItem_plain_lines r1 ["indented"] e) as (A & S1 & _);
      [intros x [<-|[]]; simpl; auto|exact Hp1|].
    destruct (matchItem_lines X r1 ["indented"] e) as (P & L & N).
    destruct (matchItem X r1 ["indented"] e) as [nx1 r2]. cbn [fst snd] in *.
    inversion H; subst. split; [exact A|]. split.
    + intros _. right. exists (pos r). split; [exact P|].
      rewrite N by (simpl; lia). exact B.
    + intros Hn. rewrite (S1 Hn). exact Hp1.
  - match type of H with
    | context [matchItem X r ?a e] =>
        destruct (matchItem_plain_lines r a e) as (A & S1 & Hn);
          [intros x Hx; simpl in Hx; simpl; tauto|exact Hp|];
        destruct (matchItem X r a e) as [nx1 r1]
    end.
    cbn [fst snd] in *. destruct nx1 as [x|].
    + inversion H; subst. split; [exact A|]. split; [discriminate|].
      intros _. rewrite S1 by discriminate. exact Hp.
    + apply IH in H; [exact H|exact Hn].
Qed.

Lemma well_formed_has_id (i : Item) :
  well_formed i -> has_id (ListItem i) = true.
Proof.
  unfold has_id. simpl. unfold well_formed, ul_ids, ol_ids, dl_ids.
  intros [(_ & H)|[(_ & H)|(_ & H)]]; simpl in H;
    repeat (destruct H as [<-|H]; [reflexivity|]); contradiction.
Qed.

Local Arguments renderAttached : simpl never.
Local Arguments after_term : simpl never.

Lemma engine_ends_well (fuel : nat) :
  (forall startItem (s : St X) res,
     renderList fuel startItem s = Some res ->
     plain_lines X (reader s) ->
     ends_well X (fst res) (reader (snd res))) /\
  (forall startItem (s : St X) res,
     renderList_loop fuel startItem s = Some res ->
     plain_lines X (reader s) ->
     ends_well X (fst res) (reader (snd res))) /\
  (forall startItem (s : St X) res,
     renderListItem fuel startItem s = Some res ->
     plain_lines X (reader s) ->
     ends_well X (fst res) (reader (snd res))) /\
  (forall def nextItem (s : St X) res,
     well_formed_next nextItem ->
     renderListItem_loop fuel def nextItem s = Some res ->
     ends_well X nextItem (reader s) ->
     ends_well X (fst res) (reader (snd res))).
Proof.
  induction fuel as [|fuel (IHlist & IHloop & IHitem & IHiloop)].
  { repeat split; intros; discriminate. }
  split; [|split; [|split]].
  - intros startItem s res H Hp. rewrite renderList_S in H. cbv zeta in H.
    destruct (injectHtmlAttributes X _ _) as [tag e].
    apply IHloop in H; [exact H|exact Hp].
  - intros startItem s res H Hp. rewrite renderList_loop_S in H.
    destruct (renderListItem fuel startItem s) as [[nextItem s1]|] eqn:E;
      [|discriminate].
    apply IHitem in E; [|exact Hp]. cbn [fst snd] in E. cbv zeta in H.
    assert (Hclose : forall l res',
              Some (nextItem,
                    set_ids l
                      (write (ListClose (listCloseTag (idef startItem))) s1))
              = Some res' ->
              ends_well X (fst res') (reader (snd res'))).
    { intros l res' R. inversion R; subst. exact E. }
    destruct nextItem as [[i|]|]; try (eapply Hclose; exact H).
    destruct (String.eqb (iid i) (iid startItem)); [|eapply Hclose; exact H].
    apply IHloop in H; [exact H|]. apply E. discriminate.
  - intros startItem s res H Hp. rewrite renderListItem_S in H. cbv zeta in H.
    destruct (after_term_frame X startItem s) as (Tr & _).
    destruct (readToNext X fuel _ _ _) as [[[nextItem r] lines']|] eqn:N;
      [|discriminate].
    pose proof (readToNext_well_formed X _ _ _ _ _ N) as W. cbn [fst] in W.
    apply readToNext_ends_well in N.
    + destruct (replaceInline X _ _) as [text e].
      apply IHiloop in H; [exact H|exact W|exact N].
    + change (reader (set_reader ?r _)) with r.
      apply plain_lines_next.
      change (reader (write _ ?s0)) with (reader s0).
      change (reader (if length (imatch startItem) =? 4 then _ else s))
        with (reader (after_term startItem s)).
      rewrite Tr. exact Hp.
  - intros def nextItem s res W H Hn. rewrite renderListItem_loop_S in H.
    destruct nextItem as [[i|]|].
    + rewrite (well_formed_has_id i W) in H.
      destruct (on_stack (iid i) (ids s)).
      * inversion H; subst. exact Hn.
      * destruct (renderList fuel i s) as [[nextItem' s1]|] eqn:E;
          [|discriminate].
        apply IHlist in E; [|apply Hn; discriminate].
        inversion H; subst. exact E.
    + destruct Hn as (Hn & _). contradiction.
    + inversion H; subst. exact Hn.
Qed.

(** X16.  A list ends at a blank line.  When no line from the cursor
    on is taken for an attached delimited block (a line that no list
    pattern matches opens none of the blocks that [readToNext] allows
    as attachments), a [render] that answers true leaves the reader
    at end of input or just after a blank line: a line of plain text
    that follows an item without a blank line is taken into the
    item. *)
Theorem list_ends_at_blank_line (fuel : nat) (s s' : St X) :
  plain_lines X (reader s) ->
  render fuel s = Some (Return true s') ->
  after_blank (reader s').
Proof.
  intros Hp. unfold render. destruct (eof (reader s)); [discriminate|].
  pose proof (matchItem_well_formed X (reader s) [] (env s)) as W.
  destruct (matchItem_plain_lines (reader s) [] (env s)) as (_ & S1 & _);
    [intros x []|exact Hp|].
  destruct (matchItem X (reader s) [] (env s)) as [[[i|]|] r];
    try discriminate.
  cbn [fst snd] in *.
  destruct (renderList fuel i _) as [[nextItem s3]|] eqn:E; [|discriminate].
  intros H. inversion H; subst; clear H.
  destruct (engine_inv X fuel) as (Hinv & _).
  destruct (Hinv _ _ _ E) as (_ & _ & Hb & _). cbn [fst] in Hb.
  destruct (engine_ends_well fuel) as (Hlist & _).
  apply Hlist in E.
  - cbn [fst snd] in E. destruct E as (_ & E & _).
    destruct nextItem as [[j|]|]; simpl in Hb; try discriminate;
      try contradiction.
    apply E. reflexivity.
  - change (reader (set_ids [] (set_reader r s))) with r.
    rewrite S1 by discriminate. exact Hp.
Qed.

End ListEnd.

(** ** One call on an escaped line *)

(** X23.  One call on an escaped line.  When the current line is a
    backslash followed by text that one of the three patterns matches
    after its optional backslash, [matchItem] rewrites the line
    without the backslash, keeps the position and returns no element,
    whatever the attachments; [render] then returns false with that
    reader and has written nothing. *)
Theorem backslash_escapes (X : Externals) (s : St X) (rest : string)
    (body : regex) (a : list string) (fuel : nat) :
  Reader.cursor (reader s) = Some (String backslash rest) ->
  In body [ul_body; ol_body; dl_body] ->
  groups body (list_ascii_of_string rest) <> None ->
  matchItem X (reader s) a (env s)
  = (None, Reader.set_cursor rest (reader s)) /\
  Reader.cursor (Reader.set_cursor rest (reader s)) = Some rest /\
  Reader.pos (Reader.set_cursor rest (reader s)) = Reader.pos (reader s) /\
  render fuel s
  = Some (Return false (set_reader (Reader.set_cursor rest (reader s)) s)).
Proof.
  intros Hc Hb Hg.
  assert (Eof : Reader.eof (reader s) = false)
    by exact (ReaderFacts.cursor_not_eof _ _ Hc).
  assert (Hd : exists d, In d defs /\ match_ d = escaped body).
  { destruct Hb as [<-|[<-|[<-|[]]]];
      [exists ul_def|exists ol_def|exists dl_def]; simpl; auto. }
  destruct Hd as (d & Hd & Hr).
  assert (Hm : exec (match_ d) (String backslash rest) <> None).
  { rewrite Hr. unfold exec. cbn [list_ascii_of_string].
    pose proof (escaped_backslash body _ Hg) as G.
    destruct (groups (escaped body) _); [discriminate|contradiction]. }
  assert (M : forall a', matchItem X (reader s) a' (env s)
                         = (None, Reader.set_cursor rest (reader s))).
  { intros a'.
    pose proof (matchItem_matched X (reader s) a' (env s) _ d Hc Hd Hm) as M.
    cbn [starts_with_backslash slice1] in M.
    replace (Ascii.eqb backslash backslash) with true in M by reflexivity.
    exact M. }
  split; [apply M|]. split; [apply ReaderFacts.cursor_set_cursor; exact Eof|].
  split; [reflexivity|].
  unfold render. rewrite Eof, M. reflexivity.
Qed.

(** ** The element handed back is at the cursor *)

Section HandedBack.

Import Reader ReaderFacts MoreReaderFacts.

Variable X : Externals.



Local Arguments renderAttached : simpl never.
Local Arguments after_term : simpl never.



End HandedBack.


(** ** The command-line app *)

Module RimucFacts.
Import Rimuc.

(** *** The options loop *)

Lemma parse_invariant :
  forall n argv o o' files,
  length argv <= n ->
  mode_in_range (safeMode o) -> outfile_given (outfile o) ->
  parse o argv = Run o' files ->
  mode_in_range (safeMode o') /\ outfile_given (outfile o') /\
  exists used, argv = used ++ files.
Proof.
  induction n as [|n IH]; intros argv o o' files Hn Hm Ho H.
  - destruct argv; [|simpl in Hn; lia]. simpl in H. inversion H; subst.
    repeat split; auto. exists []. reflexivity.
  - destruct argv as [|arg rest].
    { simpl in H. inversion H; subst. repeat split; auto. exists []. reflexivity. }
    simpl in Hn.
    assert (Hrest : forall o1,
              mode_in_range (safeMode o1) -> outfile_given (outfile o1) ->
              parse o1 rest = Run o' files ->
              mode_in_range (safeMode o') /\ outfile_given (outfile o') /\
              exists used, arg :: rest = used ++ files).
    { intros o1 Hm1 Ho1 H1.
      destruct (IH rest o1 o' files ltac:(lia) Hm1 Ho1 H1) as (A & B & used & E).
      repeat split; auto. exists (arg :: used). rewrite E. reflexivity. }
    assert (Hval : forall o1,
              mode_in_range (safeMode o1) -> outfile_given (outfile o1) ->
              match rest with
              | _ :: rest' => parse o1 rest'
              | [] => parse o1 rest
              end = Run o' files ->
              mode_in_range (safeMode o') /\ outfile_given (outfile o') /\
              exists used, arg :: rest = used ++ files).
    { intros o1 Hm1 Ho1 H1. destruct rest as [|v rest'].
      - apply (Hrest o1); assumption.
      - simpl in Hn.
        destruct (IH rest' o1 o' files ltac:(lia) Hm1 Ho1 H1)
          as (A & B & used & E).
        repeat split; auto. exists (arg :: v :: used). rewrite E. reflexivity. }
    cbn [parse] in H. cbv zeta in H.
    destruct (String.eqb arg EmptyString).
    { inversion H; subst. repeat split; auto. exists [arg]. reflexivity. }
    destruct (is_one_of arg ["--help"; "-h"]); [discriminate|].
    destruct (is_one_of arg ["--lint"; "-l"]); [refine (Hrest _ _ _ H); assumption|].
    destruct (is_one_of arg ["--output"; "-o"]).
    { destruct (falsy (shift rest)) eqn:F; [discriminate|].
      refine (Hval _ _ _ H); [assumption|].
      cbn [outfile set_outfile]. destruct rest as [|v r]; [discriminate|].
      simpl in *. intros ->. discriminate. }
    destruct (is_one_of arg ["--prepend"; "-p"]); [refine (Hval _ _ _ H); assumption|].
    destruct (is_one_of arg ["--no-rimurc"]); [refine (Hrest _ _ _ H); assumption|].
    destruct (is_one_of arg ["--safe-mode"; "--safeMode"]).
    { match type of H with
      | context [parseInt ?x] => set (m := parseInt x) in H
      end.
      destruct (num_lt m 0 || num_gt m 15) eqn:R; [discriminate|].
      refine (Hval _ _ _ H); [|assumption].
      cbn [safeMode set_safeMode]. apply orb_false_iff in R.
      destruct R as (R1 & R2). destruct m as [|z]; simpl in *; [exact I|].
      lia. }
    destruct (is_one_of arg ["--html-replacement"; "--htmlReplacement"]);
      [refine (Hval _ _ _ H); assumption|].
    destruct (is_one_of arg ["--styled"; "-s"]); [refine (Hrest _ _ _ H); assumption|].
    destruct (is_one_of arg _).
    { destruct (String.eqb arg "--title");
        [refine (Hval _ _ _ H); assumption|refine (Hrest _ _ _ H); assumption]. }
    destruct (starts_with_dash arg); [discriminate|].
    inversion H; subst. repeat split; auto. exists []. reflexivity.
Qed.


(** *** The lint message *)

Lemma length_substring0 (s : string) :
  forall n, String.length (substring 0 n s) = Nat.min n (String.length s).
Proof.
  induction s as [|a s IH]; intros [|n]; simpl; auto.
Qed.

Lemma length_append (a b : string) :
  String.length (a ++ b) = String.length a + String.length b.
Proof.
  induction a as [|x a IH]; simpl; auto.
Qed.

Lemma length_lint_message (type infile text : string) :
  String.length (lint_message type infile text) <= 120.
Proof.
  unfold lint_message, slice0.
  set (msg := (type ++ ": " ++ infile ++ ": " ++ text)%string).
  destruct (120 <? String.length msg) eqn:L.
  - apply Nat.ltb_lt in L.
    rewrite length_append, length_substring0, Nat.min_l by lia. simpl. lia.
  - apply Nat.ltb_ge in L. exact L.
Qed.


(** *** File names *)

Lemma lastIndexOf_from_lacks (c : ascii) (s : string) :
  lacks c s -> forall i found, lastIndexOf_from c s i found = found.
Proof.
  induction s as [|a s IH]; simpl; intros H i found; [reflexivity|].
  destruct H as (Ha & Hs). apply Ascii.eqb_neq in Ha. rewrite Ha.
  apply IH. exact Hs.
Qed.

Lemma lastIndexOf_from_last (c : ascii) (ext : string) :
  lacks c ext ->
  forall stem i found,
  lastIndexOf_from c (stem ++ String c ext) i found
  = (i + Z.of_nat (String.length stem))%Z.
Proof.
  intros He. induction stem as [|a stem IH]; intros i found.
  - simpl. rewrite Ascii.eqb_refl.
    rewrite lastIndexOf_from_lacks by exact He. lia.
  - cbn [append lastIndexOf_from String.length]. rewrite IH. lia.
Qed.

Lemma substring0_append (stem rest : string) :
  substring 0 (String.length stem) (stem ++ rest) = stem.
Proof.
  induction stem as [|a stem IH]; simpl.
  - destruct rest; reflexivity.
  - rewrite IH. reflexivity.
Qed.


Lemma split_from_nonempty (c : ascii) (s : string) :
  forall cur, split_from c s cur <> [].
Proof.
  induction s as [|a s IH]; intros cur; simpl; [discriminate|].
  destruct (Ascii.eqb a c); [discriminate|apply IH].
Qed.

Lemma append_assoc (a b c : string) : ((a ++ b) ++ c)%string = (a ++ b ++ c)%string.
Proof.
  induction a as [|x a IH]; simpl; [reflexivity|]. rewrite IH. reflexivity.
Qed.

Lemma append_nil_r (a : string) : (a ++ EmptyString)%string = a.
Proof.
  induction a as [|x a IH]; simpl; [reflexivity|]. rewrite IH. reflexivity.
Qed.

Lemma pop_split_lacks (c : ascii) (s : string) :
  lacks c s -> forall cur, pop (split_from c s cur) = (cur ++ s)%string.
Proof.
  unfold pop. induction s as [|a s IH]; simpl; intros H cur.
  - rewrite append_nil_r. reflexivity.
  - destruct H as (Ha & Hs). apply Ascii.eqb_neq in Ha. rewrite Ha.
    rewrite IH by exact Hs. rewrite append_assoc. reflexivity.
Qed.

Lemma pop_split_last (c : ascii) (ext : string) :
  lacks c ext ->
  forall stem cur, pop (split_from c (stem ++ String c ext) cur) = ext.
Proof.
  intros He. unfold pop. induction stem as [|a stem IH]; intros cur.
  - simpl. rewrite Ascii.eqb_refl.
    pose proof (split_from_nonempty c ext EmptyString) as N.
    destruct (split_from c ext EmptyString) as [|x l] eqn:E; [contradiction|].
    change (last (cur :: x :: l) EmptyString) with (last (x :: l) EmptyString).
    rewrite <- E. apply (pop_split_lacks c ext He EmptyString).
  - cbn [append split_from]. destruct (Ascii.eqb a c).
    + pose proof (split_from_nonempty c (stem ++ String c ext) EmptyString) as N.
      destruct (split_from c (stem ++ String c ext) EmptyString) as [|x l] eqn:E;
        [contradiction|].
      change (last (cur :: x :: l) EmptyString) with (last (x :: l) EmptyString).
      rewrite <- E. apply IH.
    + apply IH.
Qed.

(** A string has no [c], or a last one. *)
Lemma last_occurrence (c : ascii) (s : string) :
  lacks c s \/
  exists stem ext, s = (stem ++ String c ext)%string /\ lacks c ext.
Proof.
  induction s as [|a s IH]; [left; exact I|].
  destruct IH as [H|(stem & ext & -> & He)].
  - destruct (Ascii.eqb a c) eqn:Q.
    + apply Ascii.eqb_eq in Q. subst a. right.
      exists EmptyString, s. split; [reflexivity|exact H].
    + apply Ascii.eqb_neq in Q. left. split; assumption.
  - right. exists (String a stem), ext. split; [reflexivity|exact He].
Qed.


End RimucFacts.

Section OptionFacts.

Import Rimuc RimucFacts.

(** X17.  The options loop of rimuc.  When the loop ends without
    help and without [die], the safe mode is [NaN] or a number from 0
    to 15, the output file is unset or a name that is not empty, and
    the files left in [process.argv] are a suffix of the arguments. *)
Theorem parsed_options_in_range (argv : list string) (o : Opts)
    (files : list string) :
  parse initial argv = Run o files ->
  mode_in_range (safeMode o) /\ outfile_given (outfile o) /\
  exists used, argv = used ++ files.
Proof.
  intros H.
  apply (parse_invariant (length argv) argv initial o files); auto.
  - simpl. lia.
  - exact I.
Qed.

(** X18.  The lint callback prints at most 120 characters: a
    message of up to 120 characters is printed as it is, a longer one
    as its first 117 characters and three dots. *)
Theorem lint_message_bounded (type infile text : string) :
  let msg := (type ++ ": " ++ infile ++ ": " ++ text)%string in
  String.length (lint_message type infile text) <= 120 /\
  (String.length msg <= 120 -> lint_message type infile text = msg) /\
  (120 < String.length msg ->
   lint_message type infile text = (substring 0 117 msg ++ "...")%string /\
   String.length (lint_message type infile text) = 120).
Proof.
  cbv zeta. unfold lint_message, slice0.
  set (msg := (type ++ ": " ++ infile ++ ": " ++ text)%string).
  destruct (120 <? String.length msg) eqn:L.
  - apply Nat.ltb_lt in L.
    assert (E : String.length (substring 0 117 msg ++ "...")%string = 120).
    { rewrite length_append, length_substring0, Nat.min_l by lia.
      reflexivity. }
    split; [rewrite E; lia|]. split; [intros; lia|]. intros _. split; auto.
  - apply Nat.ltb_ge in L. split; [lia|]. split; [reflexivity|]. intros; lia.
Qed.

(** X19.  The default output file of a styled run.  The extension
    after the last dot of the source file is replaced by [html]; a
    name without a dot gives [.html], the name itself is lost. *)
Theorem default_outfile_replaces_extension (stem ext : string) :
  lacks "." ext ->
  default_outfile (stem ++ "." ++ ext) = (stem ++ ".html")%string /\
  default_outfile ext = ".html".
Proof.
  intros He. unfold default_outfile, lastIndexOf. split.
  - cbn [append]. rewrite lastIndexOf_from_last by exact He.
    unfold substr0. simpl (0 + _)%Z.
    destruct (Z.of_nat (String.length stem) <=? 0)%Z eqn:Z0.
    + apply Z.leb_le in Z0. destruct stem; [reflexivity|simpl in Z0; lia].
    + rewrite Nat2Z.id. change (String "." ext) with ("." ++ ext)%string.
      rewrite substring0_append. reflexivity.
  - rewrite lastIndexOf_from_lacks by exact He. reflexivity.
Qed.

(** X20.  The loop passes a file through as HTML exactly when its
    name is [html] or ends in [.html]. *)
Theorem is_html_iff (infile : string) :
  is_html infile = true <->
  infile = "html" \/ exists stem, infile = (stem ++ ".html")%string.
Proof.
  unfold is_html, split. rewrite String.eqb_eq. split.
  - intros H. destruct (last_occurrence "." infile) as [L|(stem & ext & -> & L)].
    + rewrite pop_split_lacks in H by exact L. left. exact H.
    + rewrite pop_split_last in H by exact L. subst ext.
      right. exists stem. reflexivity.
  - intros [->|(stem & ->)]; [reflexivity|].
    change (stem ++ ".html")%string with (stem ++ String "." "html")%string.
    apply pop_split_last. simpl. repeat split; discriminate.
Qed.

End OptionFacts.

(** *** The conversion loop *)

Section ConvertFacts.

Import Rimuc RimucFacts.

Variable existsSync : string -> bool.
Variable readFileSync : string -> option string.
Variable Rimu : Type.
Variable Rimu_render :
  string -> RenderOptions -> Rimu -> string * list CallbackMessage * Rimu.
Variable rimurc : string.

(** X21.  The conversion loop stops at the first HTML file: the
    files after it are neither checked nor read nor rendered, so the
    result is the same without them. *)
Theorem convert_stops_at_html (o : Opts) (before after : list string)
    (infile : string) (c : Conv Rimu) :
  is_html infile = true ->
  convert existsSync readFileSync Rimu_render rimurc o
    (before ++ infile :: after) c
  = convert existsSync readFileSync Rimu_render rimurc o
      (before ++ [infile]) c.
Proof.
  intros Hh. revert c. induction before as [|f before IH]; intros c.
  - simpl. destruct (existsSync infile); [|reflexivity].
    destruct (readFileSync infile); [|reflexivity].
    rewrite Hh. reflexivity.
  - simpl. destruct (existsSync f); [|reflexivity].
    destruct (readFileSync f); [|reflexivity].
    destruct (is_html f); [reflexivity|].
    destruct (Rimu_render _ _ _) as [[out messages] rimu']. apply IH.
Qed.

(** X22.  The count of errors is the count of messages printed.
    When the loop ends without [die], [errors] has grown by the number
    of lines printed on standard error, each of at most 120
    characters; without [--lint] nothing is printed. *)
Theorem convert_counts_errors (o : Opts) (files : list string)
    (c c' : Conv Rimu) :
  convert existsSync readFileSync Rimu_render rimurc o files c
  = Finished c' ->
  exists printed,
    stderr c' = stderr c ++ printed /\
    errors c' = errors c + length printed /\
    Forall (fun line => String.length line <= 120) printed /\
    (lint o = false -> printed = []).
Proof.
  revert c. induction files as [|f files IH]; intros c H.
  - inversion H; subst. exists []. rewrite app_nil_r. simpl.
    repeat split; auto.
  - simpl in H. destruct (existsSync f); [|discriminate].
    destruct (readFileSync f); [|discriminate].
    destruct (is_html f).
    + inversion H; subst. exists []. rewrite app_nil_r. simpl.
      repeat split; auto.
    + destruct (Rimu_render _ _ _) as [[out messages] rimu'].
      apply IH in H. destruct H as (printed & E1 & E2 & F & L).
      cbn [stderr errors] in E1, E2.
      eexists (_ ++ printed). rewrite E1, E2, app_assoc, length_app.
      split; [reflexivity|]. split; [lia|]. split.
      * apply Forall_app. split; [|exact F].
        destruct (lint o); [|constructor].
        apply Forall_forall. intros line Hl. apply in_map_iff in Hl.
        destruct Hl as (m & <- & _).
        apply length_lint_message.
      * intros Hl. rewrite Hl, (L Hl). reflexivity.
Qed.

End ConvertFacts.

(** ** The properties at concrete inputs *)

Lemma backslash_escapes_witness :
  let s := Sample.start ["\- not a list item"] in
  Reader.cursor (reader s) = Some (String backslash "- not a list item") /\
  In ul_body [ul_body; ol_body; dl_body] /\
  groups ul_body (list_ascii_of_string "- not a list item") <> None /\
  render 10 s = Some (Return false (Sample.start ["- not a list item"])).
Proof.
  intros s.
  assert (Hg : groups ul_body (list_ascii_of_string "- not a list item") <> None)
    by (vm_compute; discriminate).
  assert (Hb : In ul_body [ul_body; ol_body; dl_body]) by (left; reflexivity).
  split; [reflexivity|]. split; [exact Hb|]. split; [exact Hg|].
  exact (proj2 (proj2 (proj2
           (backslash_escapes Sample.externals s "- not a list item" ul_body
              [] 10 eq_refl Hb Hg)))).
Defined.

Lemma render_result_witness :
  let s := Sample.start ["* one"; "** nested"] in
  advances Sample.externals /\
  Reader.cursor (reader s) = Some "* one" /\
  fuel_for (reader s) <= 15 /\
  exists b s',
    render 15 s = Some (Return b s') /\
    (b = true <->
     starts_with_backslash "* one" = false /\
     exists d, In d defs /\ exec (match_ d) "* one" <> None).
Proof.
  intros s.
  assert (Hf : fuel_for (reader s) <= 15) by (vm_compute; lia).
  split; [exact SampleFacts.sample_advances|]. split; [reflexivity|].
  split; [exact Hf|].
  exact (render_result Sample.externals SampleFacts.sample_advances s 15
           "* one" eq_refl Hf).
Defined.

Lemma render_false_frame_witness :
  let s := Sample.start ["\* not an item"; "text"] in
  exists s',
    render 10 s = Some (Return false s') /\
    writer s' = writer s /\ ids s' = ids s /\ env s' = env s /\
    Reader.pos (reader s') = Reader.pos (reader s) /\
    length (Reader.lines (reader s')) = length (Reader.lines (reader s)) /\
    (forall k, k <> Reader.pos (reader s) ->
       nth_error (Reader.lines (reader s')) k
       = nth_error (Reader.lines (reader s)) k).
Proof.
  intros s.
  assert (E : {s' | render 10 s = Some (Return false s')}).
  { eexists. vm_compute. reflexivity. }
  destruct E as [s' E]. exists s'. split; [exact E|].
  exact (render_false_frame Sample.externals s s' 10 E).
Defined.

Lemma render_true_advances_witness :
  let s := Sample.start ["- one"; "- two"; EmptyString; EmptyString; "after"] in
  exists s',
    render 30 s = Some (Return true s') /\
    Reader.remaining (reader s') < Reader.remaining (reader s).
Proof.
  intros s.
  assert (E : {s' | render 30 s = Some (Return true s')}).
  { eexists. vm_compute. reflexivity. }
  destruct E as [s' E]. exists s'. split; [exact E|].
  exact (render_true_advances Sample.externals SampleFacts.sample_advances
           s s' 30 E).
Defined.

Lemma escape_protects_once_witness :
  let s := Sample.start ["\- item"] in
  advances Sample.externals /\
  Reader.cursor (reader s) = Some (String backslash "- item") /\
  starts_with_backslash "- item" = false /\
  In ul_body [ul_body; ol_body; dl_body] /\
  groups ul_body (list_ascii_of_string "- item") <> None /\
  fuel_for (reader s) <= 10 /\
  exists s1 s2,
    render 10 s = Some (Return false s1) /\
    Reader.cursor (reader s1) = Some "- item" /\
    render 10 s1 = Some (Return true s2).
Proof.
  intros s.
  assert (Hg : groups ul_body (list_ascii_of_string "- item") <> None)
    by (vm_compute; discriminate).
  assert (Hb : In ul_body [ul_body; ol_body; dl_body]) by (left; reflexivity).
  assert (Hf : fuel_for (reader s) <= 10) by (vm_compute; lia).
  split; [exact SampleFacts.sample_advances|]. split; [reflexivity|].
  split; [reflexivity|]. split; [exact Hb|]. split; [exact Hg|].
  split; [exact Hf|].
  exact (escape_protects_once Sample.externals SampleFacts.sample_advances
           s "- item" ul_body 10 eq_refl eq_refl Hb Hg Hf).
Defined.

Lemma readToNext_text_witness :
  let r := {| Reader.lines := ["- one"; "more"; "\- text"; EmptyString; "after"];
              Reader.pos := 1 |} in
  Reader.remaining r < 10 /\
  exists next r' w' k,
    readToNext Sample.externals 10 r [] tt = Some (next, r', w') /\
    w' = [] ++ flat_map (fun l => [l; nl])
                 (firstn k (skipn (Reader.pos r) (Reader.lines r'))) /\
    k <= Reader.remaining r /\
    Forall (fun l => l <> EmptyString)
      (firstn k (skipn (Reader.pos r) (Reader.lines r'))) /\
    (Reader.pos r' = Reader.pos r + k \/
     (Reader.pos r' = Reader.pos r + k + 1 /\
      nth_error (Reader.lines r) (Reader.pos r + k) = Some EmptyString /\
      nth_error (Reader.lines r') (Reader.pos r + k) = Some EmptyString)) /\
    length (Reader.lines r') = length (Reader.lines r) /\
    (forall n, n < Reader.pos r \/ Reader.pos r' < n ->
       nth_error (Reader.lines r') n = nth_error (Reader.lines r) n) /\
    (forall n, unescaped (nth_error (Reader.lines r) n)
                         (nth_error (Reader.lines r') n)).
Proof.
  intros r.
  assert (Hf : Reader.remaining r < 10) by (vm_compute; lia).
  split; [exact Hf|].
  exact (readToNext_text Sample.externals 10 r [] tt Hf).
Defined.

Lemma ul_line_shape_witness :
  exec (match_ ul_def) "  ** two  words" = Some ["  ** two  words"; "**"; "two  words"] /\
  exists e w1 b w2 t,
    list_ascii_of_string "  ** two  words" = e ++ w1 ++ b ++ w2 ++ t /\
    ["  ** two  words"; "**"; "two  words"]
    = ["  ** two  words"; string_of_list_ascii b; string_of_list_ascii t] /\
    (e = [] \/ e = [backslash]) /\ in_class space w1 /\
    In (string_of_list_ascii b) ul_ids /\
    w2 <> [] /\ in_class space w2 /\ in_class dot t /\ no_leading_space t.
Proof.
  assert (E : exec (match_ ul_def) "  ** two  words"
              = Some ["  ** two  words"; "**"; "two  words"])
    by (vm_compute; reflexivity).
  split; [exact E|]. exact (ul_line_shape _ _ E).
Defined.

Lemma ol_line_shape_witness :
  exec (match_ ol_def) "12. twelve" = Some ["12. twelve"; "."; "twelve"] /\
  exists e w1 n d w2 t,
    list_ascii_of_string "12. twelve" = e ++ w1 ++ n ++ d ++ w2 ++ t /\
    ["12. twelve"; "."; "twelve"]
    = ["12. twelve"; string_of_list_ascii d; string_of_list_ascii t] /\
    (e = [] \/ e = [backslash]) /\ in_class space w1 /\ in_class digit n /\
    In (string_of_list_ascii d) ol_ids /\
    w2 <> [] /\ in_class space w2 /\ in_class dot t /\ no_leading_space t.
Proof.
  assert (E : exec (match_ ol_def) "12. twelve"
              = Some ["12. twelve"; "."; "twelve"])
    by (vm_compute; reflexivity).
  split; [exact E|]. exact (ol_line_shape _ _ E).
Defined.

Lemma dl_line_shape_witness :
  exec (match_ dl_def) "Term:: text" = Some ["Term:: text"; "Term"; "::"; " text"] /\
  exists e w1 x c b d,
    list_ascii_of_string "Term:: text" = e ++ w1 ++ (x ++ [c]) ++ b ++ d /\
    ["Term:: text"; "Term"; "::"; " text"]
    = ["Term:: text"; string_of_list_ascii (x ++ [c]); string_of_list_ascii b;
       string_of_list_ascii d] /\
    (e = [] \/ e = [backslash]) /\ in_class space w1 /\
    in_class dot x /\ c <> ":"%char /\
    In (string_of_list_ascii b) dl_ids /\
    (d = [] \/
     exists w t, d = w ++ t /\ w <> [] /\ in_class space w /\ in_class dot t).
Proof.
  assert (E : exec (match_ dl_def) "Term:: text"
              = Some ["Term:: text"; "Term"; "::"; " text"])
    by (vm_compute; reflexivity).
  split; [exact E|]. exact (dl_line_shape _ _ E).
Defined.

Lemma ul_line_recognised_witness :
  exec (match_ ul_def) " - item" <> None.
Proof.
  apply (ul_line_recognised " - item" [] [" "%char] ["-"%char] [" "%char]
           (list_ascii_of_string "item")).
  - reflexivity.
  - left; reflexivity.
  - repeat constructor.
  - simpl; tauto.
  - discriminate.
  - repeat constructor.
  - repeat constructor.
Defined.

Lemma ol_line_recognised_witness :
  exec (match_ ol_def) "3.. item" <> None.
Proof.
  apply (ol_line_recognised "3.. item" [] [] ["3"%char] ["."; "."]%char
           [" "%char] (list_ascii_of_string "item")).
  - reflexivity.
  - left; reflexivity.
  - constructor.
  - repeat constructor.
  - simpl; tauto.
  - discriminate.
  - repeat constructor.
  - repeat constructor.
Defined.

Lemma dl_line_recognised_witness :
  exec (match_ dl_def) "A term::: its text" <> None.
Proof.
  apply (dl_line_recognised "A term::: its text" [] []
           (list_ascii_of_string "A ter") "m"%char [":"; ":"; ":"]%char
           (list_ascii_of_string " its text")).
  - reflexivity.
  - left; reflexivity.
  - constructor.
  - repeat constructor.
  - discriminate.
  - simpl; tauto.
  - right. exists [" "%char], (list_ascii_of_string "its text").
    split; [reflexivity|]. split; [discriminate|].
    split; repeat constructor.
Defined.

Lemma render_list_tags_witness :
  let s := Sample.start ["1. one"; "2. two"] in
  exists s',
    render 15 s = Some (Return true s') /\
    exists line d mid,
      Reader.cursor (reader s) = Some line /\
      first_match line = Some d /\
      writer s'
      = writer s
        ++ [ListOpen (fst (injectHtmlAttributes Sample.externals
                             (listOpenTag d) (env s)))]
        ++ mid ++ [ListClose (listCloseTag d)].
Proof.
  intros s.
  assert (E : {s' | render 15 s = Some (Return true s')}).
  { eexists. vm_compute. reflexivity. }
  destruct E as [s' E]. exists s'. split; [exact E|].
  exact (render_list_tags Sample.externals 15 s s' E).
Defined.

Lemma render_depth_bounded_witness :
  let s := Sample.start ["- one"; ". two"; "* three"; "- again"] in
  exists s',
    render 30 s = Some (Return true s') /\
    exists d,
      writer s' = writer s ++ d /\
      forall p q, d = p ++ q -> (list_depth p <= 13)%Z.
Proof.
  intros s.
  assert (E : {s' | render 30 s = Some (Return true s')}).
  { eexists. vm_compute. reflexivity. }
  destruct E as [s' E]. exists s'. split; [exact E|].
  exact (render_depth_bounded Sample.externals 30 s s' E).
Defined.

Lemma list_ends_at_blank_line_witness :
  let s := Sample.start
             ["- one"; "  * nested"; "more of nested"; EmptyString; "after"] in
  plain_lines Sample.externals (reader s) /\
  exists s',
    render 30 s = Some (Return true s') /\
    after_blank (reader s').
Proof.
  intros s.
  assert (Hp : plain_lines Sample.externals (reader s)).
  { intros k line name e _ Hk Hd _. simpl. unfold Sample.indented_only.
    destruct (String.eqb name "indented"); [|reflexivity].
    destruct k as [|k]; [inversion Hk; reflexivity|].
    destruct k as [|k].
    { inversion Hk; subst. specialize (Hd ul_def (or_introl eq_refl)).
      vm_compute in Hd. discriminate. }
    do 3 (destruct k as [|k]; [inversion Hk; reflexivity|]).
    destruct k; discriminate. }
  assert (E : {s' | render 30 s = Some (Return true s')}).
  { eexists. vm_compute. reflexivity. }
  destruct E as [s' E]. split; [exact Hp|]. exists s'. split; [exact E|].
  exact (list_ends_at_blank_line Sample.externals 30 s s' Hp E).
Defined.

Lemma render_well_nested_witness :
  let s := Sample.start
             ["Term:: text"; "- one"; EmptyString; "  attached"; EmptyString;
              "- two"] in
  exists s',
    render 40 s = Some (Return true s') /\
    exists d, writer s' = writer s ++ d /\ nesting d [] = Some [].
Proof.
  intros s.
  assert (E : {s' | render 40 s = Some (Return true s')}).
  { eexists. vm_compute. reflexivity. }
  destruct E as [s' E]. exists s'. split; [exact E|].
  exact (render_well_nested Sample.externals 40 s s' E).
Defined.

Section RimucWitnesses.

Import Rimuc.

Lemma parsed_options_in_range_witness :
  exists o,
    parse initial ["--safe-mode"; "5"; "-o"; "out.html"; "-s"; "a.rmu"; "-l"]
    = Run o ["a.rmu"; "-l"] /\
    mode_in_range (safeMode o) /\ outfile_given (outfile o) /\
    exists used,
      ["--safe-mode"; "5"; "-o"; "out.html"; "-s"; "a.rmu"; "-l"]
      = used ++ ["a.rmu"; "-l"].
Proof.
  assert (E : {o | parse initial
                     ["--safe-mode"; "5"; "-o"; "out.html"; "-s"; "a.rmu"; "-l"]
                   = Run o ["a.rmu"; "-l"]}).
  { eexists. vm_compute. reflexivity. }
  destruct E as [o E]. exists o. split; [exact E|].
  exact (parsed_options_in_range _ _ _ E).
Defined.

Lemma default_outfile_replaces_extension_witness :
  lacks "." "rmu" /\
  default_outfile ("notes.v2" ++ "." ++ "rmu") = ("notes.v2" ++ ".html")%string /\
  default_outfile "rmu" = ".html".
Proof.
  assert (H : lacks "." "rmu") by (simpl; repeat split; discriminate).
  split; [exact H|].
  exact (default_outfile_replaces_extension "notes.v2" "rmu" H).
Defined.

Lemma convert_stops_at_html_witness :
  let c := {| html := EmptyString; errors := 0; stderr := []; rimu := tt |} in
  is_html "b.html" = true /\
  convert every_file echo_file one_warning "rc" initial
    (["a.rmu"] ++ "b.html" :: ["c.rmu"]) c
  = convert every_file echo_file one_warning "rc" initial
      (["a.rmu"] ++ ["b.html"]) c.
Proof.
  intros c.
  assert (H : is_html "b.html" = true) by reflexivity.
  split; [exact H|].
  exact (convert_stops_at_html every_file echo_file unit one_warning "rc"
           initial ["a.rmu"] ["c.rmu"] "b.html" c H).
Defined.

Lemma convert_counts_errors_witness :
  let c := {| html := EmptyString; errors := 0; stderr := []; rimu := tt |} in
  exists c',
    convert every_file echo_file one_warning "rc" (set_lint initial)
      ["a.rmu"; "b.rmu"] c = Finished c' /\
    exists printed,
      stderr c' = stderr c ++ printed /\
      errors c' = errors c + length printed /\
      Forall (fun line => String.length line <= 120) printed /\
      (lint (set_lint initial) = false -> printed = []).
Proof.
  intros c.
  assert (E : {c' | convert every_file echo_file one_warning "rc"
                      (set_lint initial) ["a.rmu"; "b.rmu"] c = Finished c'}).
  { eexists. vm_compute. reflexivity. }
  destruct E as [c' E]. exists c'. split; [exact E|].
  exact (convert_counts_errors every_file echo_file unit one_warning "rc"
           (set_lint initial) ["a.rmu"; "b.rmu"] c c' E).
Defined.
End RimucWitnesses.

(** * The dispatch of the next item *)



(** * An escape met by the scan of an item *)

Section EscapeInScan.

Import Reader ReaderFacts MoreReaderFacts MoreRegexFacts.

Variable X : Externals.
Hypothesis Hadv : advances X.

(** The scan of an item that meets, after a single blank line, a
    backslash before a list item: [matchItem] drops the backslash and
    gives no element, so the scan ends the list and leaves the item,
    without its backslash, at the cursor; a [render] from there takes
    the line for a list item. *)
Lemma escape_dropped_by_scan (r : t) (w : Writer.t string) (e : Env X)
    (fuel : nat) (rest : string) (body : regex) :
  cursor r = Some EmptyString ->
  cursor (next r) = Some (String backslash rest) ->
  starts_with_backslash rest = false ->
  In body [ul_body; ol_body; dl_body] ->
  groups body (list_ascii_of_string rest) <> None ->
  readToNext X (S fuel) r w e = Some (None, set_cursor rest (next r), w) /\
  cursor (set_cursor rest (next r)) = Some rest /\
  forall (s : St X) fuel',
    reader s = set_cursor rest (next r) ->
    fuel_for (reader s) <= fuel' ->
    exists s2, render fuel' s = Some (Return true s2).
Proof.
  intros Hc Hn Hb Hbody Hg.
  pose proof (cursor_not_eof _ _ Hc) as Eof.
  pose proof (cursor_not_eof _ _ Hn) as Eof1.
  assert (Hd : exists d, In d defs /\ match_ d = escaped body).
  { destruct Hbody as [<-|[<-|[<-|[]]]];
      [exists ul_def|exists ol_def|exists dl_def]; simpl; auto. }
  destruct Hd as (d & Hd & Hr).
  assert (Hm1 : exec (match_ d) (String backslash rest) <> None).
  { rewrite Hr. unfold exec. cbn [list_ascii_of_string].
    pose proof (escaped_backslash body _ Hg) as G.
    destruct (groups (escaped body) _); [discriminate|contradiction]. }
  assert (Hm2 : exec (match_ d) rest <> None).
  { rewrite Hr. unfold exec.
    pose proof (escaped_plain body _ Hg) as G.
    destruct (groups (escaped body) _); [discriminate|contradiction]. }
  assert (Hcur : cursor (set_cursor rest (next r)) = Some rest)
    by (apply cursor_set_cursor; exact Eof1).
  split; [|split; [exact Hcur|]].
  - simpl. rewrite Eof, Hc. cbn [blank]. rewrite Hn, Eof1. cbn [blank].
    pose proof (matchItem_matched X (next r) ["indented"] e _ d Hn Hd Hm1) as M.
    cbn [starts_with_backslash slice1] in M.
    replace (Ascii.eqb backslash backslash) with true in M by reflexivity.
    rewrite M. reflexivity.
  - intros s fuel' Hs Hf.
    assert (Hcs : cursor (reader s) = Some rest) by (rewrite Hs; exact Hcur).
    destruct (render_cases X s fuel' _ Hcs)
      as [(Hno & _)|[(_ & B & _)|(_ & _ & i & _ & R2)]].
    + exfalso. apply Hm2. apply Hno. exact Hd.
    + congruence.
    + destruct (renderList_total X Hadv i
                  (set_ids [] (set_reader (reader s) s)) fuel')
        as [[nextItem s3] E]; [exact Hf|].
      rewrite E in R2. exists s3. exact R2.
Qed.

End EscapeInScan.

(** C6, at the input on which it fails.  The lines are [- a], a
    blank line, and a backslash before [- b].  The first [render]
    renders the list of [- a]; its scan meets the escaped line after
    the blank line, drops the backslash and ends the list, leaving
    [- b] at the cursor.  The next [render], which the dispatcher
    calls on the line at the cursor, takes it for a list item and
    writes a second list: the escaped line is not ordinary text. *)
Theorem escape_lost_after_blank_line :
  let s := Sample.start ["- a"; EmptyString; "\- b"] in
  exists s1 s2,
    render 20 s = Some (Return true s1) /\
    reader s1 = {| Reader.lines := ["- a"; EmptyString; "- b"];
                   Reader.pos := 2 |} /\
    writer s1
    = [ListOpen "<ul>"; ItemOpen "<li>"; Text ("a" ++ nl);
       ItemClose "</li>"; ListClose "</ul>"] /\
    render 20 s1 = Some (Return true s2) /\
    writer s2
    = writer s1
      ++ [ListOpen "<ul>"; ItemOpen "<li>"; Text ("b" ++ nl);
          ItemClose "</li>"; ListClose "</ul>"] /\
    Sample.html (render 20 s1)
    = ("<ul><li>a" ++ nl ++ "</li></ul><ul><li>b" ++ nl ++ "</li></ul>")%string.
Proof.
  intros s.
  exists (@Build_St Sample.externals
            {| Reader.lines := ["- a"; EmptyString; "- b"]; Reader.pos := 2 |}
            [ListOpen "<ul>"; ItemOpen "<li>"; Text ("a" ++ nl);
             ItemClose "</li>"; ListClose "</ul>"] [] tt).
  eexists. split; [vm_compute; reflexivity|]. split; [reflexivity|].
  split; [reflexivity|]. split; [vm_compute; reflexivity|].
  split; vm_compute; reflexivity.
Qed.
